(** * AutoSAR: the redaction and allowlisting engine

    A shallow embedding of [src/app.py] (the Bedrock/Lambda variant) and of
    the redaction function of [src/Azure/app.py], with the properties that
    the specification states about them.

    Conventions of the model.
    - A Python [str] is a [list ascii]; every character is read as the code
      point of the same number (0..255).  The character classes of the
      regular expressions follow Python's Unicode rules on that range.
    - [bytes] are lists of integers in 0..255; 32-bit words are integers
      with the wrap-around written out.
    - A Python [dict] is an association list in insertion order; a dict
      comprehension is rebuilt key by key with [dict_set].
    - [hmac], [hashlib.sha256] and [re] are modelled by executable
      definitions; [json.loads] is a parameter of the functions that call
      it, and so are the model, the object store and the clock of the
      handler. *)

From Stdlib Require Import Ascii String ZArith Lia Bool Arith DecimalString.
From Stdlib Require Import List.
Import ListNotations.
Open Scope Z_scope.

(** ** Strings and bytes *)

Definition str := list ascii.
Definition bytes := list Z.

Definition s2l (s : string) : str := list_ascii_of_string s.

Definition ord (c : ascii) : Z := Z.of_N (N_of_ascii c).
Definition chr (z : Z) : ascii := ascii_of_N (Z.to_N z).

(** [str.encode()]: UTF-8 of code points below 256. *)
Definition encode_char (c : ascii) : bytes :=
  let cp := ord c in
  if cp <? 128 then [cp]
  else [Z.lor 192 (Z.shiftr cp 6); Z.lor 128 (Z.land cp 63)].

Definition encode (s : str) : bytes := flat_map encode_char s.

(** ** SHA-256 (FIPS 180-4), as [hashlib.sha256] computes it *)

Module Sha256.

Definition w32 (x : Z) : Z := x mod 4294967296.
Definition add32 (a b : Z) : Z := w32 (a + b).
Definition rotr (n x : Z) : Z :=
  Z.lor (Z.shiftr x n) (w32 (Z.shiftl x (32 - n))).
Definition not32 (x : Z) : Z := 4294967295 - x.

Definition Ch (x y z : Z) : Z := Z.lxor (Z.land x y) (Z.land (not32 x) z).
Definition Maj (x y z : Z) : Z :=
  Z.lxor (Z.lxor (Z.land x y) (Z.land x z)) (Z.land y z).
Definition bsig0 (x : Z) : Z := Z.lxor (Z.lxor (rotr 2 x) (rotr 13 x)) (rotr 22 x).
Definition bsig1 (x : Z) : Z := Z.lxor (Z.lxor (rotr 6 x) (rotr 11 x)) (rotr 25 x).
Definition ssig0 (x : Z) : Z := Z.lxor (Z.lxor (rotr 7 x) (rotr 18 x)) (Z.shiftr x 3).
Definition ssig1 (x : Z) : Z := Z.lxor (Z.lxor (rotr 17 x) (rotr 19 x)) (Z.shiftr x 10).

(** The round constants and the initial hash value of the standard, written
    in decimal. *)
Definition K : list Z :=
  [ 1116352408; 1899447441; 3049323471; 3921009573; 961987163; 1508970993;
    2453635748; 2870763221; 3624381080; 310598401; 607225278; 1426881987;
    1925078388; 2162078206; 2614888103; 3248222580; 3835390401; 4022224774;
    264347078; 604807628; 770255983; 1249150122; 1555081692; 1996064986;
    2554220882; 2821834349; 2952996808; 3210313671; 3336571891; 3584528711;
    113926993; 338241895; 666307205; 773529912; 1294757372; 1396182291;
    1695183700; 1986661051; 2177026350; 2456956037; 2730485921; 2820302411;
    3259730800; 3345764771; 3516065817; 3600352804; 4094571909; 275423344;
    430227734; 506948616; 659060556; 883997877; 958139571; 1322822218;
    1537002063; 1747873779; 1955562222; 2024104815; 2227730452; 2361852424;
    2428436474; 2756734187; 3204031479; 3329325298 ].

Definition H0 : list Z :=
  [ 1779033703; 3144134277; 1013904242; 2773480762;
    1359893119; 2600822924; 528734635; 1541459225 ].

(** Big-endian bytes of a [n]-byte integer. *)
Fixpoint be_bytes (n : nat) (x : Z) : bytes :=
  match n with
  | O => []
  | S n' => Z.land (Z.shiftr x (8 * Z.of_nat n')) 255 :: be_bytes n' x
  end.

Fixpoint be_words (fuel : nat) (bs : bytes) : list Z :=
  match fuel, bs with
  | S f, b0 :: b1 :: b2 :: b3 :: rest =>
      (((b0 * 256 + b1) * 256 + b2) * 256 + b3) :: be_words f rest
  | _, _ => []
  end.

(** Message padding: one [0x80], zeros up to 56 mod 64, the bit length. *)
Definition pad (msg : bytes) : bytes :=
  let len := Z.of_nat (length msg) in
  let zeros := Z.to_nat ((55 - len) mod 64) in
  msg ++ [128] ++ repeat 0 zeros ++ be_bytes 8 (8 * len).

(** The message schedule, built newest word first. *)
Fixpoint extend (n : nat) (rev_w : list Z) : list Z :=
  match n with
  | O => rev_w
  | S n' =>
      let w := add32 (add32 (ssig1 (nth 1 rev_w 0)) (nth 6 rev_w 0))
                     (add32 (ssig0 (nth 14 rev_w 0)) (nth 15 rev_w 0)) in
      extend n' (w :: rev_w)
  end.

Definition schedule (block : list Z) : list Z := rev (extend 48 (rev block)).

Definition round (st : list Z) (kw : Z * Z) : list Z :=
  match st with
  | [a; b; c; d; e; f; g; h] =>
      let t1 := add32 (add32 (add32 h (bsig1 e)) (add32 (Ch e f g) (fst kw))) (snd kw) in
      let t2 := add32 (bsig0 a) (Maj a b c) in
      [add32 t1 t2; a; b; c; add32 d t1; e; f; g]
  | _ => st
  end.

Definition compress (h : list Z) (block : list Z) : list Z :=
  let st := fold_left round (combine K (schedule block)) h in
  map (fun p => add32 (fst p) (snd p)) (combine h st).

Fixpoint blocks (fuel : nat) (ws : list Z) : list (list Z) :=
  match fuel, ws with
  | S f, _ :: _ => firstn 16 ws :: blocks f (skipn 16 ws)
  | _, _ => []
  end.

Definition digest (msg : bytes) : bytes :=
  let p := pad msg in
  let ws := be_words (length p) p in
  flat_map (be_bytes 4) (fold_left compress (blocks (length ws) ws) H0).

End Sha256.

(** ** HMAC (RFC 2104) with SHA-256, as [hmac.new(key, msg, hashlib.sha256)] *)

Module Hmac.

Definition block_size : nat := 64.

Definition norm_key (key : bytes) : bytes :=
  let k := if (Z.of_nat (length key) >? 64) then Sha256.digest key else key in
  k ++ repeat 0 (block_size - length k).

Definition digest (key msg : bytes) : bytes :=
  let k := norm_key key in
  let ipad := map (fun b => Z.lxor b 54) k in
  let opad := map (fun b => Z.lxor b 92) k in
  Sha256.digest (opad ++ Sha256.digest (ipad ++ msg)).

Definition hex_digit (z : Z) : ascii :=
  if z <? 10 then chr (48 + z) else chr (87 + z).

Definition hex_byte (b : Z) : str := [hex_digit (b / 16); hex_digit (b mod 16)].

(** [.hexdigest()]: two lowercase hexadecimal digits per byte. *)
Definition hexdigest (key msg : bytes) : str := flat_map hex_byte (digest key msg).

End Hmac.

(** ** Regular expressions, as Python's [re] matches them

    A backtracking matcher explores the alternatives of a pattern in a
    fixed priority order and reports the first complete match.  [ends r st]
    lists, in that priority order, every state in which a match of [r]
    started in [st] can end; the head of the list is the match [re] finds.
    A state is the character before the current position (for [\b]) and
    the text from the current position on. *)

Module Re.

Inductive item : Type :=
  | Range (lo hi : ascii)
  | One (c : ascii).

Inductive regex : Type :=
  | Lit (c : ascii)                     (* a literal character *)
  | LitI (c : ascii)                    (* a literal under re.IGNORECASE *)
  | Class (items : list item)           (* [...] *)
  | Digit                               (* \d *)
  | NotSpace                            (* \S *)
  | WordB                               (* \b *)
  | Cat (r1 r2 : regex)
  | Alt (r1 r2 : regex)                 (* r1|r2 *)
  | Rep (greedy : bool) (min : nat) (max : option nat) (r : regex).

Arguments Range (lo hi)%_char.
Arguments One c%_char.
Arguments Lit c%_char.
Arguments LitI c%_char.

Definition state : Type := option ascii * str.

Definition between (lo hi : Z) (c : ascii) : bool :=
  (lo <=? ord c) && (ord c <=? hi).

(** [\d], [\s] and [\w] on code points 0..255 (Unicode rules of a [str]
    pattern). *)
Definition is_digit (c : ascii) : bool := between 48 57 c.

Definition is_space (c : ascii) : bool :=
  between 9 13 c || between 28 32 c || (ord c =? 133) || (ord c =? 160).

Definition is_alnum (c : ascii) : bool :=
  between 48 57 c || between 65 90 c || between 97 122 c
  || (ord c =? 170) || between 178 179 c || (ord c =? 181)
  || between 185 186 c || between 188 190 c || between 192 214 c
  || between 216 246 c || between 248 255 c.

Definition is_word (c : ascii) : bool := is_alnum c || (ord c =? 95).

Definition lower (c : ascii) : ascii :=
  if between 65 90 c then chr (ord c + 32) else c.

Definition in_item (c : ascii) (i : item) : bool :=
  match i with
  | Range lo hi => between (ord lo) (ord hi) c
  | One x => Ascii.eqb c x
  end.

Definition in_class (items : list item) (c : ascii) : bool :=
  existsb (in_item c) items.

(** Consume one character that satisfies [ok]. *)
Definition step (ok : ascii -> bool) (st : state) : list state :=
  match snd st with
  | c :: rest => if ok c then [(Some c, rest)] else []
  | [] => []
  end.

Definition word_before (st : state) : bool :=
  match fst st with Some c => is_word c | None => false end.

Definition word_after (st : state) : bool :=
  match snd st with c :: _ => is_word c | [] => false end.

(** [\b]: exactly one of the two neighbours is a word character. *)
Definition at_boundary (st : state) : bool :=
  xorb (word_before st) (word_after st).

Definition shorter (st st' : state) : bool :=
  (length (snd st') <? length (snd st))%nat.

(** [min] to [max] repetitions of [one]; a greedy repetition tries one more
    iteration before it tries to stop, a lazy one the other way round.  An
    iteration that consumes nothing is not repeated. *)
Fixpoint rep (one : state -> list state) (greedy : bool) (fuel : nat)
    (min : nat) (max : option nat) (st : state) : list state :=
  match fuel with
  | O => match min with O => [st] | S _ => [] end
  | S f =>
      let more :=
        match max with
        | Some O => []
        | _ => flat_map (rep one greedy f (pred min) (option_map pred max))
                        (filter (shorter st) (one st))
        end in
      match min with
      | S _ => more
      | O => if greedy then more ++ [st] else st :: more
      end
  end.

Fixpoint ends (r : regex) : state -> list state :=
  match r with
  | Lit c => step (Ascii.eqb c)
  | LitI c => step (fun x => Ascii.eqb (lower x) (lower c))
  | Class items => step (in_class items)
  | Digit => step is_digit
  | NotSpace => step (fun x => negb (is_space x))
  | WordB => fun st => if at_boundary st then [st] else []
  | Cat r1 r2 => fun st => flat_map (ends r2) (ends r1 st)
  | Alt r1 r2 => fun st => ends r1 st ++ ends r2 st
  | Rep greedy min max r' =>
      fun st => rep (ends r') greedy (S (length (snd st))) min max st
  end.

(** The match that starts at the current position, if there is one. *)
Definition match_here (r : regex) (st : state) : option state :=
  hd_error (ends r st).

(** [pattern.sub(repl, s)]: scan from the left; at each position try a
    match; replace a match by [repl] of the matched text and go on behind
    it, else copy one character.  An empty match is replaced too and the
    scan moves one character on. *)
Fixpoint sub_loop (r : regex) (repl : str -> str) (fuel : nat)
    (prev : option ascii) (rest : str) : str :=
  match fuel with
  | O => rest
  | S f =>
      let copy :=
        match rest with
        | [] => []
        | c :: tl => c :: sub_loop r repl f (Some c) tl
        end in
      match match_here r (prev, rest) with
      | Some (prev', rest') =>
          let m := firstn (length rest - length rest') rest in
          repl m ++ (if (length rest' <? length rest)%nat
                     then sub_loop r repl f prev' rest'
                     else copy)
      | None => copy
      end
  end.

Definition sub (r : regex) (repl : str -> str) (s : str) : str :=
  sub_loop r repl (S (length s)) None s.

(** Pattern syntax. *)
Fixpoint cat (rs : list regex) : regex :=
  match rs with
  | [] => Rep true 0 (Some 0%nat) WordB
  | [r] => r
  | r :: rs' => Cat r (cat rs')
  end.

Definition plus (r : regex) : regex := Rep true 1 None r.            (* r+ *)
Definition opt (r : regex) : regex := Rep true 0 (Some 1%nat) r.      (* r? *)
Definition lazy_star (r : regex) : regex := Rep false 0 None r.       (* r*? *)
Definition times (n : nat) (r : regex) : regex := Rep true n (Some n) r.      (* r{n} *)
Definition at_least (n : nat) (r : regex) : regex := Rep true n None r.       (* r{n,} *)
Definition from_to (m n : nat) (r : regex) : regex := Rep true m (Some n) r.  (* r{m,n} *)

End Re.

(** ** Redaction utilities of [src/app.py] *)

Import Re.

(** [_SECRET = os.environ.get("REDACTION_SECRET", "project-secret").encode()];
    the environment is the list of its variables. *)
Definition environ := list (str * str).

Fixpoint environ_get (env : environ) (name default : str) : str :=
  match env with
  | [] => default
  | (k, v) :: env' =>
      if list_eq_dec ascii_dec k name then v else environ_get env' name default
  end.

Definition _SECRET (env : environ) : bytes :=
  encode (environ_get env (s2l "REDACTION_SECRET") (s2l "project-secret")).

(** [x[:n]] *)
Definition slice_to {A : Type} (n : Z) (l : list A) : list A :=
  if 0 <=? n then firstn (Z.to_nat n) l
  else firstn (Z.to_nat (Z.of_nat (length l) + n)) l.

Section Redaction.

(** The module-level key. *)
Variable secret : bytes.

(** [_stable_tag(kind, text, n=6)] *)
Definition _stable_tag_n (kind text : str) (n : Z) : str :=
  let h := slice_to n (Hmac.hexdigest secret (encode text)) in
  s2l "[" ++ kind ++ s2l ":" ++ h ++ s2l "]".

Definition _stable_tag (kind text : str) : str := _stable_tag_n kind text 6.

Definition alpha : list item := [Range "A" "Z"; Range "a" "z"].
Definition alnum : list item := [Range "A" "Z"; Range "a" "z"; Range "0" "9"].

(** [[A-Za-z0-9._%+-]+@[A-Za-z0-9.-]+\.[A-Za-z]{2,}] *)
Definition _email_re : regex :=
  cat [ plus (Class (alnum ++ [One "."; One "_"; One "%"; One "+"; One "-"]));
        Lit "@";
        plus (Class (alnum ++ [One "."; One "-"]));
        Lit ".";
        at_least 2 (Class alpha) ].

(** [\b(?:\d[ -]*?){13,19}\b] *)
Definition _card_re : regex :=
  cat [ WordB;
        from_to 13 19 (Cat Digit (lazy_star (Class [One " "; One "-"])));
        WordB ].

(** [\b\d{3}-\d{2}-\d{4}\b] *)
Definition _ssn_re : regex :=
  cat [ WordB; times 3 Digit; Lit "-"; times 2 Digit; Lit "-"; times 4 Digit; WordB ].

(** [\b\d{6,18}\b] *)
Definition _acct_re : regex :=
  cat [ WordB; from_to 6 18 Digit; WordB ].

(** [25[0-5]|2[0-4]\d|[01]?\d?\d] *)
Definition octet : regex :=
  Alt (cat [Lit "2"; Lit "5"; Class [Range "0" "5"]])
      (Alt (cat [Lit "2"; Class [Range "0" "4"]; Digit])
           (cat [opt (Class [One "0"; One "1"]); opt Digit; Digit])).

(** [\b(?:(?:25[0-5]|2[0-4]\d|[01]?\d?\d)\.){3}(?:25[0-5]|2[0-4]\d|[01]?\d?\d)\b] *)
Definition _ip_re : regex :=
  cat [ WordB; times 3 (Cat octet (Lit ".")); octet; WordB ].

(** [\bhttps?://\S+\b] with [re.IGNORECASE] *)
Definition _url_re : regex :=
  cat [ WordB; LitI "h"; LitI "t"; LitI "t"; LitI "p"; opt (LitI "s");
        LitI ":"; LitI "/"; LitI "/"; plus NotSpace; WordB ].

(** [\b([A-Za-z0-9-]+\.)+[A-Za-z]{2,}\b] *)
Definition _domain_re : regex :=
  cat [ WordB;
        plus (Cat (plus (Class (alnum ++ [One "-"]))) (Lit "."));
        at_least 2 (Class alpha);
        WordB ].

Definition _scrub_str (s : str) : str :=
  let s := sub _email_re (fun m => _stable_tag (s2l "EMAIL") m) s in
  let s := sub _ssn_re (fun m => _stable_tag (s2l "SSN") m) s in
  let s := sub _card_re (fun m => _stable_tag (s2l "CARD") m) s in
  let s := sub _acct_re (fun m => _stable_tag (s2l "ACCT") m) s in
  let s := sub _ip_re (fun m => _stable_tag (s2l "IP") m) s in
  let s := sub _url_re (fun m => _stable_tag (s2l "URL") m) s in
  let s := sub _domain_re (fun m => _stable_tag (s2l "DOMAIN") m) s in
  s.

End Redaction.

(** ** JSON values

    What [json.loads] returns and [json.dumps] prints.  An [int] is an
    integer of any size; a [float] is carried by the text [json.dumps]
    prints for it (its [repr], or [NaN], [Infinity], [-Infinity]); the
    code under study only passes numbers through. *)

#[local] Unset Elimination Schemes.
Inductive json : Type :=
  | JNull
  | JBool (b : bool)
  | JInt (z : Z)
  | JFloat (repr : str)
  | JStr (s : str)
  | JList (l : list json)
  | JDict (d : list (str * json)).
#[local] Set Elimination Schemes.

Definition dict := list (str * json).

Definition str_eqb (a b : str) : bool :=
  if list_eq_dec ascii_dec a b then true else false.

Definition keys {V : Type} (d : list (str * V)) : list str := map fst d.

(** [d[k]], [None] standing for [KeyError]. *)
Fixpoint dict_get {V : Type} (d : list (str * V)) (k : str) : option V :=
  match d with
  | [] => None
  | (k', v) :: d' => if str_eqb k' k then Some v else dict_get d' k
  end.

(** [d[k] = v]: an existing key keeps its place, a new key goes last. *)
Fixpoint dict_set {V : Type} (k : str) (v : V) (d : list (str * V)) : list (str * V) :=
  match d with
  | [] => [(k, v)]
  | (k', v') :: d' =>
      if str_eqb k' k then (k', v) :: d' else (k', v') :: dict_set k v d'
  end.

(** The dict a comprehension builds from the pairs it produces, in order. *)
Definition dict_of_items {V : Type} (items : list (str * V)) : list (str * V) :=
  fold_left (fun acc kv => dict_set (fst kv) (snd kv) acc) items [].

(** [k in S] for a set of strings. *)
Definition str_in (k : str) (S : list str) : bool := existsb (str_eqb k) S.

Section Walker.

Variable secret : bytes.

(** [scrub(obj)] *)
Fixpoint scrub (obj : json) : json :=
  match obj with
  | JNull => JNull
  | JStr s => JStr (_scrub_str secret s)
  | JInt _ | JFloat _ | JBool _ => obj
  | JList l => JList (map scrub l)
  | JDict d => JDict (dict_of_items (map (fun kv => (fst kv, scrub (snd kv))) d))
  end.

End Walker.

Definition ALLOWED_FIELDS : list str :=
  map s2l [ "case_id"; "summary"; "timeline"; "indicators";
            "amount_usd"; "detected_by"; "actions_taken"; "date" ]%string.

(** [allowlist(d)]: [{k: d[k] for k in d if k in ALLOWED_FIELDS}] *)
Definition allowlist (d : dict) : dict :=
  dict_of_items
    (flat_map (fun k =>
       if str_in k ALLOWED_FIELDS
       then match dict_get d k with Some v => [(k, v)] | None => [] end
       else [])
     (keys d)).

(** ** [json.dumps] *)

Module Dumps.

Definition hex4 (c : ascii) : str :=
  s2l "\u00" ++ Hmac.hex_byte (ord c).

(** One character of a string literal with [ensure_ascii=False]: the quote,
    the backslash and the control characters are escaped. *)
Definition escape_char (c : ascii) : str :=
  let n := ord c in
  if n =? 34 then [chr 92; chr 34] else
  if n =? 92 then s2l "\\" else
  if n =? 10 then s2l "\n" else
  if n =? 13 then s2l "\r" else
  if n =? 9 then s2l "\t" else
  if n =? 8 then s2l "\b" else
  if n =? 12 then s2l "\f" else
  if n <? 32 then hex4 c else [c].

(** With [ensure_ascii=True] every character outside [' '..'~'] is escaped
    as well. *)
Definition escape_char_ascii (c : ascii) : str :=
  let n := ord c in
  if (n <? 32) || (n =? 34) || (n =? 92) then escape_char c
  else if 126 <? n then hex4 c else [c].

Definition quote (esc : ascii -> str) (s : str) : str :=
  [chr 34] ++ flat_map esc s ++ [chr 34].

Definition int_text (z : Z) : str :=
  s2l (DecimalString.NilZero.string_of_int (Z.to_int z)).

Fixpoint join (sep : str) (parts : list str) : str :=
  match parts with
  | [] => []
  | [p] => p
  | p :: ps => p ++ sep ++ join sep ps
  end.

Definition scalar (esc : ascii -> str) (v : json) : str :=
  match v with
  | JNull => s2l "null"
  | JBool true => s2l "true"
  | JBool false => s2l "false"
  | JInt z => int_text z
  | JFloat r => r
  | JStr s => quote esc s
  | _ => []
  end.

(** [json.dumps(v, ensure_ascii=False)]: separators [", "] and [": "]. *)
Fixpoint compact (v : json) : str :=
  match v with
  | JList l => s2l "[" ++ join (s2l ", ") (map compact l) ++ s2l "]"
  | JDict d =>
      s2l "{" ++
      join (s2l ", ")
        (map (fun kv => quote escape_char (fst kv) ++ s2l ": " ++ compact (snd kv)) d)
      ++ s2l "}"
  | _ => scalar escape_char v
  end.

Definition newline_indent (level : nat) : str :=
  chr 10 :: repeat (chr 32) (2 * level).

(** [json.dumps(v, indent=2)] (with the default [ensure_ascii=True]). *)
Fixpoint pretty (level : nat) (v : json) : str :=
  match v with
  | JList [] => s2l "[]"
  | JList l =>
      s2l "[" ++ newline_indent (S level) ++
      join (s2l "," ++ newline_indent (S level)) (map (pretty (S level)) l)
      ++ newline_indent level ++ s2l "]"
  | JDict [] => s2l "{}"
  | JDict d =>
      s2l "{" ++ newline_indent (S level) ++
      join (s2l "," ++ newline_indent (S level))
        (map (fun kv => quote escape_char_ascii (fst kv) ++ s2l ": "
                        ++ pretty (S level) (snd kv)) d)
      ++ newline_indent level ++ s2l "}"
  | _ => scalar escape_char_ascii v
  end.

End Dumps.

(** ** The payload builder *)

Inductive exn : Type :=
  | JSONDecodeError.

Inductive result (A : Type) : Type :=
  | Ok (a : A)
  | Raise (e : exn).
Arguments Ok {A} a.
Arguments Raise {A} e.

Definition bind {A B : Type} (r : result A) (k : A -> result B) : result B :=
  match r with
  | Ok a => k a
  | Raise e => Raise e
  end.

Notation "x <- r ;; k" := (bind r (fun x => k))
  (at level 61, r at next level, right associativity).

Section Payload.

(** [json.loads]: the parsed value, or [JSONDecodeError]. *)
Variable json_loads : str -> result json.
Variable secret : bytes.

(** [make_safe_payload(security_detail_json)]; the argument is any value a
    caller hands over, a [str] being JSON text. *)
Definition make_safe_payload (security_detail_json : json) : result str :=
  data <- match security_detail_json with
          | JStr text => json_loads text
          | _ => Ok security_detail_json
          end ;;
  let data := allowlist (match data with JDict d => d | _ => [] end) in
  let data := scrub secret (JDict data) in
  Ok (Dumps.compact data).

End Payload.

(** ** The redaction of [src/Azure/app.py] *)

Module Azure.

Definition SENSITIVE_KEYS : list str :=
  map s2l [ "account_id"; "account_number"; "card_number"; "ssn"; "email";
            "ip_address"; "url"; "domain"; "name"; "linked_accounts";
            "transaction_id" ]%string.

(** [str.lower()] on code points 0..255. *)
Definition lower_char (c : ascii) : ascii :=
  if between 65 90 c || between 192 214 c || between 216 222 c
  then chr (ord c + 32) else c.

Definition str_lower (s : str) : str := map lower_char s.

(** [str.upper()] on code points 0..255.  The upper-case forms of 181 and
    255 lie above 255; those two are left as they are here.  [redact]
    upper-cases a key only when its lower-case form is one of
    [SENSITIVE_KEYS], and such a key has code points below 128 only. *)
Definition upper_char (c : ascii) : str :=
  if between 97 122 c || between 224 246 c || between 248 254 c
  then [chr (ord c - 32)]
  else if ord c =? 223 then s2l "SS" else [c].

Definition str_upper (s : str) : str := flat_map upper_char s.

(** The inner function [redact(obj)]. *)
Fixpoint redact (obj : json) : json :=
  match obj with
  | JDict d =>
      JDict (dict_of_items
        (map (fun kv =>
                let k := fst kv in
                let key_lower := str_lower k in
                if str_in key_lower SENSITIVE_KEYS
                then (k, JStr (s2l "[" ++ str_upper k ++ s2l "_REDACTED]"))
                else (k, redact (snd kv)))
             d))
  | JList l => JList (map redact l)
  | JStr _ => obj
  | _ => obj
  end.

Section Guardrail.

Variable json_loads : str -> result json.

(** [local_guardrail_redact_json(raw_json)] *)
Definition local_guardrail_redact_json (raw_json : str) : result str :=
  data <- json_loads raw_json ;;
  Ok (Dumps.pretty 0 (redact data)).

End Guardrail.

End Azure.

(** ** The case-id helper of the handler

    [_extract_case_id(sec)] parses the same text as [make_safe_payload]
    does, under [try]/[except]. *)

Definition truthy (v : json) : bool :=
  match v with
  | JNull => false
  | JBool b => b
  | JInt z => negb (z =? 0)
  | JFloat r => negb (str_eqb r (s2l "0.0") || str_eqb r (s2l "-0.0"))
  | JStr s => match s with [] => false | _ => true end
  | JList l => match l with [] => false | _ => true end
  | JDict d => match d with [] => false | _ => true end
  end.

(** [d.get("case_id") or "NA"] *)
Definition case_id_or_na (d : dict) : json :=
  match dict_get d (s2l "case_id") with
  | Some v => if truthy v then v else JStr (s2l "NA")
  | None => JStr (s2l "NA")
  end.

Section CaseId.

Variable json_loads : str -> result json.

Definition _extract_case_id (sec : json) : json :=
  match sec with
  | JDict d => case_id_or_na d
  | JStr text =>
      match json_loads text with
      | Ok (JDict d) => case_id_or_na d
      | Ok _ => JStr (s2l "NA")         (* AttributeError, caught *)
      | Raise _ => JStr (s2l "NA")      (* JSONDecodeError, caught *)
      end
  | _ => JStr (s2l "NA")
  end.

End CaseId.

(** ** Notions the properties are stated with *)

(** The key of a process started without [REDACTION_SECRET]. *)
Definition default_secret : bytes := _SECRET [].

(** The Pattern Library in the order of [_scrub_str], each detector with the
    kind name of its tokens. *)
Definition pattern_library : list (str * regex) :=
  [ (s2l "EMAIL", _email_re); (s2l "SSN", _ssn_re); (s2l "CARD", _card_re);
    (s2l "ACCT", _acct_re); (s2l "IP", _ip_re); (s2l "URL", _url_re);
    (s2l "DOMAIN", _domain_re) ].

(** The String Scrubber in the words of the specification: a fold over the
    ordered library, every detector rewriting the current string. *)
Definition scrub_in_order (secret : bytes) (s : str) : str :=
  fold_left (fun cur p => sub (snd p) (fun m => _stable_tag secret (fst p) m) cur)
            pattern_library s.

(** The state of the matcher at offset [i] of [s]; an offset behind the
    end is the end, as for [pattern.match(s, i)]. *)
Definition state_at (s : str) (i : nat) : state :=
  let i := Nat.min i (length s) in
  (match i with O => None | S j => nth_error s j end, skipn i s).

(** The text a pattern matches when tried at offset [i] of [s]. *)
Definition match_at (r : regex) (s : str) (i : nat) : option str :=
  match match_here r (state_at s i) with
  | Some (_, rest') =>
      Some (firstn (length (skipn i s) - length rest') (skipn i s))
  | None => None
  end.

(** [m] occurs in [t] as a contiguous substring. *)
Definition occurs (m t : str) : Prop := exists pre post, t = pre ++ m ++ post.

Fixpoint prefixb (m t : str) : bool :=
  match m, t with
  | [], _ => true
  | a :: m', b :: t' => Ascii.eqb a b && prefixb m' t'
  | _ :: _, [] => false
  end.

Fixpoint occursb (m t : str) : bool :=
  prefixb m t || match t with [] => false | _ :: t' => occursb m t' end.

(** A tree with the content of its string leaves erased: what is left is
    its shape, the keys and their order, and the other scalars. *)
Fixpoint skeleton (v : json) : json :=
  match v with
  | JStr _ => JStr []
  | JList l => JList (map skeleton l)
  | JDict d => JDict (map (fun kv => (fst kv, skeleton (snd kv))) d)
  | _ => v
  end.

Fixpoint distinct (ks : list str) : bool :=
  match ks with
  | [] => true
  | k :: ks' => negb (str_in k ks') && distinct ks'
  end.

(** A value built of Python dicts: the keys of every mapping are distinct. *)
Fixpoint well_formed (v : json) : bool :=
  match v with
  | JList l => forallb well_formed l
  | JDict d => distinct (keys d) && forallb (fun kv => well_formed (snd kv)) d
  | _ => true
  end.

Definition is_lower_hex (c : ascii) : bool := between 48 57 c || between 97 102 c.

(** ** What a pattern can match

    [derives r p w n]: the pattern [r] can match the text [w] when the
    character before it is [p] and the character after it is [n] (either
    is [None] at an end of the string).  The relation has no priorities
    and no fuel; [ends] lists exactly the matches it allows. *)

Definition prev_after (p : option ascii) (w : str) : option ascii :=
  fold_left (fun _ c => Some c) w p.

Definition next_of (w : str) (n : option ascii) : option ascii :=
  match w with
  | c :: _ => Some c
  | [] => n
  end.

Definition wordo (o : option ascii) : bool :=
  match o with
  | Some c => is_word c
  | None => false
  end.

Section Chain.

Variable D : option ascii -> str -> option ascii -> Prop.

(** Iterations of a repetition, each consuming something. *)
Inductive rep_chain : nat -> option nat -> option ascii -> str -> option ascii -> Prop :=
  | chain_stop (max : option nat) (p n : option ascii) :
      rep_chain 0 max p [] n
  | chain_more (min : nat) (max : option nat) (p n : option ascii) (w1 w2 : str) :
      max <> Some 0%nat ->
      w1 <> [] ->
      D p w1 (next_of w2 n) ->
      rep_chain (pred min) (option_map pred max) (prev_after p w1) w2 n ->
      rep_chain min max p (w1 ++ w2) n.

End Chain.

Fixpoint derives (r : regex) : option ascii -> str -> option ascii -> Prop :=
  match r with
  | Lit c => fun _ w _ => w = [c]
  | LitI c => fun _ w _ => exists x, w = [x] /\ lower x = lower c
  | Class items => fun _ w _ => exists x, w = [x] /\ in_class items x = true
  | Digit => fun _ w _ => exists x, w = [x] /\ is_digit x = true
  | NotSpace => fun _ w _ => exists x, w = [x] /\ is_space x = false
  | WordB => fun p w n => w = [] /\ xorb (wordo p) (wordo n) = true
  | Cat r1 r2 => fun p w n =>
      exists w1 w2, w = w1 ++ w2 /\
        derives r1 p w1 (next_of w2 n) /\ derives r2 (prev_after p w1) w2 n
  | Alt r1 r2 => fun p w n => derives r1 p w n \/ derives r2 p w n
  | Rep _ min max r' => rep_chain (derives r') min max
  end.

(** From state [st] the matcher can get to [st'] by a match that [D]
    allows. *)
Definition reaches (D : option ascii -> str -> option ascii -> Prop)
    (st st' : state) : Prop :=
  exists w, snd st = w ++ snd st' /\ fst st' = prev_after (fst st) w /\
            D (fst st) w (hd_error (snd st')).

(** The characters a match of [r] can contain. *)
Fixpoint alphabet (r : regex) (c : ascii) : bool :=
  match r with
  | Lit x => Ascii.eqb c x
  | LitI x => Ascii.eqb (lower c) (lower x)
  | Class items => in_class items c
  | Digit => is_digit c
  | NotSpace => negb (is_space c)
  | WordB => false
  | Cat r1 r2 | Alt r1 r2 => alphabet r1 c || alphabet r2 c
  | Rep _ _ _ r' => alphabet r' c
  end.

(** A lower bound on the length of a match of [r]. *)
Fixpoint minlen (r : regex) : nat :=
  match r with
  | WordB => 0
  | Cat r1 r2 => minlen r1 + minlen r2
  | Alt r1 r2 => Nat.min (minlen r1) (minlen r2)
  | Rep _ min _ r' => min * minlen r'
  | _ => 1
  end.

(** Every match of [r] contains the character [c]. *)
Fixpoint requires (c : ascii) (r : regex) : bool :=
  match r with
  | Lit x => Ascii.eqb x c
  | Cat r1 r2 => requires c r1 || requires c r2
  | Alt r1 r2 => requires c r1 && requires c r2
  | Rep _ (S _) _ r' => requires c r'
  | _ => false
  end.

Fixpoint has_wb (r : regex) : bool :=
  match r with
  | WordB => true
  | Cat r1 r2 | Alt r1 r2 => has_wb r1 || has_wb r2
  | Rep _ _ _ r' => has_wb r'
  | _ => false
  end.

(** The pattern begins, respectively ends, with [\b]. *)
Fixpoint starts_wb (r : regex) : bool :=
  match r with
  | WordB => true
  | Cat r1 _ => starts_wb r1
  | _ => false
  end.

Fixpoint ends_wb (r : regex) : bool :=
  match r with
  | WordB => true
  | Cat _ r2 => ends_wb r2
  | _ => false
  end.

(** ** The scan of [sub]

    [scan_loop] runs the loop of [sub_loop] and records what it does at
    each step: a character copied, or a match replaced.  The output of
    [sub] is the record rendered with the replacement function; the
    matches in it are the ones [finditer] would yield. *)

Definition piece : Type := (ascii + str)%type.

Fixpoint scan_loop (r : regex) (fuel : nat) (prev : option ascii) (rest : str)
    : list piece :=
  match fuel with
  | O => map inl rest
  | S f =>
      let copy :=
        match rest with
        | [] => []
        | c :: tl => inl c :: scan_loop r f (Some c) tl
        end in
      match match_here r (prev, rest) with
      | Some (prev', rest') =>
          inr (firstn (length rest - length rest') rest)
          :: (if (length rest' <? length rest)%nat
              then scan_loop r f prev' rest'
              else copy)
      | None => copy
      end
  end.

Definition scan (r : regex) (s : str) : list piece :=
  scan_loop r (S (length s)) None s.

Definition render (repl : str -> str) (ps : list piece) : str :=
  flat_map (fun x => match x with inl c => [c] | inr m => repl m end) ps.

(** The matches [sub] replaces in [s], in order. *)
Definition found (r : regex) (s : str) : list str :=
  flat_map (fun x => match x with inl _ => [] | inr m => [m] end) (scan r s).

(** The scan of a pattern that matches no empty text. *)
Inductive scanned (r : regex) : option ascii -> str -> list piece -> Prop :=
  | sc_nil (p : option ascii) :
      scanned r p [] []
  | sc_copy (p : option ascii) (c : ascii) (tl : str) (ps : list piece) :
      match_here r (p, c :: tl) = None ->
      scanned r (Some c) tl ps ->
      scanned r p (c :: tl) (inl c :: ps)
  | sc_match (p : option ascii) (m rest' : str) (ps : list piece) :
      m <> [] ->
      derives r p m (hd_error rest') ->
      scanned r (prev_after p m) rest' ps ->
      scanned r p (m ++ rest') (inr m :: ps).

(** No match of [q] anywhere in [t], the character before [t] being [p]. *)
Definition clean_from (q : regex) (p : option ascii) (t : str) : Prop :=
  forall pre w post,
    t = pre ++ w ++ post -> ~ derives q (prev_after p pre) w (hd_error post).

Definition clean (q : regex) (t : str) : Prop := clean_from q None t.

(** Every match of the pattern consumes something. *)
Definition nonempty (r : regex) : Prop :=
  forall p w n, derives r p w n -> w <> [].

(** A token is bracketed, and no match of [q] lies between its brackets. *)
Definition interior_clean (q : regex) (body : str) : Prop :=
  forall b1 w b2,
    body = b1 ++ w ++ b2 ->
    ~ derives q (prev_after (Some "["%char) b1) w (next_of b2 (Some "]"%char)).

Definition token_ok (q : regex) (tok : str) : Prop :=
  exists body, tok = "["%char :: body ++ ["]"%char] /\ interior_clean q body.

(** The literal part and the tail of [_url_re]. *)
Definition http_lit : regex :=
  cat [ LitI "h"; LitI "t"; LitI "t"; LitI "p"; opt (LitI "s");
        LitI ":"; LitI "/"; LitI "/" ].

Definition url_tail : regex := Cat (plus NotSpace) WordB.

(** [r] read as the concatenation of its first [k] components and the rest. *)
Fixpoint spine_split (k : nat) (r : regex) : option (regex * regex) :=
  match k, r with
  | 1%nat, Cat a b => Some (a, b)
  | S k', Cat a b =>
      match spine_split k' b with
      | Some (i, t) => Some (Cat a i, t)
      | None => None
      end
  | _, _ => None
  end.

(** A token begins with a bracket and holds no [h] or [H], so that no URL
    match begins inside it. *)
Definition url_token_ok (tok : str) : Prop :=
  (exists body, tok = "["%char :: body) /\
  Forall (fun c => lower c <> "h"%char) tok.

(** The six digest characters of a token. *)
Definition tag_digest (secret : bytes) (text : str) : str :=
  firstn 6 (Hmac.hexdigest secret (encode text)).

(** Every character, for properties checked on all of them. *)
Definition all_ascii : list ascii := map ascii_of_nat (seq 0 256).

(** One pass of [_scrub_str]: a detector of the library applied to the
    current string. *)
Definition pass (secret : bytes) (kp : str * regex) (s : str) : str :=
  sub (snd kp) (fun m => _stable_tag secret (fst kp) m) s.

(** The string after the first [n] passes. *)
Definition scrub_upto (n : nat) (secret : bytes) (s : str) : str :=
  fold_left (fun cur kp => pass secret kp cur) (firstn n pattern_library) s.

(** The digests of the tokens that pass number [n] (from 0) emits on [s]. *)
Definition pass_digests (n : nat) (secret : bytes) (s : str) : list str :=
  match nth_error pattern_library n with
  | Some kp => map (tag_digest secret) (found (snd kp) (scrub_upto n secret s))
  | None => []
  end.

(** The digests of the tokens emitted by the ACCT pass and the passes
    after it. *)
Definition late_digests (secret : bytes) (s : str) : list str :=
  pass_digests 3 secret s ++ pass_digests 4 secret s ++
  pass_digests 5 secret s ++ pass_digests 6 secret s.

(** Each of those digests has a letter [a]..[f] among its six digits. *)
Definition late_digests_mixed (secret : bytes) (s : str) : bool :=
  forallb (fun d => negb (forallb is_digit d)) (late_digests secret s).

Definition kinds : list str := map fst pattern_library.

(** The detectors other than ACCT. *)
Definition text_detectors : list regex :=
  [ _email_re; _ssn_re; _card_re; _ip_re; _url_re; _domain_re ].

(** ** Notions about patterns, scans and tokens *)

(** The pattern begins and ends with [\b]. *)
Definition bounded (p : regex) : Prop := starts_wb p = true /\ ends_wb p = true.

(** A match of the text [W] looks at the characters around [W] only in the
    boundary tests at the two ends of [W]; it can be replayed wherever
    those two tests, if they held, still hold. *)
Definition context_le (r : regex) (P N P' N' : option ascii) (W : str) : Prop :=
  has_wb r = true ->
  (xorb (wordo P) (wordo (hd_error W)) = true ->
   xorb (wordo P') (wordo (hd_error W)) = true) /\
  (xorb (wordo (prev_after P W)) (wordo N) = true ->
   xorb (wordo (prev_after P W)) (wordo N') = true).

(** A number of repetitions within the upper bound of a repetition. *)
Definition within (max : option nat) (k : nat) : Prop :=
  match max with
  | Some M => (k <= M)%nat
  | None => True
  end.

Definition not_space (c : ascii) : Prop := is_space c = false.

(** Every replacement of the scan begins with a bracket. *)
Definition opens (repl : str -> str) (ps : list piece) : Prop :=
  forall m, In (inr m) ps -> exists body, repl m = "["%char :: body.

(** The character before the current position is the same in the output
    and in the input, or the input has a boundary there. *)
Definition start_ok (q : regex) (po pi : option ascii) (t : str) : Prop :=
  has_wb q = true -> po = pi \/ xorb (wordo pi) (wordo (hd_error t)) = true.

(** The characters of a kind name: capitals other than [H]. *)
Definition kind_char (c : ascii) : bool :=
  between 65 90 c && negb (Ascii.eqb (lower c) "h").

(** The characters between the brackets of a token: those of the kind,
    the colon, and lowercase hexadecimal digits. *)
Definition body_char (c : ascii) : bool :=
  kind_char c || Ascii.eqb c ":" || is_lower_hex c.

(** The characters of a token. *)
Definition token_char (c : ascii) : bool :=
  body_char c || Ascii.eqb c "[" || Ascii.eqb c "]".

(** The lower-case form of a key is one of [SENSITIVE_KEYS]. *)
Definition sensitive (k : str) : bool :=
  str_in (Azure.str_lower k) Azure.SENSITIVE_KEYS.

(** [f"[{k.upper()}_REDACTED]"] *)
Definition placeholder (k : str) : json :=
  JStr (s2l "[" ++ Azure.str_upper k ++ s2l "_REDACTED]").

(** No key of any mapping of the tree is sensitive. *)
Fixpoint no_sensitive_key (v : json) : bool :=
  match v with
  | JList l => forallb no_sensitive_key l
  | JDict d =>
      forallb (fun kv => negb (sensitive (fst kv)) && no_sensitive_key (snd kv)) d
  | _ => true
  end.

(** ** Sample inputs *)

Definition sample_record : json :=
  JDict [ (s2l "case_id", JStr (s2l "C-1"));
          (s2l "summary", JStr (s2l "Contact ceo@bank.com"));
          (s2l "amount_usd", JInt 9500);
          (s2l "timeline",
             JList [ JDict [ (s2l "note", JStr (s2l "login from 10.0.0.4"));
                             (s2l "ok", JBool true) ];
                     JNull ]) ].

Definition sample_transaction : dict :=
  [ (s2l "Account_ID", JStr (s2l "ACC-001"));
    (s2l "notes", JStr (s2l "mail ceo@bank.com, card 4111111111111111"));
    (s2l "amount", JInt 9500) ].

(** ** Searching a string *)

(** [pattern.search(s)]: the match at the first offset of [s] that has
    one. *)
Definition search (r : regex) (s : str) : option str :=
  fold_right (fun i later =>
                match match_at r s i with
                | Some m => Some m
                | None => later
                end)
             None (seq 0 (S (length s))).

(** The characters one of which every match of a detector contains: a
    decimal digit, a dot or a colon. *)
Definition trigger (c : ascii) : bool :=
  is_digit c || Ascii.eqb c "." || Ascii.eqb c ":".

(** Every match of [r] contains a character of the class [P]. *)
Fixpoint requires_in (P : ascii -> bool) (r : regex) : bool :=
  match r with
  | Lit x => P x
  | LitI x => forallb (fun c => implb (Ascii.eqb (lower c) (lower x)) (P c)) all_ascii
  | Class items => forallb (fun c => implb (in_class items c) (P c)) all_ascii
  | Digit => forallb (fun c => implb (is_digit c) (P c)) all_ascii
  | NotSpace => forallb (fun c => implb (negb (is_space c)) (P c)) all_ascii
  | WordB => false
  | Cat r1 r2 => requires_in P r1 || requires_in P r2
  | Alt r1 r2 => requires_in P r1 && requires_in P r2
  | Rep _ (S _) _ r' => requires_in P r'
  | Rep _ O _ _ => false
  end.

(** An upper bound on the number of characters of the class [P] in a match
    of [r]; [None] when there is none. *)
Definition bound_add (a b : option nat) : option nat :=
  match a, b with
  | Some x, Some y => Some (x + y)%nat
  | _, _ => None
  end.

Definition bound_max (a b : option nat) : option nat :=
  match a, b with
  | Some x, Some y => Some (Nat.max x y)
  | _, _ => None
  end.

Definition bound_times (k : option nat) (a : option nat) : option nat :=
  match a, k with
  | Some O, _ => Some O
  | Some x, Some n => Some (n * x)%nat
  | _, _ => None
  end.

Definition at_most_one (P : ascii -> bool) (ok : ascii -> bool) : option nat :=
  if existsb (fun c => ok c && P c) all_ascii then Some 1%nat else Some 0%nat.

Fixpoint max_count (P : ascii -> bool) (r : regex) : option nat :=
  match r with
  | Lit x => at_most_one P (Ascii.eqb x)
  | LitI x => at_most_one P (fun c => Ascii.eqb (lower c) (lower x))
  | Class items => at_most_one P (in_class items)
  | Digit => at_most_one P is_digit
  | NotSpace => at_most_one P (fun c => negb (is_space c))
  | WordB => Some 0%nat
  | Cat r1 r2 => bound_add (max_count P r1) (max_count P r2)
  | Alt r1 r2 => bound_max (max_count P r1) (max_count P r2)
  | Rep _ _ max r' => bound_times max (max_count P r')
  end.

Definition count (P : ascii -> bool) (w : str) : nat := length (filter P w).

(** ** The string leaves of a tree *)

(** The string values of a tree (not the keys of its mappings), from left
    to right. *)
Fixpoint leaves (v : json) : list str :=
  match v with
  | JStr s => [s]
  | JList l => flat_map leaves l
  | JDict d => flat_map (fun kv => leaves (snd kv)) d
  | _ => []
  end.

Definition is_dict (v : json) : bool :=
  match v with
  | JDict _ => true
  | _ => false
  end.

(** ** The text helpers of the handler *)

(** [s.replace(old, new)] for a one-character [old]. *)
Definition replace_char (old : ascii) (new : str) (s : str) : str :=
  flat_map (fun c => if Ascii.eqb c old then new else [c]) s.

(** [s.lstrip()], [s.rstrip()] and [s.strip()]: the white space of
    [str.isspace] removed at the ends. *)
Fixpoint lstrip (s : str) : str :=
  match s with
  | c :: tl => if is_space c then lstrip tl else s
  | [] => []
  end.

Definition rstrip (s : str) : str := rev (lstrip (rev s)).

Definition strip (s : str) : str := rstrip (lstrip s).

(** [_normalize(text)] *)
Definition _normalize (text : str) : str :=
  strip (replace_char "*" [] (replace_char (chr 10) (s2l " ") text)).

Section Body.

Variable json_loads : str -> result json.

(** [_parse_body(event)]; [event.get("body")] of the request mapping. *)
Definition _parse_body (event : dict) : json :=
  match dict_get event (s2l "body") with
  | Some (JStr body) =>
      match json_loads body with
      | Ok v => v
      | Raise _ => JDict []
      end
  | Some (JDict d) => JDict d
  | _ => JDict []
  end.

End Body.

(** ** More sample inputs *)

(** A request with two fields outside [ALLOWED_FIELDS]. *)
Definition sample_request : dict :=
  [ (s2l "customer_ssn", JStr (s2l "123-45-6789"));
    (s2l "case_id", JStr (s2l "C-7"));
    (s2l "Summary", JStr (s2l "capital S"));
    (s2l "summary", JStr (s2l "wire from 10.1.2.3 to acct 123456789"));
    (s2l "amount_usd", JInt 12000) ].

(** [k in ALLOWED_FIELDS], on an item of a mapping. *)
Definition allowed (kv : str * json) : bool := str_in (fst kv) ALLOWED_FIELDS.

(** ** The redacted tree of the Azure variant *)

(** [v] is the placeholder of the key [k]. *)
Definition is_placeholder (k : str) (v : json) : bool :=
  match v with
  | JStr s => str_eqb s (s2l "[" ++ Azure.str_upper k ++ s2l "_REDACTED]")
  | _ => false
  end.

(** At every depth of the tree, a sensitive key holds its placeholder. *)
Fixpoint redacted (v : json) : bool :=
  match v with
  | JList l => forallb redacted l
  | JDict d =>
      forallb (fun kv => if sensitive (fst kv) then is_placeholder (fst kv) (snd kv)
                         else redacted (snd kv)) d
  | _ => true
  end.

(** A transaction with sensitive keys at two depths. *)
Definition sample_nested_transaction : json :=
  JDict [ (s2l "Email", JStr (s2l "ceo@bank.com"));
          (s2l "memo", JStr (s2l "call 555-0100"));
          (s2l "parties",
             JList [ JDict [ (s2l "NAME", JStr (s2l "A. Payer"));
                             (s2l "linked_accounts", JList [JInt 1; JInt 2]);
                             (s2l "role", JStr (s2l "sender")) ] ]) ].

(** A transaction without a sensitive key. *)
Definition sample_free_text : json :=
  JDict [ (s2l "notes", JStr (s2l "mail ceo@bank.com, card 4111111111111111"));
          (s2l "amounts", JList [JInt 9500; JInt 120]) ].

(** ** The Lambda handler of [src/app.py]

    The handler calls the model and the object store and reads the clock.
    These are parameters of the model: what [invoke_model] answers, what
    [put_object] does, and the time stamp.  The handler tells [KeyError]
    from every other exception, and so does the model.  The two [print]
    calls, which write to the log and do not change what the handler
    returns or stores, are left out. *)

(** [json.dumps(v)] with its defaults: compact, [ensure_ascii=True]. *)
Fixpoint dumps (v : json) : str :=
  match v with
  | JList l => s2l "[" ++ Dumps.join (s2l ", ") (map dumps l) ++ s2l "]"
  | JDict d =>
      s2l "{" ++
      Dumps.join (s2l ", ")
        (map (fun kv => Dumps.quote Dumps.escape_char_ascii (fst kv) ++ s2l ": "
                        ++ dumps (snd kv)) d)
      ++ s2l "}"
  | _ => Dumps.scalar Dumps.escape_char_ascii v
  end.

(** An exception as the handler sees it: a [KeyError], with the text
    [str(e)] gives for it, or any other [Exception]. *)
Inductive failure : Type :=
  | KeyError (shown : str)
  | OtherError.

Inductive outcome (A : Type) : Type :=
  | Return (a : A)
  | Throw (e : failure).
Arguments Return {A} a.
Arguments Throw {A} e.

Definition and_then {A B : Type} (r : outcome A) (k : A -> outcome B) : outcome B :=
  match r with
  | Return a => k a
  | Throw e => Throw e
  end.

Notation "x <~ r ;; k" := (and_then r (fun x => k))
  (at level 61, r at next level, right associativity).

(** [JSONDecodeError] is a [ValueError], not a [KeyError]. *)
Definition lift {A : Type} (r : result A) : outcome A :=
  match r with
  | Ok a => Return a
  | Raise JSONDecodeError => Throw OtherError
  end.

Record response : Type := { statusCode : Z; body : str }.

Definition BUCKET : str := s2l "sar-output-bucket".

(** The prompt, an f-string of seven lines with the payload on the sixth. *)
Definition prompt_of (safe_json : str) : str :=
  Dumps.join [chr 10]
    [ s2l "<|begin_of_text|><|start_header_id|>system<|end_header_id|>";
      s2l "You are an AML compliance analyst writing lawful SAR summaries. Output must be plain English with no markdown and no line breaks. Return a single, continuous paragraph.";
      s2l "<|eot_id|><|start_header_id|>user<|end_header_id|>";
      s2l "Write a concise SAR narrative (<=300 words) from this JSON. Include who, what, when, where, how, why, detection source, and amounts. End with one sentence stating the report date, amount (if any), and main entity.";
      s2l "JSON Input:";
      safe_json;
      s2l "<|eot_id|><|start_header_id|>assistant<|end_header_id|>" ].

(** [payload["security_detail_json"]]: [KeyError] from a mapping without
    the key, [TypeError] from anything that is not a mapping. *)
Definition security_detail_of (payload : json) : outcome json :=
  match payload with
  | JDict d =>
      match dict_get d (s2l "security_detail_json") with
      | Some v => Return v
      | None => Throw (KeyError (s2l "'security_detail_json'"))
      end
  | _ => Throw OtherError
  end.

(** [data.get("generation") or ""] *)
Definition generation_of (d : dict) : json :=
  match dict_get d (s2l "generation") with
  | Some v => if truthy v then v else JStr []
  | None => JStr []
  end.

Section Handler.

Variable json_loads : str -> result json.
Variable secret : bytes.

(** [PROFILE_ARN = os.environ.get("INFERENCE_PROFILE_ARN")] *)
Variable PROFILE_ARN : option str.

(** [bedrock.invoke_model(modelId=..., body=..., ...)] and the
    [resp["body"].read()] that follows it: the text of the answer. *)
Variable invoke_model : str -> str -> outcome str.

(** [datetime.utcnow().strftime("%Y%m%dT%H%M%SZ")] *)
Variable utcnow : str.

(** [s3.put_object(Bucket=..., Key=..., Body=..., ...)] *)
Variable put_object : str -> str -> bytes -> outcome unit.

(** [str(x)], as an f-string formats a value. *)
Variable format : json -> str.

(** [sar_generate_using_bedrock(security_detail_json)] *)
Definition sar_generate_using_bedrock (security_detail_json : json) : outcome str :=
  safe_json <~ lift (make_safe_payload json_loads secret security_detail_json) ;;
  let prompt := prompt_of safe_json in
  match PROFILE_ARN with
  | None | Some [] => Throw OtherError                  (* RuntimeError *)
  | Some arn =>
      let request := JDict [ (s2l "prompt", JStr prompt);
                             (s2l "max_gen_len", JInt 512);
                             (s2l "temperature", JFloat (s2l "0.25"));
                             (s2l "top_p", JFloat (s2l "0.9")) ] in
      text <~ invoke_model arn (dumps request) ;;
      data <~ lift (json_loads text) ;;
      match data with
      | JDict d =>
          match generation_of d with
          | JStr generation => Return (_normalize generation)
          | _ => Throw OtherError                       (* AttributeError *)
          end
      | _ => Throw OtherError                           (* AttributeError *)
      end
  end.

(** The key and the body of the object [save_sar_to_s3(out, key)] stores. *)
Definition sar_key (case_id : json) : str :=
  s2l "sar-output/" ++ format case_id ++ s2l "/" ++ utcnow ++ s2l ".json".

Definition sar_object (case_id : json) (narrative : str) : bytes :=
  encode
    (Dumps.compact
       (JDict [ (s2l "case_id", case_id);
                (s2l "timestamp", JStr utcnow);
                (s2l "model", JStr (s2l "meta.llama3-2-1b-instruct (profile)"));
                (s2l "narrative", JStr narrative) ])).

Definition answer (code : Z) (fields : dict) : response :=
  {| statusCode := code; body := dumps (JDict fields) |}.

(** The body of the [try]: the response, and the object stored if one
    was. *)
Definition handle (event : dict) : outcome (response * option (str * bytes)) :=
  let payload := _parse_body json_loads event in
  sec <~ security_detail_of payload ;;
  narrative <~ sar_generate_using_bedrock sec ;;
  match narrative with
  | [] =>
      Return (answer 502 [ (s2l "error",
                            JStr (s2l "model returned empty generation")) ],
              None)
  | _ =>
      let case_id := _extract_case_id json_loads sec in
      let key := sar_key case_id in
      let stored := sar_object case_id narrative in
      done <~ put_object BUCKET key stored ;;
      Return (answer 200 [ (s2l "s3_key", JStr key);
                           (s2l "narrative", JStr narrative) ],
              Some (key, stored))
  end.

(** [lambda_handler(event, context)] *)
Definition lambda_handler (event : dict) : response * option (str * bytes) :=
  match handle event with
  | Return r => r
  | Throw (KeyError shown) =>
      (answer 400 [ (s2l "error", JStr (s2l "missing field: " ++ shown)) ], None)
  | Throw OtherError =>
      (answer 502 [ (s2l "error", JStr (s2l "internal")) ], None)
  end.

End Handler.

(** ** A sample world for the handler *)

(** What the model answers in the sample world, as a value and as text. *)
Definition sample_answer : json :=
  JDict [ (s2l "generation",
           JStr (chr 10 :: s2l " On 3 May the **subject** moved funds. ")) ].

(** A security detail with an e-mail address as its case id. *)
Definition sample_detail : dict :=
  [ (s2l "case_id", JStr (s2l "ceo@bank.com"));
    (s2l "summary", JStr (s2l "wire from ceo@bank.com")) ].

(** [json.loads] on the two texts of the sample world. *)
Definition sample_loads (text : str) : result json :=
  if str_eqb text (Dumps.compact sample_answer) then Ok sample_answer
  else if str_eqb text (Dumps.compact (JDict sample_detail)) then Ok (JDict sample_detail)
  else Raise JSONDecodeError.

Definition sample_event : dict :=
  [ (s2l "body",
     JDict [ (s2l "security_detail_json", JStr (Dumps.compact (JDict sample_detail))) ]) ].

Definition sample_format (v : json) : str :=
  match v with
  | JStr s => s
  | _ => []
  end.

Definition sample_arn : str := s2l "arn:aws:bedrock:us-east-1:111122223333:inference-profile/sar".

Definition sample_stamp : str := s2l "20240503T101500Z".

(** The handler in the sample world: the model answers [sample_answer],
    the store accepts every object. *)
Definition sample_handler (profile : option str) (event : dict)
    : response * option (str * bytes) :=
  lambda_handler sample_loads default_secret profile
    (fun _ _ => Return (Dumps.compact sample_answer))
    sample_stamp (fun _ _ _ => Return tt) sample_format event.

(** * Properties *)

(** ** Lists, strings and dicts *)

Lemma json_induction (P : json -> Prop) :
  P JNull ->
  (forall b, P (JBool b)) ->
  (forall z, P (JInt z)) ->
  (forall r, P (JFloat r)) ->
  (forall s, P (JStr s)) ->
  (forall l, Forall P l -> P (JList l)) ->
  (forall d, Forall (fun kv => P (snd kv)) d -> P (JDict d)) ->
  forall v, P v.
Proof.
  intros Hnull Hbool Hint Hfloat Hstr Hlist Hdict.
  fix IH 1. intros [ | b | z | r | s | l | d ].
  - exact Hnull.
  - apply Hbool.
  - apply Hint.
  - apply Hfloat.
  - apply Hstr.
  - apply Hlist. induction l as [ | x l IHl ]; constructor; [ apply IH | exact IHl ].
  - apply Hdict. induction d as [ | [k x] d IHd ]; constructor; [ apply IH | exact IHd ].
Qed.

Lemma str_eqb_eq (a b : str) : str_eqb a b = true <-> a = b.
Proof.
  unfold str_eqb. destruct (list_eq_dec ascii_dec a b); split; congruence.
Qed.

Lemma str_eqb_refl (a : str) : str_eqb a a = true.
Proof. apply str_eqb_eq. reflexivity. Qed.

Lemma str_eqb_neq (a b : str) : str_eqb a b = false <-> a <> b.
Proof.
  unfold str_eqb. destruct (list_eq_dec ascii_dec a b); split; congruence.
Qed.

Lemma str_in_In (k : str) (S : list str) : str_in k S = true <-> In k S.
Proof.
  unfold str_in. rewrite existsb_exists. split.
  - intros [x [Hin Heq]]. apply str_eqb_eq in Heq. subst. exact Hin.
  - intros Hin. exists k. split; [ exact Hin | apply str_eqb_refl ].
Qed.

Lemma str_in_not_In (k : str) (S : list str) : str_in k S = false <-> ~ In k S.
Proof.
  rewrite <- str_in_In. destruct (str_in k S); split; congruence.
Qed.

Lemma distinct_NoDup (ks : list str) : distinct ks = true <-> NoDup ks.
Proof.
  induction ks as [ | k ks IH ]; simpl.
  - split; [ constructor | reflexivity ].
  - rewrite andb_true_iff, negb_true_iff, str_in_not_In, IH. split.
    + intros [H1 H2]. constructor; assumption.
    + intros H. inversion H; subst. split; assumption.
Qed.

Section Dicts.

Context {V : Type}.
Implicit Types (d items acc : list (str * V)) (k : str) (v : V).

Lemma keys_app d1 d2 : keys (d1 ++ d2) = keys d1 ++ keys d2.
Proof. apply map_app. Qed.

Lemma dict_set_fresh k v d :
  ~ In k (keys d) -> dict_set k v d = d ++ [(k, v)].
Proof.
  induction d as [ | [k' v'] d IH ]; simpl; intros Hn.
  - reflexivity.
  - destruct (str_eqb k' k) eqn:E.
    + apply str_eqb_eq in E. subst. exfalso. apply Hn. left. reflexivity.
    + rewrite IH; [ reflexivity | ]. intros Hin. apply Hn. right. exact Hin.
Qed.

Lemma keys_dict_set k v d :
  keys (dict_set k v d) = if str_in k (keys d) then keys d else keys d ++ [k].
Proof.
  unfold keys, str_in.
  induction d as [ | [k' v'] d IH ]; simpl.
  - reflexivity.
  - destruct (str_eqb k' k) eqn:E.
    + apply str_eqb_eq in E. subst. rewrite str_eqb_refl. reflexivity.
    + assert (E' : str_eqb k k' = false).
      { apply str_eqb_neq. apply str_eqb_neq in E. congruence. }
      rewrite E'. simpl. rewrite IH.
      destruct (existsb (str_eqb k) (map fst d)); reflexivity.
Qed.

Lemma dict_get_set k v d k' :
  dict_get (dict_set k v d) k' = if str_eqb k k' then Some v else dict_get d k'.
Proof.
  induction d as [ | [k0 v0] d IH ]; simpl.
  - reflexivity.
  - destruct (str_eqb k0 k) eqn:E; simpl.
    + apply str_eqb_eq in E. subst. destruct (str_eqb k k'); reflexivity.
    + rewrite IH. destruct (str_eqb k0 k') eqn:E0; [ | reflexivity ].
      apply str_eqb_eq in E0. subst.
      apply str_eqb_neq in E.
      assert (E' : str_eqb k k' = false) by (apply str_eqb_neq; congruence).
      rewrite E'. reflexivity.
Qed.

Lemma dict_get_In_keys d k : In k (keys d) <-> dict_get d k <> None.
Proof.
  induction d as [ | [k0 v0] d IH ]; simpl.
  - split; [ intros [] | congruence ].
  - destruct (str_eqb k0 k) eqn:E.
    + apply str_eqb_eq in E. split; [ congruence | intros _; left; exact E ].
    + apply str_eqb_neq in E. rewrite <- IH. split.
      * intros [H | H]; [ contradiction | exact H ].
      * intros H. right. exact H.
Qed.

Lemma fold_dict_set_distinct items acc :
  NoDup (keys (acc ++ items)) ->
  fold_left (fun a kv => dict_set (fst kv) (snd kv) a) items acc = acc ++ items.
Proof.
  revert acc. induction items as [ | [k v] items IH ]; intros acc Hnd; simpl.
  - rewrite app_nil_r. reflexivity.
  - rewrite dict_set_fresh.
    + rewrite IH; rewrite <- app_assoc; [ reflexivity | exact Hnd ].
    + rewrite keys_app in Hnd. simpl in Hnd.
      apply NoDup_remove_2 in Hnd. intros Hin. apply Hnd.
      apply in_or_app. left. exact Hin.
Qed.

(** A comprehension over pairs with distinct keys builds the dict of those
    pairs, in their order. *)
Lemma dict_of_items_distinct items :
  distinct (keys items) = true -> dict_of_items items = items.
Proof.
  intros Hd. unfold dict_of_items.
  rewrite fold_dict_set_distinct; [ reflexivity | ].
  simpl. apply distinct_NoDup. exact Hd.
Qed.

(** What a comprehension stores under a key is what one of its pairs gave. *)
Lemma fold_dict_set_get (P : str -> V -> Prop) items acc :
  (forall k v, In (k, v) items -> P k v) ->
  (forall k v, dict_get acc k = Some v -> P k v) ->
  forall k v,
    dict_get (fold_left (fun a kv => dict_set (fst kv) (snd kv) a) items acc) k = Some v ->
    P k v.
Proof.
  revert acc. induction items as [ | [k0 v0] items IH ]; intros acc Hitems Hacc k v; simpl.
  - apply Hacc.
  - apply IH.
    + intros k1 v1 Hin. apply Hitems. right. exact Hin.
    + intros k1 v1. rewrite dict_get_set.
      destruct (str_eqb k0 k1) eqn:E.
      * apply str_eqb_eq in E. subst. intros [= <-]. apply Hitems. left. reflexivity.
      * apply Hacc.
Qed.

Lemma fold_dict_set_keys items acc k :
  In k (keys (fold_left (fun a kv => dict_set (fst kv) (snd kv) a) items acc)) <->
  In k (keys acc) \/ In k (keys items).
Proof.
  revert acc. induction items as [ | [k0 v0] items IH ]; intros acc; simpl.
  - tauto.
  - rewrite IH, keys_dict_set.
    destruct (str_in k0 (keys acc)) eqn:E.
    + apply str_in_In in E. split; [ tauto | ].
      intros [H | [H | H]]; subst; tauto.
    + rewrite in_app_iff. simpl. tauto.
Qed.

Lemma keys_dict_of_items items k :
  In k (keys (dict_of_items items)) <-> In k (keys items).
Proof.
  unfold dict_of_items. rewrite fold_dict_set_keys. simpl. tauto.
Qed.

End Dicts.

(** ** The Structural Walker *)

Lemma keys_map_values {V W : Type} (f : str * V -> W) (d : list (str * V)) :
  keys (map (fun kv => (fst kv, f kv)) d) = keys d.
Proof.
  unfold keys. rewrite map_map. simpl. reflexivity.
Qed.

(** C6.  The walker keeps the shape of a tree: for every value whose
    mappings have distinct keys (every Python value), [scrub] returns a tree
    that differs from its input in the content of string leaves only: the
    same keys in the same order in every mapping, the same length and order
    in every sequence, and the same numbers, booleans and nulls. *)
Theorem scrub_preserves_shape (secret : bytes) (v : json) :
  well_formed v = true ->
  skeleton (scrub secret v) = skeleton v.
Proof.
  induction v as [ | b | z | r | s | l IH | d IH ] using json_induction;
    simpl; intros Hwf; try reflexivity.
  - f_equal. rewrite map_map.
    apply map_ext_in. intros x Hx.
    rewrite Forall_forall in IH. apply IH; [ exact Hx | ].
    rewrite forallb_forall in Hwf. apply Hwf. exact Hx.
  - apply andb_true_iff in Hwf. destruct Hwf as [Hd Hvs].
    rewrite dict_of_items_distinct
      by (rewrite (keys_map_values (fun kv => scrub secret (snd kv))); exact Hd).
    f_equal. rewrite map_map. simpl.
    apply map_ext_in. intros kv Hkv. f_equal.
    rewrite Forall_forall in IH. apply IH; [ exact Hkv | ].
    rewrite forallb_forall in Hvs. apply Hvs. exact Hkv.
Qed.

Lemma scrub_preserves_shape_witness :
  well_formed sample_record = true /\
  skeleton (scrub default_secret sample_record) = skeleton sample_record.
Proof.
  split; [ reflexivity | apply scrub_preserves_shape; reflexivity ].
Defined.

(** ** The Field Allowlist Filter *)

Lemma allowlist_items_spec (d : dict) (k : str) (v : json) :
  In (k, v)
     (flat_map (fun k =>
        if str_in k ALLOWED_FIELDS
        then match dict_get d k with Some v => [(k, v)] | None => [] end
        else [])
      (keys d)) <->
  In k (keys d) /\ In k ALLOWED_FIELDS /\ dict_get d k = Some v.
Proof.
  rewrite in_flat_map. split.
  - intros [k' [Hk' Hin]].
    destruct (str_in k' ALLOWED_FIELDS) eqn:Ha; [ | destruct Hin ].
    destruct (dict_get d k') as [v' | ] eqn:Hg; [ | destruct Hin ].
    destruct Hin as [[= <- <-] | []].
    apply str_in_In in Ha. auto.
  - intros [Hk [Ha Hg]]. exists k. split; [ exact Hk | ].
    apply str_in_In in Ha. rewrite Ha, Hg. left. reflexivity.
Qed.

(** C7.  Allowlist containment: the keys of [allowlist(d)] are exactly the
    keys of [d] that are members of [ALLOWED_FIELDS] (so every other key is
    dropped, and the function, being total, raises nothing for it), and the
    value kept under a key is the value [d] holds under it, untouched:
    nothing below the top level is filtered. *)
Theorem allowlist_containment (d : dict) :
  (forall k, In k (keys (allowlist d)) <-> In k (keys d) /\ In k ALLOWED_FIELDS) /\
  (forall k, In k (keys (allowlist d)) -> dict_get (allowlist d) k = dict_get d k).
Proof.
  assert (Hkeys : forall k,
    In k (keys (allowlist d)) <-> In k (keys d) /\ In k ALLOWED_FIELDS).
  { intros k. unfold allowlist. rewrite keys_dict_of_items.
    unfold keys at 1. rewrite in_map_iff. split.
    - intros [[k' v] [Hk Hin]]. simpl in Hk. subst k'.
      apply allowlist_items_spec in Hin. tauto.
    - intros [Hk Ha].
      destruct (dict_get d k) as [v | ] eqn:Hg.
      + exists (k, v). split; [ reflexivity | ].
        apply allowlist_items_spec. auto.
      + apply dict_get_In_keys in Hk. contradiction. }
  split; [ exact Hkeys | ].
  intros k Hk.
  destruct (dict_get (allowlist d) k) as [v | ] eqn:Hg.
  - symmetry. revert Hg. unfold allowlist, dict_of_items.
    apply (fold_dict_set_get (fun k v => dict_get d k = Some v)).
    + intros k' v' Hin. apply allowlist_items_spec in Hin. tauto.
    + simpl. discriminate.
  - apply dict_get_In_keys in Hk. contradiction.
Qed.

(** ** The Tokenizer *)

Module Sha256Facts.
Import Sha256.

Lemma be_bytes_length (n : nat) (x : Z) : length (be_bytes n x) = n.
Proof. induction n as [ | n IH ]; simpl; [ reflexivity | now rewrite IH ]. Qed.

Lemma be_bytes_range (n : nat) (x : Z) :
  Forall (fun b => 0 <= b < 256) (be_bytes n x).
Proof.
  induction n as [ | n IH ]; simpl; constructor; [ | exact IH ].
  change 255 with (Z.ones 8). rewrite Z.land_ones by lia.
  apply Z.mod_pos_bound. reflexivity.
Qed.

Lemma round_length (st : list Z) (kw : Z * Z) :
  length st = 8%nat -> length (round st kw) = 8%nat.
Proof.
  intros H.
  do 8 (destruct st as [ | ? st ]; [ discriminate H | ]).
  destruct st; [ reflexivity | discriminate H ].
Qed.

Lemma rounds_length (kws : list (Z * Z)) (st : list Z) :
  length st = 8%nat -> length (fold_left round kws st) = 8%nat.
Proof.
  revert st. induction kws as [ | kw kws IH ]; simpl; intros st H.
  - exact H.
  - apply IH. apply round_length. exact H.
Qed.

Lemma compress_length (h block : list Z) :
  length h = 8%nat -> length (compress h block) = 8%nat.
Proof.
  intros H. unfold compress.
  rewrite length_map, length_combine, rounds_length by exact H.
  rewrite H. reflexivity.
Qed.

Lemma compress_all_length (bs : list (list Z)) (h : list Z) :
  length h = 8%nat -> length (fold_left compress bs h) = 8%nat.
Proof.
  revert h. induction bs as [ | b bs IH ]; simpl; intros h H.
  - exact H.
  - apply IH. apply compress_length. exact H.
Qed.

Lemma words_bytes_length (ws : list Z) :
  length (flat_map (be_bytes 4) ws) = (4 * length ws)%nat.
Proof.
  induction ws as [ | w ws IH ]; [ reflexivity | ].
  cbn [flat_map]. rewrite length_app, be_bytes_length, IH. simpl. lia.
Qed.

Lemma words_bytes_range (ws : list Z) :
  Forall (fun b => 0 <= b < 256) (flat_map (be_bytes 4) ws).
Proof.
  induction ws as [ | w ws IH ]; [ constructor | ].
  cbn [flat_map]. apply Forall_app. split; [ apply be_bytes_range | exact IH ].
Qed.

(** A SHA-256 digest is 32 bytes. *)
Lemma digest_length (msg : bytes) : length (digest msg) = 32%nat.
Proof.
  unfold digest. rewrite words_bytes_length, compress_all_length; reflexivity.
Qed.

Lemma digest_range (msg : bytes) : Forall (fun b => 0 <= b < 256) (digest msg).
Proof. apply words_bytes_range. Qed.

End Sha256Facts.

Lemma hex_digit_lower (z : Z) : 0 <= z < 16 -> is_lower_hex (Hmac.hex_digit z) = true.
Proof.
  intros Hz.
  assert (Hall : forallb (fun n => is_lower_hex (Hmac.hex_digit (Z.of_nat n))) (seq 0 16) = true)
    by reflexivity.
  rewrite forallb_forall in Hall.
  rewrite <- (Z2Nat.id z) by lia. apply Hall. apply in_seq. lia.
Qed.

Lemma hex_byte_lower (b : Z) :
  0 <= b < 256 -> forallb is_lower_hex (Hmac.hex_byte b) = true.
Proof.
  intros Hb. unfold Hmac.hex_byte. simpl.
  rewrite !hex_digit_lower; [ reflexivity | | ].
  - apply Z.mod_pos_bound. reflexivity.
  - split; [ apply Z.div_pos; lia | apply Z.div_lt_upper_bound; lia ].
Qed.

Lemma hex_bytes_length (bs : bytes) :
  length (flat_map Hmac.hex_byte bs) = (2 * length bs)%nat.
Proof.
  induction bs as [ | b bs IH ]; [ reflexivity | ].
  cbn [flat_map]. rewrite length_app, IH. simpl. lia.
Qed.

Lemma hex_bytes_lower (bs : bytes) :
  Forall (fun b => 0 <= b < 256) bs ->
  forallb is_lower_hex (flat_map Hmac.hex_byte bs) = true.
Proof.
  induction 1 as [ | b bs Hb _ IH ]; [ reflexivity | ].
  cbn [flat_map]. rewrite forallb_app, hex_byte_lower, IH by exact Hb. reflexivity.
Qed.

(** [hexdigest()] is 64 lowercase hexadecimal digits, whatever the key. *)
Lemma hexdigest_length (key msg : bytes) : length (Hmac.hexdigest key msg) = 64%nat.
Proof.
  unfold Hmac.hexdigest, Hmac.digest.
  rewrite hex_bytes_length, Sha256Facts.digest_length. reflexivity.
Qed.

Lemma hexdigest_lower (key msg : bytes) :
  forallb is_lower_hex (Hmac.hexdigest key msg) = true.
Proof.
  apply hex_bytes_lower. apply Sha256Facts.digest_range.
Qed.

Lemma forallb_firstn {A : Type} (p : A -> bool) (n : nat) (l : list A) :
  forallb p l = true -> forallb p (firstn n l) = true.
Proof.
  revert n. induction l as [ | x l IH ]; intros [ | n ] H; simpl in *; try reflexivity.
  apply andb_true_iff in H. destruct H as [Hx Hl]. rewrite Hx, IH by exact Hl. reflexivity.
Qed.

Lemma tag_digest_length (secret : bytes) (text : str) :
  length (tag_digest secret text) = 6%nat.
Proof.
  unfold tag_digest. rewrite length_firstn, hexdigest_length. reflexivity.
Qed.

Lemma tag_digest_lower (secret : bytes) (text : str) :
  forallb is_lower_hex (tag_digest secret text) = true.
Proof. apply forallb_firstn, hexdigest_lower. Qed.

Lemma stable_tag_eq (secret : bytes) (kind text : str) :
  _stable_tag secret kind text
  = s2l "[" ++ kind ++ s2l ":" ++ tag_digest secret text ++ s2l "]".
Proof. reflexivity. Qed.

(** C8.  For a fixed key the token is a function of the kind and the matched
    text alone (it is the value of [_stable_tag], which reads nothing else),
    and it has the form [[KIND:digest]]: the digest is the first six
    characters of the keyed digest of the text, it does not depend on the
    kind, it is six characters long whatever the text, and each of them is
    a lowercase hexadecimal digit. *)
Theorem stable_tag_format (secret : bytes) (kind text : str) :
  let digest := firstn 6 (Hmac.hexdigest secret (encode text)) in
  _stable_tag secret kind text = s2l "[" ++ kind ++ s2l ":" ++ digest ++ s2l "]"
  /\ length digest = 6%nat
  /\ forallb is_lower_hex digest = true.
Proof.
  cbv zeta. split; [ apply stable_tag_eq | ].
  split; [ apply tag_digest_length | apply tag_digest_lower ].
Qed.

(** ** The key-based redaction of the Azure variant *)

Lemma redact_dict_eq (d : dict) :
  distinct (keys d) = true ->
  Azure.redact (JDict d)
  = JDict (map (fun kv => (fst kv, if sensitive (fst kv) then placeholder (fst kv)
                                  else Azure.redact (snd kv))) d).
Proof.
  intros Hd. simpl. f_equal.
  assert (Hmap :
    map (fun kv =>
           if str_in (Azure.str_lower (fst kv)) Azure.SENSITIVE_KEYS
           then (fst kv, JStr (s2l "[" ++ Azure.str_upper (fst kv) ++ s2l "_REDACTED]"))
           else (fst kv, Azure.redact (snd kv))) d
    = map (fun kv => (fst kv, if sensitive (fst kv) then placeholder (fst kv)
                              else Azure.redact (snd kv))) d).
  { apply map_ext. intros kv. unfold sensitive, placeholder.
    destruct (str_in (Azure.str_lower (fst kv)) Azure.SENSITIVE_KEYS); reflexivity. }
  etransitivity; [ | apply dict_of_items_distinct ].
  - f_equal. exact Hmap.
  - rewrite (keys_map_values
               (fun kv => if sensitive (fst kv) then placeholder (fst kv)
                          else Azure.redact (snd kv))).
    exact Hd.
Qed.

Lemma dict_get_map_values {V W : Type} (f : str * V -> W) (d : list (str * V))
    (k : str) (v : V) :
  distinct (keys d) = true ->
  dict_get d k = Some v ->
  dict_get (map (fun kv => (fst kv, f kv)) d) k = Some (f (k, v)).
Proof.
  induction d as [ | [k0 v0] d IH ]; simpl; intros Hd Hg.
  - discriminate.
  - destruct (str_eqb k0 k) eqn:E.
    + apply str_eqb_eq in E. injection Hg as <-. subst. reflexivity.
    + apply IH; [ | exact Hg ]. apply andb_true_iff in Hd. apply Hd.
Qed.

(** The tree comes back as it went in when none of its keys is sensitive:
    no string is looked into. *)
Lemma redact_identity_without_sensitive_keys (v : json) :
  well_formed v = true -> no_sensitive_key v = true -> Azure.redact v = v.
Proof.
  induction v as [ | b | z | r | s | l IH | d IH ] using json_induction;
    intros Hwf Hns; try reflexivity.
  - simpl. f_equal. rewrite <- (map_id l) at 2.
    apply map_ext_in. intros x Hx. simpl in Hwf, Hns.
    rewrite Forall_forall in IH. rewrite forallb_forall in Hwf, Hns. auto.
  - simpl in Hwf. apply andb_true_iff in Hwf. destruct Hwf as [Hd Hvs].
    rewrite redact_dict_eq by exact Hd. f_equal.
    rewrite <- (map_id d) at 2. apply map_ext_in. intros [k x] Hkv.
    simpl in Hns. rewrite forallb_forall in Hns, Hvs. rewrite Forall_forall in IH.
    specialize (Hns _ Hkv). specialize (Hvs _ Hkv). specialize (IH _ Hkv).
    simpl in *. apply andb_true_iff in Hns. destruct Hns as [Hk Hx].
    apply negb_true_iff in Hk. rewrite Hk. f_equal. auto.
Qed.

(** C10.  The Azure variant redacts by key name only.  In a mapping, the
    value under a key whose lower-case form is in [SENSITIVE_KEYS] is
    replaced as a whole by the placeholder built from the upper-cased key;
    under any other key a string comes back identical, character for
    character, whatever it contains, and any other value is redacted the
    same way recursively. *)
Theorem azure_redacts_by_key_only (d : dict) (k : str) (v : json) :
  distinct (keys d) = true ->
  dict_get d k = Some v ->
  exists d',
    Azure.redact (JDict d) = JDict d' /\
    keys d' = keys d /\
    dict_get d' k =
      Some (if str_in (Azure.str_lower k) Azure.SENSITIVE_KEYS
            then JStr (s2l "[" ++ Azure.str_upper k ++ s2l "_REDACTED]")
            else match v with
                 | JStr s => JStr s
                 | _ => Azure.redact v
                 end).
Proof.
  intros Hd Hg. eexists. split; [ apply redact_dict_eq; exact Hd | ]. split.
  - apply (keys_map_values (fun kv => if sensitive (fst kv) then placeholder (fst kv)
                                      else Azure.redact (snd kv))).
  - rewrite (dict_get_map_values
               (fun kv => if sensitive (fst kv) then placeholder (fst kv)
                          else Azure.redact (snd kv)) d k v Hd Hg).
    cbv beta. cbn [fst snd]. unfold sensitive, placeholder.
    destruct (str_in (Azure.str_lower k) Azure.SENSITIVE_KEYS); [ reflexivity | ].
    destruct v; reflexivity.
Qed.

(** An e-mail address and a card number in free text under the key [notes]
    pass through. *)
Lemma azure_redacts_by_key_only_witness :
  distinct (keys sample_transaction) = true /\
  dict_get sample_transaction (s2l "notes")
    = Some (JStr (s2l "mail ceo@bank.com, card 4111111111111111")) /\
  exists d',
    Azure.redact (JDict sample_transaction) = JDict d' /\
    keys d' = keys sample_transaction /\
    dict_get d' (s2l "notes")
      = Some (JStr (s2l "mail ceo@bank.com, card 4111111111111111")).
Proof.
  split; [ reflexivity | ]. split; [ reflexivity | ].
  exact (azure_redacts_by_key_only sample_transaction (s2l "notes") _
           eq_refl eq_refl).
Defined.

Lemma azure_sample_output (loads : str -> result json) (raw : str) :
  loads raw = Ok (JDict sample_transaction) ->
  exists out,
    Azure.local_guardrail_redact_json loads raw = Ok out /\
    occursb (s2l "[ACCOUNT_ID_REDACTED]") out = true /\
    occursb (s2l "ceo@bank.com") out = true /\
    occursb (s2l "4111111111111111") out = true.
Proof.
  intros Hl. unfold Azure.local_guardrail_redact_json. rewrite Hl. simpl bind.
  eexists. split; [ reflexivity | ]. vm_compute. auto.
Qed.

(** A key that is redacted has code points below 128 only, so that its
    upper-case form is the one of those characters. *)
Lemma lower_char_ascii (c : ascii) :
  (ord (Azure.lower_char c) <? 128) = true -> (ord c <? 128) = true.
Proof.
  destruct c as [[] [] [] [] [] [] [] []]; vm_compute; intros H; congruence.
Qed.

Lemma sensitive_key_ascii (k : str) :
  sensitive k = true -> forallb (fun c => ord c <? 128) k = true.
Proof.
  unfold sensitive. intros H. apply str_in_In in H.
  assert (Hall : forallb (forallb (fun c => ord c <? 128)) Azure.SENSITIVE_KEYS = true)
    by reflexivity.
  rewrite forallb_forall in Hall. specialize (Hall _ H).
  unfold Azure.str_lower in Hall. rewrite forallb_forall in Hall.
  apply forallb_forall. intros c Hc. apply lower_char_ascii.
  apply Hall. apply in_map. exact Hc.
Qed.

(** ** Configuration and the payload builder *)

Lemma environ_get_spec (env : environ) (name default : str) :
  environ_get env name default =
  match dict_get env name with Some v => v | None => default end.
Proof.
  induction env as [ | [k v] env IH ]; simpl; [ reflexivity | ].
  unfold str_eqb. destruct (list_eq_dec ascii_dec k name); [ reflexivity | exact IH ].
Qed.

(** C3, as the code has it.  The key is never refused: when
    [REDACTION_SECRET] is missing the key is the built-in [project-secret];
    when it is set the key is its value, the empty one included; and with
    whatever key results the tokenizer returns a token for every call. *)
Theorem secret_defaults_and_is_never_refused (env : environ) :
  _SECRET env
  = encode (match dict_get env (s2l "REDACTION_SECRET") with
            | Some v => v
            | None => s2l "project-secret"
            end)
  /\ forall kind text,
       _stable_tag (_SECRET env) kind text
       = s2l "[" ++ kind ++ s2l ":" ++ tag_digest (_SECRET env) text ++ s2l "]"
       /\ length (tag_digest (_SECRET env) text) = 6%nat.
Proof.
  split.
  - unfold _SECRET. rewrite environ_get_spec. reflexivity.
  - intros kind text. split; [ apply stable_tag_eq | apply tag_digest_length ].
Qed.

(** A process started without [REDACTION_SECRET] runs with the built-in
    key, one started with an empty [REDACTION_SECRET] runs with the empty
    key, and both tokenize. *)
Lemma secret_missing_or_empty_still_runs :
  _SECRET [] = encode (s2l "project-secret") /\
  _SECRET [(s2l "REDACTION_SECRET", [])] = [] /\
  _scrub_str (_SECRET []) (s2l "a@b.com") = s2l "[EMAIL:25d18f]" /\
  _scrub_str (_SECRET [(s2l "REDACTION_SECRET", [])]) (s2l "a@b.com")
    = s2l "[EMAIL:cb5446]".
Proof.
  repeat split; vm_compute; reflexivity.
Qed.

(** C2, as the code has it.  [make_safe_payload] calls [json.loads] with no
    handler: when the text does not parse, the decode error is what the
    call produces, where [_extract_case_id], parsing the same text under
    [try]/[except], falls back to a default. *)
Theorem make_safe_payload_propagates_decode_error
    (json_loads : str -> result json) (secret : bytes) (text : str) :
  match json_loads text with
  | Raise e =>
      make_safe_payload json_loads secret (JStr text) = Raise e /\
      _extract_case_id json_loads (JStr text) = JStr (s2l "NA")
  | Ok data =>
      make_safe_payload json_loads secret (JStr text)
      = Ok (Dumps.compact
              (scrub secret
                 (JDict (allowlist (match data with JDict d => d | _ => [] end)))))
  end.
Proof.
  unfold make_safe_payload, _extract_case_id.
  destruct (json_loads text) as [data | e]; simpl.
  - reflexivity.
  - split; reflexivity.
Qed.

(** ** The matcher and the matches a pattern allows *)

Lemma prev_after_app (p : option ascii) (w1 w2 : str) :
  prev_after p (w1 ++ w2) = prev_after (prev_after p w1) w2.
Proof. apply fold_left_app. Qed.

Lemma next_of_hd (w rest : str) :
  next_of w (hd_error rest) = hd_error (w ++ rest).
Proof. destruct w; reflexivity. Qed.

Lemma state_eta (st : state) : st = (fst st, snd st).
Proof. destruct st; reflexivity. Qed.

Lemma step_spec (ok : ascii -> bool) (st st' : state) :
  In st' (step ok st) <->
  reaches (fun _ w _ => exists x, w = [x] /\ ok x = true) st st'.
Proof.
  destruct st as [p rest], st' as [p' rest']. unfold step, reaches. simpl. split.
  - destruct rest as [ | c rest ]; [ intros [] | ].
    destruct (ok c) eqn:E; [ | intros [] ].
    intros [[= <- <-] | []]. exists [c]. repeat split. exists c. auto.
  - intros [w [Hw [Hp [x [-> Hx]]]]]. simpl in Hw, Hp. subst.
    rewrite Hx. left. reflexivity.
Qed.

Lemma reaches_ext (D1 D2 : option ascii -> str -> option ascii -> Prop) (st st' : state) :
  (forall p w n, D1 p w n <-> D2 p w n) ->
  reaches D1 st st' <-> reaches D2 st st'.
Proof.
  intros H. unfold reaches. split; intros [w [H1 [H2 H3]]]; exists w;
    repeat split; try assumption; apply H; assumption.
Qed.

Section RepSpec.

Variable one : state -> list state.
Variable D : option ascii -> str -> option ascii -> Prop.
Hypothesis one_spec : forall st st', In st' (one st) <-> reaches D st st'.

Lemma rep_spec (greedy : bool) (fuel : nat) :
  forall (min : nat) (max : option nat) (st st' : state),
    (length (snd st) < fuel)%nat ->
    In st' (rep one greedy fuel min max st) <-> reaches (rep_chain D min max) st st'.
Proof.
  induction fuel as [ | f IH ]; intros min max st st' Hlen; [ lia | ].
  cbn [rep].
  set (more := match max with
               | Some O => []
               | _ => flat_map (rep one greedy f (pred min) (option_map pred max))
                               (filter (shorter st) (one st))
               end).
  assert (Hmore : In st' more <->
                  exists w1 w2, w1 <> [] /\ max <> Some 0%nat /\
                    snd st = (w1 ++ w2) ++ snd st' /\
                    fst st' = prev_after (fst st) (w1 ++ w2) /\
                    D (fst st) w1 (next_of w2 (hd_error (snd st'))) /\
                    rep_chain D (pred min) (option_map pred max)
                              (prev_after (fst st) w1) w2 (hd_error (snd st'))).
  { assert (Hflat :
      In st' (flat_map (rep one greedy f (pred min) (option_map pred max))
                       (filter (shorter st) (one st))) <->
      exists w1 w2, w1 <> [] /\
        snd st = (w1 ++ w2) ++ snd st' /\
        fst st' = prev_after (fst st) (w1 ++ w2) /\
        D (fst st) w1 (next_of w2 (hd_error (snd st'))) /\
        rep_chain D (pred min) (option_map pred max)
                  (prev_after (fst st) w1) w2 (hd_error (snd st'))).
    { rewrite in_flat_map. split.
      - intros [st1 [Hin Hrep]]. apply filter_In in Hin. destruct Hin as [Hone Hsh].
        apply one_spec in Hone. destruct Hone as [w1 [Hs1 [Hp1 HD]]].
        unfold shorter in Hsh. apply Nat.ltb_lt in Hsh.
        apply IH in Hrep; [ | lia ].
        destruct Hrep as [w2 [Hs2 [Hp2 HR]]].
        exists w1, w2. repeat split.
        + intros ->. simpl in Hs1. rewrite Hs1 in Hsh. lia.
        + rewrite Hs1, Hs2, app_assoc. reflexivity.
        + rewrite Hp2, Hp1, prev_after_app. reflexivity.
        + rewrite next_of_hd, <- Hs2. exact HD.
        + rewrite <- Hp1. exact HR.
      - intros [w1 [w2 [Hne [Hs [Hp [HD HR]]]]]].
        exists (prev_after (fst st) w1, w2 ++ snd st'). split.
        + apply filter_In. split.
          * apply one_spec. exists w1. simpl. repeat split.
            -- rewrite Hs, app_assoc. reflexivity.
            -- rewrite <- next_of_hd. exact HD.
          * unfold shorter. simpl. apply Nat.ltb_lt. rewrite Hs.
            rewrite <- app_assoc, (length_app w1).
            destruct w1; [ congruence | simpl; lia ].
        + apply IH.
          * simpl. rewrite Hs in Hlen. rewrite <- app_assoc, (length_app w1) in Hlen.
            destruct w1; [ congruence | simpl in Hlen; lia ].
          * exists w2. simpl. repeat split.
            -- rewrite Hp, prev_after_app. reflexivity.
            -- exact HR. }
    subst more. destruct max as [ [ | m ] | ].
    - split; [ intros [] | ]. intros [w1 [w2 [_ [Hm _]]]]. congruence.
    - rewrite Hflat. split; intros [w1 [w2 H]]; exists w1, w2;
        [ destruct H as [H1 H2]; repeat split; try apply H2; try assumption; discriminate
        | destruct H as [H1 [_ H2]]; split; assumption ].
    - rewrite Hflat. split; intros [w1 [w2 H]]; exists w1, w2;
        [ destruct H as [H1 H2]; repeat split; try apply H2; try assumption; discriminate
        | destruct H as [H1 [_ H2]]; split; assumption ]. }
  assert (Hchain : reaches (rep_chain D min max) st st' <->
                   (min = 0%nat /\ st' = st) \/ In st' more).
  { rewrite Hmore. split.
    - intros [w [Hs [Hp HR]]]. inversion HR; subst.
      + left. split; [ reflexivity | ]. simpl in Hs, Hp.
        rewrite (state_eta st), (state_eta st'). congruence.
      + right. exists w1, w2. repeat split; assumption.
    - intros [[-> ->] | [w1 [w2 [Hne [Hm [Hs [Hp [HD HR]]]]]]]].
      + exists []. repeat split. constructor.
      + exists (w1 ++ w2). repeat split; try assumption.
        constructor; assumption. }
  rewrite Hchain. destruct min as [ | m ].
  - destruct greedy.
    + rewrite in_app_iff. simpl. split.
      * intros [H | [H | []]]; [ right; exact H | left; auto ].
      * intros [[_ H] | H]; [ right; left; auto | left; exact H ].
    + simpl. split.
      * intros [H | H]; [ left; auto | right; exact H ].
      * intros [[_ H] | H]; [ left; auto | right; exact H ].
  - split; [ intros H; right; exact H | ].
    intros [[H _] | H]; [ discriminate | exact H ].
Qed.

End RepSpec.

(** [ends] lists the matches that [derives] allows, and no other. *)
Theorem ends_derives (r : regex) :
  forall st st', In st' (ends r st) <-> reaches (derives r) st st'.
Proof.
  induction r as [ c | c | items | | | | r1 IH1 r2 IH2 | r1 IH1 r2 IH2 | g min max r IH ];
    intros st st'; cbn [ends derives].
  - rewrite step_spec. apply reaches_ext. intros p w n. split.
    + intros [x [-> Hx]]. apply Ascii.eqb_eq in Hx. subst. reflexivity.
    + intros ->. exists c. split; [ reflexivity | apply Ascii.eqb_refl ].
  - rewrite step_spec. apply reaches_ext. intros p w n.
    split; intros [x [-> Hx]]; exists x; split; try reflexivity.
    + apply Ascii.eqb_eq. exact Hx.
    + apply Ascii.eqb_eq. exact Hx.
  - rewrite step_spec. reflexivity.
  - rewrite step_spec. reflexivity.
  - rewrite step_spec. apply reaches_ext. intros p w n.
    split; intros [x [-> Hx]]; exists x; split; try reflexivity.
    + apply negb_true_iff. exact Hx.
    + apply negb_true_iff. exact Hx.
  - unfold reaches, at_boundary, word_before, word_after.
    destruct st as [p rest], st' as [p' rest']. simpl.
    assert (Hw : match rest with c :: _ => is_word c | [] => false end
                 = wordo (hd_error rest)) by (destruct rest; reflexivity).
    rewrite Hw. change (match p with Some c => is_word c | None => false end) with (wordo p).
    split.
    + destruct (xorb (wordo p) (wordo (hd_error rest))) eqn:E; [ | intros [] ].
      intros [[= <- <-] | []]. exists []. auto.
    + intros [w [Hs [Hp [-> Hb]]]]. simpl in Hs, Hp. subst. rewrite Hb. left. reflexivity.
  - rewrite in_flat_map. split.
    + intros [st1 [H1 H2]]. apply IH1 in H1. apply IH2 in H2.
      destruct H1 as [w1 [Hs1 [Hp1 HD1]]], H2 as [w2 [Hs2 [Hp2 HD2]]].
      exists (w1 ++ w2). repeat split.
      * rewrite Hs1, Hs2, app_assoc. reflexivity.
      * rewrite Hp2, Hp1, prev_after_app. reflexivity.
      * exists w1, w2. repeat split.
        -- rewrite next_of_hd, <- Hs2. exact HD1.
        -- rewrite <- Hp1. exact HD2.
    + intros [w [Hs [Hp [w1 [w2 [-> [HD1 HD2]]]]]]].
      exists (prev_after (fst st) w1, w2 ++ snd st'). split.
      * apply IH1. exists w1. simpl. repeat split.
        -- rewrite Hs, app_assoc. reflexivity.
        -- rewrite <- next_of_hd. exact HD1.
      * apply IH2. exists w2. simpl. repeat split.
        -- rewrite Hp, prev_after_app. reflexivity.
        -- exact HD2.
  - rewrite in_app_iff, IH1, IH2. unfold reaches. split.
    + intros [[w [Hs [Hp HD]]] | [w [Hs [Hp HD]]]]; exists w; auto.
    + intros [w [Hs [Hp [HD | HD]]]]; [ left | right ]; exists w; auto.
  - apply rep_spec; [ exact IH | lia ].
Qed.

(** ** What the shape of a pattern says about its matches *)

Lemma next_of_app (w v : str) (n : option ascii) :
  next_of (w ++ v) n = next_of w (next_of v n).
Proof. destruct w; reflexivity. Qed.

Lemma prev_after_irrel (p p' : option ascii) (u : str) :
  u <> [] -> prev_after p u = prev_after p' u.
Proof. destruct u; [ congruence | reflexivity ]. Qed.

Lemma next_of_irrel (n n' : option ascii) (v : str) :
  v <> [] -> next_of v n = next_of v n'.
Proof. destruct v; [ congruence | reflexivity ]. Qed.

Lemma next_of_nonempty (w : str) (n : option ascii) :
  w <> [] -> next_of w n = hd_error w.
Proof. destruct w; [ congruence | reflexivity ]. Qed.

Lemma derives_alpha (r : regex) :
  forall p w n, derives r p w n -> Forall (fun c => alphabet r c = true) w.
Proof.
  induction r as [ c | c | items | | | | r1 IH1 r2 IH2 | r1 IH1 r2 IH2 | g min max r IH ];
    intros p w n H; cbn [derives alphabet] in *.
  - subst. repeat constructor. apply Ascii.eqb_refl.
  - destruct H as [x [-> Hx]]. repeat constructor. apply Ascii.eqb_eq. exact Hx.
  - destruct H as [x [-> Hx]]. repeat constructor. exact Hx.
  - destruct H as [x [-> Hx]]. repeat constructor. exact Hx.
  - destruct H as [x [-> Hx]]. repeat constructor. rewrite Hx. reflexivity.
  - destruct H as [-> _]. constructor.
  - destruct H as [w1 [w2 [-> [H1 H2]]]]. apply Forall_app. split.
    + eapply Forall_impl; [ | apply (IH1 _ _ _ H1) ].
      intros c Hc. cbv beta in Hc. rewrite Hc. reflexivity.
    + eapply Forall_impl; [ | apply (IH2 _ _ _ H2) ].
      intros c Hc. cbv beta in Hc. rewrite Hc. apply orb_true_r.
  - destruct H as [H | H].
    + eapply Forall_impl; [ | apply (IH1 _ _ _ H) ].
      intros c Hc. cbv beta in Hc. rewrite Hc. reflexivity.
    + eapply Forall_impl; [ | apply (IH2 _ _ _ H) ].
      intros c Hc. cbv beta in Hc. rewrite Hc. apply orb_true_r.
  - induction H as [ | min max p n w1 w2 Hm Hne HD HR IHR ].
    + constructor.
    + apply Forall_app. split; [ apply (IH _ _ _ HD) | exact IHR ].
Qed.

Lemma derives_minlen (r : regex) :
  forall p w n, derives r p w n -> (minlen r <= length w)%nat.
Proof.
  induction r as [ c | c | items | | | | r1 IH1 r2 IH2 | r1 IH1 r2 IH2 | g min max r IH ];
    intros p w n H; cbn [derives minlen] in *.
  - subst. simpl. lia.
  - destruct H as [x [-> _]]. simpl. lia.
  - destruct H as [x [-> _]]. simpl. lia.
  - destruct H as [x [-> _]]. simpl. lia.
  - destruct H as [x [-> _]]. simpl. lia.
  - destruct H as [-> _]. simpl. lia.
  - destruct H as [w1 [w2 [-> [H1 H2]]]]. rewrite length_app.
    specialize (IH1 _ _ _ H1). specialize (IH2 _ _ _ H2). lia.
  - destruct H as [H | H]; [ specialize (IH1 _ _ _ H) | specialize (IH2 _ _ _ H) ]; lia.
  - induction H as [ | min max p n w1 w2 Hm Hne HD HR IHR ].
    + simpl. lia.
    + rewrite length_app. specialize (IH _ _ _ HD).
      destruct min as [ | m ]; simpl in *; lia.
Qed.

Lemma derives_requires (c : ascii) (r : regex) :
  requires c r = true -> forall p w n, derives r p w n -> In c w.
Proof.
  induction r as [ x | x | items | | | | r1 IH1 r2 IH2 | r1 IH1 r2 IH2 | g min max r IH ];
    cbn [requires derives]; intros Hreq p w n H; try discriminate.
  - apply Ascii.eqb_eq in Hreq. subst. left. reflexivity.
  - destruct H as [w1 [w2 [-> [H1 H2]]]]. apply in_or_app.
    apply orb_true_iff in Hreq. destruct Hreq as [Hr | Hr].
    + left. eapply IH1; eassumption.
    + right. eapply IH2; eassumption.
  - apply andb_true_iff in Hreq. destruct Hreq as [Hr1 Hr2].
    destruct H as [H | H]; [ eapply IH1 | eapply IH2 ]; eassumption.
  - destruct min as [ | m ]; [ discriminate | ].
    inversion H; subst. apply in_or_app. left. eapply IH; eassumption.
Qed.

(** A pattern that begins with [\b] matches only where the boundary test
    holds at its first position; likewise at its last. *)
Lemma derives_starts_wb (r : regex) :
  starts_wb r = true ->
  forall p w n, derives r p w n -> xorb (wordo p) (wordo (next_of w n)) = true.
Proof.
  induction r as [ x | x | items | | | | r1 IH1 r2 IH2 | r1 IH1 r2 IH2 | g min max r IH ];
    cbn [starts_wb derives]; intros Hs p w n H; try discriminate.
  - destruct H as [-> Hb]. exact Hb.
  - destruct H as [w1 [w2 [-> [H1 H2]]]]. rewrite next_of_app. eapply IH1; eassumption.
Qed.

Lemma derives_ends_wb (r : regex) :
  ends_wb r = true ->
  forall p w n, derives r p w n -> xorb (wordo (prev_after p w)) (wordo n) = true.
Proof.
  induction r as [ x | x | items | | | | r1 IH1 r2 IH2 | r1 IH1 r2 IH2 | g min max r IH ];
    cbn [ends_wb derives]; intros Hs p w n H; try discriminate.
  - destruct H as [-> Hb]. exact Hb.
  - destruct H as [w1 [w2 [-> [H1 H2]]]]. rewrite prev_after_app. eapply IH2; eassumption.
Qed.

(** Moving a match to another context. *)
Lemma derives_transfer_gen (r : regex) (P N P' N' : option ascii) (W : str) :
  W <> [] ->
  forall r', (has_wb r' = true -> has_wb r = true) ->
  context_le r P N P' N' W ->
  forall u w v,
    W = u ++ w ++ v ->
    derives r' (prev_after P u) w (next_of v N) ->
    derives r' (prev_after P' u) w (next_of v N').
Proof.
  intros HW r'.
  induction r' as [ c | c | items | | | | r1 IH1 r2 IH2 | r1 IH1 r2 IH2 | g min max r0 IH ];
    intros Hwb Hctx u w v HWeq H; cbn [derives has_wb] in *; try exact H.
  - destruct H as [-> Hb]. split; [ reflexivity | ].
    destruct (Hctx (Hwb eq_refl)) as [Hstart Hend].
    simpl in HWeq.
    destruct u as [ | cu u ].
    + simpl in *. subst v.
      rewrite !(next_of_nonempty W) in * by exact HW. auto.
    + destruct v as [ | cv v ].
      * rewrite app_nil_r in HWeq. subst W. simpl next_of in *.
        rewrite (prev_after_irrel P' P) by discriminate. auto.
      * rewrite (prev_after_irrel P' P) by discriminate. exact Hb.
  - destruct H as [w1 [w2 [-> [H1 H2]]]]. exists w1, w2. split; [ reflexivity | ].
    split.
    + rewrite <- next_of_app. apply IH1.
      * intros E. apply Hwb. rewrite E. reflexivity.
      * exact Hctx.
      * rewrite HWeq, <- !app_assoc. reflexivity.
      * rewrite next_of_app. exact H1.
    + rewrite <- prev_after_app. apply IH2.
      * intros E. apply Hwb. rewrite E. apply orb_true_r.
      * exact Hctx.
      * rewrite HWeq, <- !app_assoc. reflexivity.
      * rewrite prev_after_app. exact H2.
  - destruct H as [H | H]; [ left; apply IH1 | right; apply IH2 ]; try assumption.
    + intros E. apply Hwb. rewrite E. reflexivity.
    + intros E. apply Hwb. rewrite E. apply orb_true_r.
  - remember (prev_after P u) as p0 eqn:Ep.
    remember (next_of v N) as n0 eqn:En.
    revert u Ep HWeq.
    induction H as [ max p n | min max p n w1 w2 Hm Hne HD HR IHR ];
      intros u Ep HWeq.
    + constructor.
    + subst p n. constructor; [ exact Hm | exact Hne | | ].
      * rewrite <- next_of_app. apply IH; [ exact Hwb | exact Hctx | | ].
        -- rewrite HWeq, <- !app_assoc. reflexivity.
        -- rewrite next_of_app. exact HD.
      * rewrite <- prev_after_app. apply IHR; [ reflexivity | | ].
        -- symmetry. apply prev_after_app.
        -- rewrite HWeq, <- !app_assoc. reflexivity.
Qed.

Lemma derives_transfer (r : regex) (P N P' N' : option ascii) (W : str) :
  W <> [] ->
  context_le r P N P' N' W ->
  derives r P W N -> derives r P' W N'.
Proof.
  intros HW Hctx H.
  apply (derives_transfer_gen r P N P' N' W HW r (fun E => E) Hctx [] W []).
  - rewrite app_nil_r. reflexivity.
  - exact H.
Qed.

(** ** The scan *)

Lemma sub_loop_render (r : regex) (repl : str -> str) (fuel : nat) :
  forall prev rest,
    sub_loop r repl fuel prev rest = render repl (scan_loop r fuel prev rest).
Proof.
  induction fuel as [ | f IH ]; intros prev rest.
  - simpl. unfold render. induction rest as [ | c rest IHr ]; simpl; congruence.
  - cbn [sub_loop scan_loop].
    assert (Hcopy :
      match rest with [] => [] | c :: tl => c :: sub_loop r repl f (Some c) tl end
      = render repl
          match rest with [] => [] | c :: tl => inl c :: scan_loop r f (Some c) tl end).
    { destruct rest as [ | c tl ]; [ reflexivity | ]. unfold render. simpl.
      rewrite IH. reflexivity. }
    destruct (match_here r (prev, rest)) as [[prev' rest'] | ]; [ | exact Hcopy ].
    unfold render at 1. cbn [flat_map]. f_equal.
    destruct (length rest' <? length rest)%nat; [ apply IH | exact Hcopy ].
Qed.

Lemma sub_render (r : regex) (repl : str -> str) (s : str) :
  sub r repl s = render repl (scan r s).
Proof. apply sub_loop_render. Qed.

Lemma match_here_some (r : regex) (p p' : option ascii) (rest rest' : str) :
  match_here r (p, rest) = Some (p', rest') ->
  exists m, rest = m ++ rest' /\ p' = prev_after p m /\ derives r p m (hd_error rest').
Proof.
  unfold match_here. intros H.
  assert (Hin : In (p', rest') (ends r (p, rest))).
  { destruct (ends r (p, rest)); [ discriminate | ]. injection H as <-. left. reflexivity. }
  apply ends_derives in Hin. exact Hin.
Qed.

Lemma match_here_none (r : regex) (p : option ascii) (w rest' : str) :
  match_here r (p, w ++ rest') = None -> ~ derives r p w (hd_error rest').
Proof.
  unfold match_here. intros H HD.
  assert (Hin : In (prev_after p w, rest') (ends r (p, w ++ rest'))).
  { apply ends_derives. exists w. auto. }
  destruct (ends r (p, w ++ rest')); [ destruct Hin | discriminate ].
Qed.

Lemma firstn_length_app (m rest' : str) :
  firstn (length (m ++ rest') - length rest') (m ++ rest') = m.
Proof.
  rewrite length_app. replace (length m + length rest' - length rest')%nat
    with (length m + 0)%nat by lia.
  rewrite firstn_app_2. simpl. apply app_nil_r.
Qed.

Lemma scan_loop_scanned (r : regex) (Hne : nonempty r) (fuel : nat) :
  forall prev rest,
    (length rest < fuel)%nat -> scanned r prev rest (scan_loop r fuel prev rest).
Proof.
  induction fuel as [ | f IH ]; intros prev rest Hlen; [ lia | ].
  cbn [scan_loop].
  match goal with
  | |- context [match_here ?a ?b] =>
      destruct (match_here a b) as [[prev' rest'] | ] eqn:E
  end.
  - destruct (match_here_some _ _ _ _ _ E) as [m [Hm [Hp HD]]]. subst rest prev'.
    pose proof (Hne _ _ _ HD) as Hm.
    rewrite firstn_length_app.
    assert (Hlt : (length rest' <? length (m ++ rest'))%nat = true).
    { apply Nat.ltb_lt. rewrite length_app. destruct m; [ congruence | simpl; lia ]. }
    rewrite Hlt. constructor; [ exact Hm | exact HD | ].
    apply IH. apply Nat.ltb_lt in Hlt. lia.
  - destruct rest as [ | c tl ]; [ constructor | ].
    constructor; [ exact E | ]. apply IH. simpl in Hlen. lia.
Qed.

Lemma scan_scanned (r : regex) (s : str) :
  nonempty r -> scanned r None s (scan r s).
Proof. intros Hne. apply scan_loop_scanned; [ exact Hne | lia ]. Qed.

(** A scan that finds nothing copies the string. *)
Lemma scanned_clean_identity (r : regex) (repl : str -> str) :
  forall p t ps, scanned r p t ps -> clean_from r p t -> render repl ps = t.
Proof.
  induction 1 as [ p | p c tl ps Hnone Hsc IH | p m rest' ps Hm HD Hsc IH ]; intros Hcl.
  - reflexivity.
  - unfold render in *. simpl. f_equal. apply IH.
    intros pre w post Heq. apply (Hcl (c :: pre) w post). simpl. congruence.
  - exfalso. apply (Hcl [] m rest'); [ reflexivity | exact HD ].
Qed.

Lemma sub_clean_identity (r : regex) (repl : str -> str) (s : str) :
  nonempty r -> clean r s -> sub r repl s = s.
Proof.
  intros Hne Hcl. rewrite sub_render.
  apply (scanned_clean_identity r repl None s); [ apply scan_scanned; exact Hne | exact Hcl ].
Qed.

(** ** What a pass leaves behind *)

Lemma prev_after_snoc (p : option ascii) (l : str) (x : ascii) :
  prev_after p (l ++ [x]) = Some x.
Proof. rewrite prev_after_app. reflexivity. Qed.

Lemma hd_error_app_next (b2 R : str) (x : ascii) :
  hd_error (b2 ++ x :: R) = next_of b2 (Some x).
Proof. destruct b2; reflexivity. Qed.

Lemma window_split (A R pre w post : str) :
  A ++ R = pre ++ w ++ post ->
  (exists pre2, pre = A ++ pre2 /\ R = pre2 ++ w ++ post) \/
  (exists a2, A = pre ++ a2 /\ a2 <> [] /\ a2 ++ R = w ++ post).
Proof.
  intros H. apply app_eq_app in H. destruct H as [l [[H1 H2] | [H1 H2]]].
  - destruct l as [ | c l ].
    + left. exists []. rewrite app_nil_r in H1. subst. split; [ now rewrite app_nil_r | exact (eq_sym H2) ].
    + right. exists (c :: l). repeat split; [ exact H1 | discriminate | exact (eq_sym H2) ].
  - left. exists l. split; assumption.
Qed.

Lemma last_of_suffix (body a1 a2 : str) (x : ascii) :
  body ++ [x] = a1 ++ a2 -> a2 <> [] -> exists a2', a2 = a2' ++ [x] /\ body = a1 ++ a2'.
Proof.
  intros H Hne. destruct (exists_last Hne) as [a2' [y ->]].
  rewrite app_assoc in H. apply app_inj_tail in H. destruct H as [-> ->].
  exists a2'. split; reflexivity.
Qed.

Lemma window_in_token (body R a1 a2 w post : str) :
  "["%char :: body ++ ["]"%char] = a1 ++ a2 ->
  a2 <> [] ->
  a2 ++ R = w ++ post ->
  w <> [] ->
  ~ In "["%char w -> ~ In "]"%char w ->
  exists b1 b2,
    a1 = "["%char :: b1 /\ body = b1 ++ w ++ b2 /\ post = b2 ++ "]"%char :: R.
Proof.
  intros Htok Ha2 Hwin Hw Hopen Hclose.
  destruct a1 as [ | c b1 ].
  - exfalso. simpl in Htok. subst a2. destruct w as [ | c w ]; [ congruence | ].
    simpl in Hwin. injection Hwin as <- _. apply Hopen. left. reflexivity.
  - simpl in Htok. injection Htok as <- Hbody.
    destruct (last_of_suffix _ _ _ _ Hbody Ha2) as [a2' [-> Hb]].
    symmetry in Hwin. apply app_eq_app in Hwin.
    destruct Hwin as [l [[H1 H2] | [H1 H2]]].
    + exfalso. apply Hclose. rewrite H1. apply in_or_app. left.
      apply in_or_app. right. left. reflexivity.
    + destruct l as [ | y l ].
      * exfalso. rewrite app_nil_r in H1. apply Hclose. rewrite <- H1.
        apply in_or_app. right. left. reflexivity.
      * assert (Hl : y :: l <> []) by discriminate.
        destruct (last_of_suffix _ _ _ _ H1 Hl) as [l' [El Ea]].
        exists b1, l'. split; [ reflexivity | ]. split.
        -- rewrite Hb, Ea. reflexivity.
        -- rewrite H2, El, <- app_assoc. reflexivity.
Qed.

Section ScanLemmas.

Variables (p : regex) (repl : str -> str).

Lemma opens_tail (x : piece) (ps : list piece) :
  opens repl (x :: ps) -> opens repl ps.
Proof. intros H m Hin. apply H. right. exact Hin. Qed.

(** The output begins as the text does, or with the token of a match that
    begins there. *)
Lemma scanned_hd (pi : option ascii) (t : str) (ps : list piece) :
  scanned p pi t ps ->
  hd_error (render repl ps) = hd_error t \/
  exists m rest', m <> [] /\ t = m ++ rest' /\ derives p pi m (hd_error rest').
Proof.
  intros H. destruct H as [ pi | pi c tl ps Hnone Hsc | pi m rest' ps Hm HD Hsc ].
  - left. reflexivity.
  - left. reflexivity.
  - right. exists m, rest'. auto.
Qed.

(** Following the output along a text [x]: either all of [x] was copied
    from the input, or a replaced match is met on the way. *)
Lemma scanned_walk (x : str) :
  forall pi t ps post',
    scanned p pi t ps ->
    render repl ps = x ++ post' ->
    (exists post ps', t = x ++ post /\ scanned p (prev_after pi x) post ps' /\
                      post' = render repl ps' /\
                      (forall y, In y ps' -> In y ps)) \/
    (exists x1 x2 m rest' body, x = x1 ++ x2 /\ x2 <> [] /\
                      t = x1 ++ m ++ rest' /\ m <> [] /\
                      derives p (prev_after pi x1) m (hd_error rest') /\
                      In (inr m) ps /\ repl m ++ body = x2 ++ post').
Proof.
  induction x as [ | c x IH ]; intros pi t ps post' Hsc Heq.
  - left. exists t, ps. simpl. auto.
  - destruct Hsc as [ pi | pi c0 tl ps Hnone Hsc | pi m rest' ps Hm HD Hsc ].
    + discriminate Heq.
    + unfold render in Heq. simpl in Heq. injection Heq as -> Heq.
      destruct (IH _ _ _ _ Hsc Heq)
        as [[post [ps' [Ht [Hs [Hp Hin]]]]] | [x1 [x2 [m [rest' [body [Hx [Hx2 [Ht [Hm [HD [Hin Hr]]]]]]]]]]]].
      * left. exists post, ps'. subst. simpl. repeat split; auto.
      * right. exists (c :: x1), x2, m, rest', body. subst. simpl.
        repeat split; auto.
    + right. exists [], (c :: x), m, rest', (render repl ps). simpl.
      repeat split; auto; discriminate.
Qed.

(** A text without an opening bracket at the head of the output was copied
    from the input. *)
Lemma scanned_prefix (w : str) :
  forall pi t ps post',
    scanned p pi t ps ->
    opens repl ps ->
    render repl ps = w ++ post' ->
    ~ In "["%char w ->
    exists post ps', t = w ++ post /\ scanned p (prev_after pi w) post ps' /\
                     post' = render repl ps' /\ (forall y, In y ps' -> In y ps).
Proof.
  intros pi t ps post' Hsc Hop Heq Hno.
  destruct (scanned_walk w _ _ _ _ Hsc Heq)
    as [H | [x1 [x2 [m [rest' [body [Hx [Hx2 [Ht [Hm [HD [Hin Hr]]]]]]]]]]]]; [ exact H | ].
  exfalso. destruct (Hop m Hin) as [b Hb]. rewrite Hb in Hr.
  destruct x2 as [ | c x2 ]; [ congruence | ].
  simpl in Hr. injection Hr as <- _. apply Hno. rewrite Hx.
  apply in_or_app. right. left. reflexivity.
Qed.

End ScanLemmas.

Lemma hd_error_app_nonempty (w post : str) :
  w <> [] -> hd_error (w ++ post) = hd_error w.
Proof. destruct w; [ congruence | reflexivity ]. Qed.

Section ScanClean.

Variables (p q : regex) (repl : str -> str).

Hypothesis q_nonempty : nonempty q.
Hypothesis q_no_open : alphabet q "[" = false.
Hypothesis q_no_close : alphabet q "]" = false.
Hypothesis p_bounded : has_wb q = true -> starts_wb p = true /\ ends_wb p = true.

Lemma no_bracket_in_match (pr n : option ascii) (w : str) :
  derives q pr w n -> ~ In "["%char w /\ ~ In "]"%char w.
Proof.
  intros H. apply derives_alpha in H. rewrite Forall_forall in H.
  split; intros Hin; apply H in Hin; congruence.
Qed.

Lemma tokens_open (ps : list piece) :
  (forall m, In (inr m) ps -> token_ok q (repl m)) -> opens repl ps.
Proof.
  intros H m Hin. destruct (H m Hin) as [body [-> _]]. eexists. reflexivity.
Qed.

(** A match of [q] at the head of the output is a match of [q] at the head
    of the input. *)
Lemma head_window (pi po : option ascii) (t : str) (ps : list piece) (w post' : str) :
  scanned p pi t ps ->
  opens repl ps ->
  start_ok q po pi t ->
  render repl ps = w ++ post' ->
  derives q po w (hd_error post') ->
  exists post, t = w ++ post /\ derives q pi w (hd_error post).
Proof.
  intros Hsc Hop Hstart Heq HD.
  pose proof (q_nonempty _ _ _ HD) as Hw.
  destruct (no_bracket_in_match _ _ _ HD) as [Hno _].
  destruct (scanned_prefix p repl w _ _ _ _ Hsc Hop Heq Hno)
    as [post [ps' [Ht [Hsc' [Hp' _]]]]].
  exists post. split; [ exact Ht | ].
  apply (derives_transfer q po (hd_error post') pi (hd_error post) w Hw); [ | exact HD ].
  intros Hwb. destruct (p_bounded Hwb) as [Hs He]. split.
  - intros Hb. destruct (Hstart Hwb) as [-> | Hx]; [ exact Hb | ].
    rewrite Ht, hd_error_app_nonempty in Hx by exact Hw. exact Hx.
  - intros Hb. destruct (scanned_hd p repl _ _ _ Hsc') as [Hhd | [m [rest' [Hm [Hpost HDm]]]]].
    + rewrite <- Hhd, <- Hp'. exact Hb.
    + pose proof (derives_starts_wb p Hs _ _ _ HDm) as Hx.
      rewrite next_of_nonempty in Hx by exact Hm.
      rewrite Hpost, hd_error_app_nonempty by exact Hm.
      rewrite (prev_after_irrel po pi) by exact Hw. exact Hx.
Qed.

(** The crux.  After a pass of [p], a match of [q] in the output would lie
    in text copied from the input, where it would be a match before the
    pass, or between the brackets of a token. *)
Lemma scanned_clean (pi : option ascii) (t : str) (ps : list piece) :
  scanned p pi t ps ->
  (forall m, In (inr m) ps -> token_ok q (repl m)) ->
  (forall pre w post,
     t = pre ++ w ++ post ->
     match_here p (prev_after pi pre, w ++ post) = None ->
     ~ derives q (prev_after pi pre) w (hd_error post)) ->
  forall po, start_ok q po pi t -> clean_from q po (render repl ps).
Proof.
  induction 1 as [ pi | pi c tl ps Hnone Hsc IH | pi m rest' ps Hm HDm Hsc IH ];
    intros Htok Hkept po Hstart pre w post Heq HD.
  - destruct pre; [ | discriminate ]. destruct w; [ | discriminate ].
    apply (q_nonempty _ _ _ HD). reflexivity.
  - destruct pre as [ | c' pre ].
    + (* the match begins at this character, which the pass copied *)
      destruct (head_window pi po (c :: tl) (inl c :: ps) w post) as [post0 [Ht HD0]];
        try assumption.
      * constructor; assumption.
      * apply tokens_open. exact Htok.
      * apply (Hkept [] w post0); [ exact Ht | | exact HD0 ].
        simpl. rewrite <- Ht. exact Hnone.
    + unfold render in Heq. simpl in Heq. injection Heq as <- Heq.
      apply (IH (fun m Hin => Htok m (or_intror Hin))) with (po := Some c) (pre := pre)
                                                            (w := w) (post := post).
      * intros pre0 w0 post0 Ht. apply (Hkept (c :: pre0) w0 post0). simpl. congruence.
      * intros _. left. reflexivity.
      * exact Heq.
      * exact HD.
  - destruct (Htok m (or_introl eq_refl)) as [body [Hrepl Hint]].
    unfold render in Heq. cbn [flat_map] in Heq. fold (render repl ps) in Heq.
    destruct (window_split _ _ _ _ _ Heq) as [[pre2 [Hpre HR]] | [a2 [Ha [Ha2 Hwin]]]].
    + (* behind the token *)
      apply (IH (fun m0 Hin => Htok m0 (or_intror Hin))) with (po := Some "]"%char)
                                                             (pre := pre2) (w := w) (post := post).
      * intros pre0 w0 post0 Ht.
        rewrite <- prev_after_app. apply (Hkept (m ++ pre0) w0 post0).
        rewrite Ht, <- app_assoc. reflexivity.
      * intros Hwb. right. destruct (p_bounded Hwb) as [_ He].
        apply (derives_ends_wb p He _ _ _ HDm).
      * exact HR.
      * rewrite Hpre, Hrepl, prev_after_app in HD.
        rewrite app_comm_cons, prev_after_snoc in HD. exact HD.
    + (* inside the token *)
      pose proof (q_nonempty _ _ _ HD) as Hw.
      destruct (no_bracket_in_match _ _ _ HD) as [Hopen Hclose].
      rewrite Hrepl in Ha.
      destruct (window_in_token _ _ _ _ _ _ Ha Ha2 Hwin Hw Hopen Hclose)
        as [b1 [b2 [Hb1 [Hbody Hpost]]]].
      apply (Hint b1 w b2 Hbody).
      rewrite Hb1 in HD. rewrite Hpost, hd_error_app_next in HD. exact HD.
Qed.

End ScanClean.

(** ** Repetitions of one character, and the shape of a URL match *)

Lemma derives_wb_free (r : regex) :
  has_wb r = false ->
  forall p w n p' n', derives r p w n -> derives r p' w n'.
Proof.
  induction r as [ c | c | items | | | | r1 IH1 r2 IH2 | r1 IH1 r2 IH2 | g min max r IH ];
    cbn [has_wb derives]; intros Hwb p w n p' n' H; try exact H; try discriminate.
  - apply orb_false_iff in Hwb. destruct Hwb as [Hw1 Hw2].
    destruct H as [w1 [w2 [-> [H1 H2]]]]. exists w1, w2. split; [ reflexivity | ].
    split; [ eapply IH1 | eapply IH2 ]; eassumption.
  - apply orb_false_iff in Hwb. destruct Hwb as [Hw1 Hw2].
    destruct H as [H | H]; [ left; eapply IH1 | right; eapply IH2 ]; eassumption.
  - revert p'. induction H as [ max p n | min max p n w1 w2 Hm Hne HD HR IHR ]; intros p'.
    + constructor.
    + constructor; [ exact Hm | exact Hne | | apply IHR ].
      eapply IH; eassumption.
Qed.

Lemma derives_cat_assoc (a b c : regex) (p n : option ascii) (w : str) :
  derives (Cat a (Cat b c)) p w n <-> derives (Cat (Cat a b) c) p w n.
Proof.
  cbn [derives]. split.
  - intros [w1 [w23 [-> [Ha [w2 [w3 [-> [Hb Hc]]]]]]]].
    exists (w1 ++ w2), w3. split; [ apply app_assoc | ]. split.
    + exists w1, w2. split; [ reflexivity | ]. split; [ | exact Hb ].
      rewrite <- next_of_app. exact Ha.
    + rewrite prev_after_app. exact Hc.
  - intros [w12 [w3 [-> [[w1 [w2 [-> [Ha Hb]]]] Hc]]]].
    exists w1, (w2 ++ w3). split; [ symmetry; apply app_assoc | ]. split.
    + rewrite next_of_app. exact Ha.
    + exists w2, w3. split; [ reflexivity | ]. split; [ exact Hb | ].
      rewrite <- prev_after_app. exact Hc.
Qed.

Lemma derives_cat_ext (a b b' : regex) :
  (forall p w n, derives b p w n <-> derives b' p w n) ->
  forall p w n, derives (Cat a b) p w n <-> derives (Cat a b') p w n.
Proof.
  intros H p w n. cbn [derives].
  split; intros [w1 [w2 [-> [Ha Hb]]]]; exists w1, w2; repeat split; try assumption;
    apply H; assumption.
Qed.

Lemma spine_split_spec (k : nat) :
  forall r i t,
    spine_split k r = Some (i, t) ->
    forall p w n, derives r p w n <-> derives (Cat i t) p w n.
Proof.
  induction k as [ | k IH ]; intros r i t Hs; [ discriminate | ].
  destruct r as [ | | | | | | a b | | ]; try (destruct k; simpl in Hs; discriminate).
  destruct k as [ | k ].
  - simpl in Hs. injection Hs as <- <-. intros; reflexivity.
  - change (spine_split (S (S k)) (Cat a b))
      with (match spine_split (S k) b with
            | Some (i, t) => Some (Cat a i, t)
            | None => None
            end) in Hs.
    destruct (spine_split (S k) b) as [[i0 t0] | ] eqn:E; [ | discriminate ].
    injection Hs as <- <-. intros p w n.
    rewrite (derives_cat_ext a b (Cat i0 t0) (IH _ _ _ E)).
    apply derives_cat_assoc.
Qed.

Section SingleChars.

Variable P : ascii -> Prop.
Variable D : option ascii -> str -> option ascii -> Prop.
Hypothesis D_spec : forall p w n, D p w n <-> exists c, w = [c] /\ P c.

(** A repetition of a pattern that matches one character of a class
    matches the runs of such characters of a permitted length. *)
Lemma rep_chain_single (min : nat) (max : option nat) (p n : option ascii) (x : str) :
  rep_chain D min max p x n <->
  (min <= length x)%nat /\ within max (length x) /\ Forall P x.
Proof.
  split.
  - induction 1 as [ max p n | min max p n w1 w2 Hm Hne HD HR IHR ].
    + simpl. repeat split; [ lia | destruct max; simpl; [ lia | exact I ] | constructor ].
    + apply D_spec in HD. destruct HD as [c [-> Hc]].
      destruct IHR as [Hmin [Hmax HP]]. simpl. repeat split.
      * lia.
      * destruct max as [ [ | M ] | ]; simpl in *; [ congruence | lia | exact I ].
      * constructor; assumption.
  - revert min max p. induction x as [ | c x IH ]; intros min max p [Hmin [Hmax HP]].
    + simpl in Hmin. assert (min = 0%nat) by lia. subst. constructor.
    + inversion HP; subst.
      apply (chain_more D min max p n [c] x).
      * intros ->. simpl in Hmax. lia.
      * discriminate.
      * apply D_spec. exists c. auto.
      * apply IH. simpl in Hmin. repeat split.
        -- lia.
        -- destruct max as [ M | ]; simpl in *; [ lia | exact I ].
        -- assumption.
Qed.

End SingleChars.

Lemma url_shape (p n : option ascii) (w : str) :
  derives _url_re p w n <-> derives (Cat WordB (Cat http_lit url_tail)) p w n.
Proof.
  unfold _url_re. cbn [cat].
  apply derives_cat_ext. apply (spine_split_spec 8). reflexivity.
Qed.

Lemma url_tail_spec (p n : option ascii) (x : str) :
  derives url_tail p x n <->
  x <> [] /\ Forall not_space x /\ xorb (wordo (prev_after p x)) (wordo n) = true.
Proof.
  unfold url_tail, plus. cbn [derives]. split.
  - intros [x1 [x2 [-> [Hrep [-> Hb]]]]]. rewrite app_nil_r.
    apply (rep_chain_single not_space) in Hrep; [ | intros; reflexivity ].
    destruct Hrep as [Hlen [_ HP]]. repeat split; try assumption.
    destruct x1; [ simpl in Hlen; lia | discriminate ].
  - intros [Hne [HP Hb]]. exists x, []. rewrite app_nil_r. repeat split; try assumption.
    apply (rep_chain_single not_space); [ intros; reflexivity | ].
    repeat split; [ | exact HP ]. destruct x; [ congruence | simpl; lia ].
Qed.

(** A URL match is the literal part followed by a run of non-space
    characters, with a boundary at either end. *)
Lemma url_inv (p n : option ascii) (w : str) :
  derives _url_re p w n ->
  exists L x, w = L ++ x /\ derives http_lit None L None /\
              x <> [] /\ Forall not_space x /\
              xorb (wordo p) (wordo (hd_error w)) = true /\
              xorb (wordo (prev_after p w)) (wordo n) = true.
Proof.
  intros H. apply url_shape in H. cbn [derives] in H.
  destruct H as [w0 [w' [-> [[-> Hb] [L [x [-> [HL Hx]]]]]]]].
  change (prev_after p []) with p in *. change ([] ++ L ++ x) with (L ++ x) in *.
  apply url_tail_spec in Hx. destruct Hx as [Hne [HP He]].
  exists L, x. repeat split; try assumption.
  - eapply derives_wb_free; [ reflexivity | exact HL ].
  - assert (HLne : L <> []).
    { apply derives_minlen in HL. destruct L; [ simpl in HL; lia | discriminate ]. }
    rewrite next_of_nonempty in Hb.
    + exact Hb.
    + destruct L; [ congruence | discriminate ].
  - rewrite prev_after_app. exact He.
Qed.

Lemma url_intro (p n : option ascii) (L x : str) :
  derives http_lit None L None ->
  x <> [] -> Forall not_space x ->
  xorb (wordo p) (wordo (hd_error (L ++ x))) = true ->
  xorb (wordo (prev_after p (L ++ x))) (wordo n) = true ->
  derives _url_re p (L ++ x) n.
Proof.
  intros HL Hne HP Hb He. apply url_shape. cbn [derives].
  exists [], (L ++ x). split; [ reflexivity | ]. split.
  - split; [ reflexivity | ].
    rewrite next_of_nonempty; [ exact Hb | ].
    destruct L; simpl; [ exact Hne | discriminate ].
  - exists L, x. split; [ reflexivity | ]. split.
    + eapply derives_wb_free; [ reflexivity | exact HL ].
    + apply url_tail_spec. repeat split; try assumption.
      simpl. rewrite <- prev_after_app. exact He.
Qed.

Lemma http_lit_facts (L : str) :
  derives http_lit None L None ->
  L <> [] /\ ~ In "["%char L /\
  exists c L', L = c :: L' /\ lower c = "h"%char.
Proof.
  intros H. split; [ | split ].
  - apply derives_minlen in H. destruct L; [ simpl in H; lia | discriminate ].
  - apply derives_alpha in H. rewrite Forall_forall in H.
    intros Hin. apply H in Hin. discriminate Hin.
  - unfold http_lit in H. cbn [cat derives] in H.
    destruct H as [w1 [w2 [-> [[c [-> Hc]] _]]]]. exists c, w2. split; [ reflexivity | exact Hc ].
Qed.

Section ScanCleanUrl.

Variables (p : regex) (repl : str -> str).

Hypothesis p_starts : starts_wb p = true.
Hypothesis p_ends : ends_wb p = true.
Hypothesis p_not_space : forall c, alphabet p c = true -> is_space c = false.

Lemma match_not_space (pr n : option ascii) (m : str) :
  derives p pr m n -> Forall not_space m.
Proof.
  intros H. apply derives_alpha in H. eapply Forall_impl; [ | exact H ].
  intros c Hc. apply p_not_space. exact Hc.
Qed.

(** After a pass of [p], whose matches hold no space, a URL match in the
    output would begin in copied text and run on over copied text and
    tokens; it would then be a URL match before the pass, running on over
    the replaced matches instead. *)
Lemma scanned_clean_url (pi : option ascii) (t : str) (ps : list piece) :
  scanned p pi t ps ->
  (forall m, In (inr m) ps -> url_token_ok (repl m)) ->
  (forall pre w post,
     t = pre ++ w ++ post ->
     match_here p (prev_after pi pre, w ++ post) = None ->
     ~ derives _url_re (prev_after pi pre) w (hd_error post)) ->
  forall po,
    (po = pi \/ xorb (wordo pi) (wordo (hd_error t)) = true) ->
    clean_from _url_re po (render repl ps).
Proof.
  induction 1 as [ pi | pi c tl ps Hnone Hsc IH | pi m rest' ps Hm HDm Hsc IH ];
    intros Htok Hkept po Hstart pre w post Heq HD.
  - destruct pre; [ | discriminate ]. destruct w; [ | discriminate ].
    apply derives_minlen in HD. simpl in HD. lia.
  - destruct pre as [ | c' pre ].
    + destruct (url_inv _ _ _ HD) as [L [x [Hw [HL [Hx [HP [Hb He]]]]]]].
      destruct (http_lit_facts _ HL) as [HLne [HLno _]].
      assert (Hop : opens repl (inl c :: ps)).
      { intros m Hin. destruct (Htok m Hin) as [Hopen _]. exact Hopen. }
      assert (Hsc0 : scanned p pi (c :: tl) (inl c :: ps)) by (constructor; assumption).
      simpl in Heq. rewrite Hw, <- app_assoc in Heq.
      destruct (scanned_prefix p repl L _ _ _ _ Hsc0 Hop Heq HLno)
        as [post1 [ps1 [Ht1 [Hsc1 [Hr1 Hin1]]]]].
      assert (Hwne : L ++ x <> []) by (destruct L; [ congruence | discriminate ]).
      assert (Hstart' : xorb (wordo pi) (wordo (hd_error (L ++ x))) = true).
      { rewrite hd_error_app_nonempty by exact HLne.
        destruct Hstart as [<- | Hs].
        - rewrite Hw, hd_error_app_nonempty in Hb by exact HLne. exact Hb.
        - rewrite Ht1, hd_error_app_nonempty in Hs by exact HLne. exact Hs. }
      symmetry in Hr1.
      destruct (scanned_walk p repl x _ _ _ _ Hsc1 Hr1)
        as [[post2 [ps2 [Ht2 [Hsc2 [Hr2 _]]]]]
           | [x1 [x2 [m [rest' [body [Hxx [Hx2 [Ht2 [Hm [HDm [Hin Hr]]]]]]]]]]]].
      * apply (Hkept [] (L ++ x) post2).
        -- simpl. rewrite Ht1, Ht2, app_assoc. reflexivity.
        -- simpl. rewrite <- app_assoc, <- Ht2, <- Ht1. exact Hnone.
        -- apply url_intro; try assumption.
           rewrite Hw, (prev_after_irrel po pi) in He by exact Hwne.
           destruct (scanned_hd p repl _ _ _ Hsc2) as [Hhd | [m [rest' [Hm [Hpost HDm]]]]].
           ++ rewrite <- Hhd, <- Hr2. exact He.
           ++ pose proof (derives_starts_wb p p_starts _ _ _ HDm) as Hs.
              rewrite next_of_nonempty in Hs by exact Hm.
              rewrite Hpost, hd_error_app_nonempty by exact Hm.
              rewrite prev_after_app. exact Hs.
      * assert (Hx1 : Forall not_space x1).
        { rewrite Hxx in HP. apply Forall_app in HP. apply HP. }
        apply (Hkept [] (L ++ x1 ++ m) rest').
        -- simpl. rewrite Ht1, Ht2, <- !app_assoc. reflexivity.
        -- simpl. rewrite <- !app_assoc.
           replace (L ++ x1 ++ m ++ rest') with (c :: tl)
             by (rewrite Ht1, Ht2; reflexivity).
           exact Hnone.
        -- apply url_intro; try assumption.
           ++ destruct x1; [ exact Hm | discriminate ].
           ++ apply Forall_app. split; [ exact Hx1 | eapply match_not_space; exact HDm ].
           ++ rewrite hd_error_app_nonempty by exact HLne.
              rewrite hd_error_app_nonempty in Hstart' by exact HLne. exact Hstart'.
           ++ rewrite !prev_after_app.
              apply (derives_ends_wb p p_ends _ _ _ HDm).
    + unfold render in Heq. simpl in Heq. injection Heq as <- Heq.
      apply (IH (fun m Hin => Htok m (or_intror Hin))) with (po := Some c) (pre := pre)
                                                            (w := w) (post := post).
      * intros pre0 w0 post0 Ht. apply (Hkept (c :: pre0) w0 post0). simpl. congruence.
      * left. reflexivity.
      * exact Heq.
      * exact HD.
  - destruct (Htok m (or_introl eq_refl)) as [_ Hnoh].
    unfold render in Heq. cbn [flat_map] in Heq. fold (render repl ps) in Heq.
    destruct (window_split _ _ _ _ _ Heq) as [[pre2 [Hpre HR]] | [a2 [Ha [Ha2 Hwin]]]].
    + apply (IH (fun m0 Hin => Htok m0 (or_intror Hin)))
        with (po := prev_after po (repl m)) (pre := pre2) (w := w) (post := post).
      * intros pre0 w0 post0 Ht.
        rewrite <- prev_after_app. apply (Hkept (m ++ pre0) w0 post0).
        rewrite Ht, <- app_assoc. reflexivity.
      * right. apply (derives_ends_wb p p_ends _ _ _ HDm).
      * exact HR.
      * rewrite Hpre, prev_after_app in HD. exact HD.
    + destruct (url_inv _ _ _ HD) as [L [x [Hw [HL _]]]].
      destruct (http_lit_facts _ HL) as [_ [_ [c [L' [HLc Hc]]]]].
      destruct a2 as [ | c0 a2 ]; [ congruence | ].
      rewrite Hw, HLc in Hwin. simpl in Hwin. injection Hwin as -> _.
      rewrite Forall_forall in Hnoh. apply (Hnoh c); [ | exact Hc ].
      rewrite Ha. apply in_or_app. right. left. reflexivity.
Qed.

End ScanCleanUrl.

(** ** Tokens and the detectors *)

Lemma all_ascii_complete (c : ascii) : In c all_ascii.
Proof.
  unfold all_ascii. rewrite <- (ascii_nat_embedding c).
  apply in_map. apply in_seq. pose proof (nat_ascii_bounded c). lia.
Qed.

Lemma forall_ascii (P : ascii -> bool) :
  forallb P all_ascii = true -> forall c, P c = true.
Proof.
  intros H c. rewrite forallb_forall in H. apply H. apply all_ascii_complete.
Qed.

Lemma forall_ascii_impl (A B : ascii -> bool) :
  forallb (fun c => implb (A c) (B c)) all_ascii = true ->
  forall c, A c = true -> B c = true.
Proof.
  intros H c Ha. pose proof (forall_ascii _ H c) as Hc. cbv beta in Hc.
  rewrite Ha in Hc. exact Hc.
Qed.

Lemma minlen_nonempty (r : regex) : (1 <= minlen r)%nat -> nonempty r.
Proof.
  intros H p w n HD. apply derives_minlen in HD.
  destruct w; [ simpl in HD; lia | discriminate ].
Qed.

Lemma prev_after_in (p : option ascii) (l : str) :
  l <> [] -> exists c, prev_after p l = Some c /\ In c l.
Proof.
  intros Hne. destruct (exists_last Hne) as [l' [c ->]].
  exists c. split; [ apply prev_after_snoc | ].
  apply in_or_app. right. left. reflexivity.
Qed.

Lemma stable_tag_shape (secret : bytes) (kind m : str) :
  _stable_tag secret kind m
  = "["%char :: (kind ++ ":"%char :: tag_digest secret m) ++ ["]"%char].
Proof.
  rewrite stable_tag_eq. simpl. rewrite <- app_assoc. reflexivity.
Qed.

Lemma kinds_chars (kind : str) : In kind kinds -> forallb kind_char kind = true.
Proof.
  assert (H : forallb (forallb kind_char) kinds = true) by reflexivity.
  rewrite forallb_forall in H. apply H.
Qed.

Lemma token_body_chars (kind d : str) :
  In kind kinds -> forallb is_lower_hex d = true ->
  forallb body_char (kind ++ ":"%char :: d) = true.
Proof.
  intros Hk Hd. apply kinds_chars in Hk.
  rewrite forallb_forall in *. intros c Hin. unfold body_char.
  apply in_app_or in Hin. destruct Hin as [Hin | [<- | Hin]].
  - rewrite (Hk c Hin). reflexivity.
  - rewrite orb_true_r. reflexivity.
  - rewrite (Hd c Hin). apply orb_true_r.
Qed.

(** A detector that needs a character no token holds matches nothing
    inside a token. *)
Lemma interior_clean_requires (x : ascii) (q : regex) (body : str) :
  requires x q = true ->
  body_char x = false ->
  forallb body_char body = true ->
  interior_clean q body.
Proof.
  intros Hreq Hx Hbody b1 w b2 Heq HD.
  apply (derives_requires x q Hreq) in HD.
  rewrite forallb_forall in Hbody.
  rewrite (Hbody x) in Hx; [ discriminate | ].
  rewrite Heq. apply in_or_app. right. apply in_or_app. left. exact HD.
Qed.

Lemma window_after_prefix (P : ascii -> bool) (A d b1 w b2 : str) :
  A ++ d = b1 ++ w ++ b2 ->
  w <> [] ->
  forallb (fun c => negb (P c)) A = true ->
  forallb P w = true ->
  exists b1', b1 = A ++ b1' /\ d = b1' ++ w ++ b2.
Proof.
  intros Heq Hw HA HP.
  destruct (window_split _ _ _ _ _ Heq) as [[b1' [H1 H2]] | [a2 [Ha [Ha2 Hwin]]]].
  - exists b1'. auto.
  - exfalso. destruct a2 as [ | c a2 ]; [ congruence | ].
    destruct w as [ | c' w ]; [ congruence | ].
    simpl in Hwin. injection Hwin as <- _.
    simpl in HP. apply andb_true_iff in HP. destruct HP as [Hc _].
    rewrite forallb_forall in HA.
    assert (Hin : In c A) by (rewrite Ha; apply in_or_app; right; left; reflexivity).
    apply HA in Hin. rewrite Hc in Hin. discriminate.
Qed.

Lemma alphabet_forallb (q : regex) (p n : option ascii) (w : str) :
  derives q p w n -> forallb (alphabet q) w = true.
Proof.
  intros H. apply derives_alpha in H. apply forallb_forall.
  rewrite Forall_forall in H. exact H.
Qed.

(** A detector whose matches are too long for a digest, and made of
    characters that the kind and the colon are not, matches nothing inside
    a token. *)
Lemma interior_clean_short (q : regex) (kind d : str) :
  forallb (fun c => negb (alphabet q c)) (kind ++ [":"%char]) = true ->
  (1 <= minlen q)%nat ->
  (length d < minlen q)%nat ->
  interior_clean q (kind ++ ":"%char :: d).
Proof.
  intros HA Hmin Hlen b1 w b2 Heq HD.
  pose proof (minlen_nonempty q Hmin _ _ _ HD) as Hw.
  pose proof (alphabet_forallb _ _ _ _ HD) as HP.
  change (kind ++ ":"%char :: d) with (kind ++ [":"%char] ++ d) in Heq.
  rewrite app_assoc in Heq.
  destruct (window_after_prefix _ _ _ _ _ _ Heq Hw HA HP) as [b1' [_ Hd]].
  apply derives_minlen in HD.
  rewrite Hd, !length_app in Hlen. lia.
Qed.

Lemma acct_alphabet (c : ascii) : alphabet _acct_re c = is_digit c.
Proof. simpl. rewrite orb_false_r. reflexivity. Qed.

Lemma digit_word (c : ascii) : is_digit c = true -> is_word c = true.
Proof. apply forall_ascii_impl. reflexivity. Qed.

Lemma lower_hex_word (c : ascii) : is_lower_hex c = true -> is_word c = true.
Proof. apply forall_ascii_impl. reflexivity. Qed.

Lemma kind_char_not_digit (c : ascii) :
  (kind_char c || Ascii.eqb c ":") = true -> negb (is_digit c) = true.
Proof.
  apply (forall_ascii_impl (fun c => kind_char c || Ascii.eqb c ":")
                           (fun c => negb (is_digit c))).
  reflexivity.
Qed.

(** The ACCT detector matches inside a token only the whole digest, and
    only when the digest is all decimal. *)
Lemma interior_clean_acct (kind d : str) :
  In kind kinds ->
  forallb is_lower_hex d = true ->
  forallb is_digit d = false ->
  interior_clean _acct_re (kind ++ ":"%char :: d).
Proof.
  intros Hk Hhex Hmixed b1 w b2 Heq HD.
  assert (Hw : w <> []) by (apply (minlen_nonempty _acct_re) in HD; [ exact HD | simpl; lia ]).
  assert (HP : forallb is_digit w = true).
  { pose proof (alphabet_forallb _ _ _ _ HD) as Ha. rewrite forallb_forall in Ha.
    apply forallb_forall. intros c Hin. rewrite <- acct_alphabet. apply Ha. exact Hin. }
  assert (HA : forallb (fun c => negb (is_digit c)) (kind ++ [":"%char]) = true).
  { apply forallb_forall. intros c Hin. apply kind_char_not_digit.
    apply kinds_chars in Hk. rewrite forallb_forall in Hk.
    apply in_app_or in Hin. destruct Hin as [Hin | [<- | []]].
    - rewrite (Hk c Hin). reflexivity.
    - apply orb_true_r. }
  change (kind ++ ":"%char :: d) with (kind ++ [":"%char] ++ d) in Heq.
  rewrite app_assoc in Heq.
  destruct (window_after_prefix _ _ _ _ _ _ Heq Hw HA HP) as [b1' [Hb1 Hd]].
  pose proof (derives_starts_wb _acct_re eq_refl _ _ _ HD) as Hs.
  pose proof (derives_ends_wb _acct_re eq_refl _ _ _ HD) as He.
  rewrite forallb_forall in Hhex, HP.
  assert (Hb1' : b1' = []).
  { destruct b1' as [ | c0 b1' ]; [ reflexivity | exfalso ].
    assert (Hne : c0 :: b1' <> []) by discriminate.
    destruct (prev_after_in (Some "["%char) _ Hne) as [c [Hc Hin]].
    rewrite Hb1, prev_after_app in Hs.
    rewrite (prev_after_irrel _ (Some "["%char)) in Hs by exact Hne.
    rewrite Hc in Hs. rewrite next_of_nonempty in Hs by exact Hw.
    destruct w as [ | cw w ]; [ congruence | ]. simpl in Hs.
    rewrite (lower_hex_word c) in Hs.
    - rewrite (digit_word cw) in Hs; [ discriminate | ]. apply HP. left. reflexivity.
    - apply Hhex. rewrite Hd. apply in_or_app. left. exact Hin. }
  assert (Hb2 : b2 = []).
  { destruct b2 as [ | c0 b2 ]; [ reflexivity | exfalso ].
    destruct (prev_after_in (prev_after (Some "["%char) b1) _ Hw) as [c [Hc Hin]].
    rewrite Hc in He. simpl in He.
    rewrite (digit_word c) in He by (apply HP; exact Hin).
    rewrite (lower_hex_word c0) in He; [ discriminate | ].
    apply Hhex. rewrite Hd. apply in_or_app. right. apply in_or_app. right.
    left. reflexivity. }
  subst b1' b2. simpl in Hd. rewrite app_nil_r in Hd. subst d.
  assert (Hall : forallb is_digit w = true) by (apply forallb_forall; exact HP).
  congruence.
Qed.

Lemma body_char_not_h (c : ascii) :
  (body_char c || Ascii.eqb c "[" || Ascii.eqb c "]") = true ->
  negb (Ascii.eqb (lower c) "h") = true.
Proof.
  apply (forall_ascii_impl (fun c => body_char c || Ascii.eqb c "[" || Ascii.eqb c "]")
                           (fun c => negb (Ascii.eqb (lower c) "h"))).
  reflexivity.
Qed.

(** No token holds an [h] or an [H]. *)
Lemma tag_url_token_ok (secret : bytes) (kind m : str) :
  In kind kinds -> url_token_ok (_stable_tag secret kind m).
Proof.
  intros Hk. rewrite stable_tag_shape. split; [ eexists; reflexivity | ].
  pose proof (token_body_chars kind _ Hk (tag_digest_lower secret m)) as Hbody.
  rewrite forallb_forall in Hbody.
  apply Forall_forall. intros c Hin Hc.
  assert (Hb : (body_char c || Ascii.eqb c "[" || Ascii.eqb c "]") = true).
  { destruct Hin as [<- | Hin]; [ apply orb_true_iff; left; apply orb_true_r | ].
    apply in_app_or in Hin. destruct Hin as [Hin | [<- | []]].
    - rewrite (Hbody c Hin). reflexivity.
    - apply orb_true_r. }
  apply body_char_not_h in Hb. rewrite Hc in Hb. discriminate.
Qed.

(** Tokens and the detectors that need a character a token does not
    hold, or more digits than a digest has. *)
Lemma tag_token_ok_requires (x : ascii) (q : regex) (secret : bytes) (kind m : str) :
  requires x q = true -> body_char x = false ->
  In kind kinds -> token_ok q (_stable_tag secret kind m).
Proof.
  intros Hreq Hx Hk. exists (kind ++ ":"%char :: tag_digest secret m).
  split; [ apply stable_tag_shape | ].
  apply (interior_clean_requires x); try assumption.
  apply token_body_chars; [ exact Hk | apply tag_digest_lower ].
Qed.

Lemma tag_token_ok_card (secret : bytes) (kind m : str) :
  In kind kinds -> token_ok _card_re (_stable_tag secret kind m).
Proof.
  intros Hk. exists (kind ++ ":"%char :: tag_digest secret m).
  split; [ apply stable_tag_shape | ].
  apply interior_clean_short.
  - apply forallb_forall. intros c Hin.
    assert (Hc : (kind_char c || Ascii.eqb c ":") = true).
    { apply kinds_chars in Hk. rewrite forallb_forall in Hk.
      apply in_app_or in Hin. destruct Hin as [Hin | [<- | []]].
      - rewrite (Hk c Hin). reflexivity.
      - apply orb_true_r. }
    revert Hc.
    apply (forall_ascii_impl (fun c => kind_char c || Ascii.eqb c ":")
                             (fun c => negb (alphabet _card_re c))).
    reflexivity.
  - simpl. lia.
  - rewrite tag_digest_length. simpl. lia.
Qed.

Lemma tag_token_ok_acct (secret : bytes) (kind m : str) :
  In kind kinds ->
  forallb is_digit (tag_digest secret m) = false ->
  token_ok _acct_re (_stable_tag secret kind m).
Proof.
  intros Hk Hmixed. exists (kind ++ ":"%char :: tag_digest secret m).
  split; [ apply stable_tag_shape | ].
  apply interior_clean_acct; [ exact Hk | apply tag_digest_lower | exact Hmixed ].
Qed.

(** ** The passes of the scrubber *)

Lemma found_scan (r : regex) (s m : str) :
  In m (found r s) <-> In (inr m) (scan r s).
Proof.
  unfold found. rewrite in_flat_map. split.
  - intros [[c | m'] [Hin Hm]]; [ destruct Hm | ].
    destruct Hm as [<- | []]. exact Hin.
  - intros Hin. exists (inr m). split; [ exact Hin | left; reflexivity ].
Qed.

(** A pass leaves no match of its own pattern. *)
Lemma pass_self_clean (p : regex) (repl : str -> str) (s : str) :
  nonempty p ->
  alphabet p "[" = false -> alphabet p "]" = false ->
  (has_wb p = true -> bounded p) ->
  (forall m, In m (found p s) -> token_ok p (repl m)) ->
  clean p (sub p repl s).
Proof.
  intros Hne Ho Hc Hb Htok. rewrite sub_render.
  apply (scanned_clean p p repl Hne Ho Hc Hb None s (scan p s)).
  - apply scan_scanned. exact Hne.
  - intros m Hin. apply Htok. apply found_scan. exact Hin.
  - intros pre w post _ Hnone. apply match_here_none. exact Hnone.
  - intros _. left. reflexivity.
Qed.

(** A pass creates no match of a pattern that had none. *)
Lemma pass_preserves_clean (p q : regex) (repl : str -> str) (s : str) :
  nonempty p -> nonempty q ->
  alphabet q "[" = false -> alphabet q "]" = false ->
  (has_wb q = true -> bounded p) ->
  (forall m, In m (found p s) -> token_ok q (repl m)) ->
  clean q s ->
  clean q (sub p repl s).
Proof.
  intros Hnp Hnq Ho Hc Hb Htok Hcl. rewrite sub_render.
  apply (scanned_clean p q repl Hnq Ho Hc Hb None s (scan p s)).
  - apply scan_scanned. exact Hnp.
  - intros m Hin. apply Htok. apply found_scan. exact Hin.
  - intros pre w post Heq _. apply Hcl. exact Heq.
  - intros _. left. reflexivity.
Qed.

Lemma pass_clean_url (p : regex) (repl : str -> str) (s : str) :
  nonempty p -> bounded p ->
  (forall c, alphabet p c = true -> is_space c = false) ->
  (forall m, In m (found p s) -> url_token_ok (repl m)) ->
  (forall pre w post,
     s = pre ++ w ++ post ->
     match_here p (prev_after None pre, w ++ post) = None ->
     ~ derives _url_re (prev_after None pre) w (hd_error post)) ->
  clean _url_re (sub p repl s).
Proof.
  intros Hnp [Hs He] Hsp Htok Hkept. rewrite sub_render.
  apply (scanned_clean_url p repl Hs He Hsp None s (scan p s)).
  - apply scan_scanned. exact Hnp.
  - intros m Hin. apply Htok. apply found_scan. exact Hin.
  - exact Hkept.
  - left. reflexivity.
Qed.

(** The library, entry by entry. *)
Lemma library_nonempty (kp : str * regex) :
  In kp pattern_library -> nonempty (snd kp).
Proof.
  intros Hin. apply minlen_nonempty.
  assert (H : forallb (fun kp => (1 <=? minlen (snd kp))%nat) pattern_library = true)
    by reflexivity.
  rewrite forallb_forall in H. apply Nat.leb_le. apply (H kp Hin).
Qed.

Lemma library_bounded (n : nat) (kp : str * regex) :
  nth_error pattern_library n = Some kp -> (1 <= n)%nat -> bounded (snd kp).
Proof.
  intros Hn Hle.
  do 7 (destruct n as [ | n ]; [ try lia; injection Hn as <-; split; reflexivity | ]).
  destruct n; discriminate Hn.
Qed.

Lemma library_kind (n : nat) (kp : str * regex) :
  nth_error pattern_library n = Some kp -> In (fst kp) kinds.
Proof.
  intros Hn. apply in_map. eapply nth_error_In. exact Hn.
Qed.

Lemma firstn_S_nth_error {A : Type} (l : list A) :
  forall n x, nth_error l n = Some x -> firstn (S n) l = firstn n l ++ [x].
Proof.
  induction l as [ | a l IH ]; intros [ | n ] x H; try discriminate.
  - injection H as <-. reflexivity.
  - simpl in H. change (a :: firstn (S n) l = a :: (firstn n l ++ [x])).
    f_equal. exact (IH n x H).
Qed.

Lemma scrub_upto_S (n : nat) (kp : str * regex) (secret : bytes) (s : str) :
  nth_error pattern_library n = Some kp ->
  scrub_upto (S n) secret s = pass secret kp (scrub_upto n secret s).
Proof.
  intros Hn. unfold scrub_upto.
  rewrite (firstn_S_nth_error _ _ _ Hn), fold_left_app. reflexivity.
Qed.

Lemma scrub_str_upto (secret : bytes) (s : str) :
  _scrub_str secret s = scrub_upto 7 secret s.
Proof.
  unfold scrub_upto, pattern_library. cbn [firstn fold_left].
  unfold pass. cbn [fst snd]. unfold _scrub_str. reflexivity.
Qed.

Section CleanAfter.

Variables (secret : bytes) (s : str) (q : regex) (k : nat).

(** The matched texts whose tokens hold no match of [q]. *)
Variable good : str -> Prop.

Hypothesis q_nonempty : nonempty q.
Hypothesis q_no_open : alphabet q "[" = false.
Hypothesis q_no_close : alphabet q "]" = false.
Hypothesis q_bounded : has_wb q = true -> bounded q.
Hypothesis q_at : exists kq, nth_error pattern_library k = Some (kq, q).
Hypothesis tokens :
  forall kind m, In kind kinds -> good m -> token_ok q (_stable_tag secret kind m).
Hypothesis found_good :
  forall n kp m,
    (k <= n)%nat -> nth_error pattern_library n = Some kp ->
    In m (found (snd kp) (scrub_upto n secret s)) -> good m.

(** From its own pass on, the string holds no match of [q]. *)
Lemma clean_after (n : nat) :
  (k < n <= 7)%nat -> clean q (scrub_upto n secret s).
Proof.
  induction n as [ | n IH ]; intros Hn; [ lia | ].
  assert (Hlt : (n < length pattern_library)%nat) by (simpl; lia).
  destruct (nth_error pattern_library n) as [kp | ] eqn:E;
    [ | apply nth_error_None in E; lia ].
  rewrite (scrub_upto_S n kp secret s E). unfold pass.
  assert (Htok : forall m, In m (found (snd kp) (scrub_upto n secret s)) ->
                           token_ok q (_stable_tag secret (fst kp) m)).
  { intros m Hin. apply tokens.
    - apply (library_kind n). exact E.
    - apply (found_good n kp m); [ lia | exact E | exact Hin ]. }
  destruct (Nat.eq_dec n k) as [-> | Hneq].
  - destruct q_at as [kq Hq]. rewrite Hq in E. injection E as <-. simpl in *.
    apply pass_self_clean; assumption.
  - apply pass_preserves_clean; try assumption.
    + apply library_nonempty. eapply nth_error_In. exact E.
    + intros _. apply (library_bounded n); [ exact E | lia ].
    + apply IH. lia.
Qed.

End CleanAfter.

(** ** The scrubbed string *)

Section Scrubbed.

Variables (secret : bytes) (s : str).

Lemma clean_after_requires (x : ascii) (q : regex) (k : nat) (kq : str) :
  nth_error pattern_library k = Some (kq, q) ->
  requires x q = true -> body_char x = false ->
  alphabet q "[" = false -> alphabet q "]" = false ->
  (has_wb q = true -> bounded q) ->
  clean q (scrub_upto 7 secret s).
Proof.
  intros Hq Hreq Hx Ho Hc Hb.
  apply (clean_after secret s q k (fun _ => True)); try assumption.
  - apply (library_nonempty (kq, q)). eapply nth_error_In. exact Hq.
  - exists kq. exact Hq.
  - intros kind m Hk _. apply (tag_token_ok_requires x); assumption.
  - intros; exact I.
  - assert (Hlt : (k < length pattern_library)%nat)
      by (apply nth_error_Some; rewrite Hq; discriminate).
    simpl in Hlt. lia.
Qed.

Lemma email_clean : clean _email_re (_scrub_str secret s).
Proof.
  rewrite scrub_str_upto.
  apply (clean_after_requires "@" _email_re 0 (s2l "EMAIL"));
    [ reflexivity | vm_compute; reflexivity | reflexivity
    | vm_compute; reflexivity | vm_compute; reflexivity | discriminate ].
Qed.

Lemma ssn_clean : clean _ssn_re (_scrub_str secret s).
Proof.
  rewrite scrub_str_upto.
  apply (clean_after_requires "-" _ssn_re 1 (s2l "SSN"));
    [ reflexivity | vm_compute; reflexivity | reflexivity
    | vm_compute; reflexivity | vm_compute; reflexivity
    | intros _; split; reflexivity ].
Qed.

Lemma ip_clean : clean _ip_re (_scrub_str secret s).
Proof.
  rewrite scrub_str_upto.
  apply (clean_after_requires "." _ip_re 4 (s2l "IP"));
    [ reflexivity | vm_compute; reflexivity | reflexivity
    | vm_compute; reflexivity | vm_compute; reflexivity
    | intros _; split; reflexivity ].
Qed.

Lemma domain_clean : clean _domain_re (_scrub_str secret s).
Proof.
  rewrite scrub_str_upto.
  apply (clean_after_requires "." _domain_re 6 (s2l "DOMAIN"));
    [ reflexivity | vm_compute; reflexivity | reflexivity
    | vm_compute; reflexivity | vm_compute; reflexivity
    | intros _; split; reflexivity ].
Qed.

Lemma card_clean : clean _card_re (_scrub_str secret s).
Proof.
  rewrite scrub_str_upto.
  apply (clean_after secret s _card_re 2 (fun _ => True)).
  - apply (library_nonempty (s2l "CARD", _card_re)). simpl. tauto.
  - vm_compute; reflexivity.
  - vm_compute; reflexivity.
  - intros _. split; reflexivity.
  - exists (s2l "CARD"). reflexivity.
  - intros kind m Hk _. apply tag_token_ok_card. exact Hk.
  - intros; exact I.
  - lia.
Qed.

Lemma late_digest_mixed (n : nat) (kp : str * regex) (m : str) :
  late_digests_mixed secret s = true ->
  (3 <= n)%nat -> nth_error pattern_library n = Some kp ->
  In m (found (snd kp) (scrub_upto n secret s)) ->
  forallb is_digit (tag_digest secret m) = false.
Proof.
  intros Hmix Hn Hkp Hin. unfold late_digests_mixed in Hmix.
  rewrite forallb_forall in Hmix. apply negb_true_iff. apply Hmix.
  assert (Hd : In (tag_digest secret m) (pass_digests n secret s)).
  { unfold pass_digests. rewrite Hkp. apply in_map. exact Hin. }
  unfold late_digests.
  do 3 (destruct n as [ | n ]; [ lia | ]).
  destruct n as [ | [ | [ | [ | n ] ] ] ].
  - apply in_or_app. left. exact Hd.
  - apply in_or_app. right. apply in_or_app. left. exact Hd.
  - do 2 (apply in_or_app; right). apply in_or_app. left. exact Hd.
  - do 3 (apply in_or_app; right). exact Hd.
  - cbn [nth_error pattern_library] in Hkp. destruct n; discriminate Hkp.
Qed.

Lemma acct_clean :
  late_digests_mixed secret s = true -> clean _acct_re (_scrub_str secret s).
Proof.
  intros Hmix. rewrite scrub_str_upto.
  apply (clean_after secret s _acct_re 3
           (fun m => forallb is_digit (tag_digest secret m) = false)).
  - apply (library_nonempty (s2l "ACCT", _acct_re)). simpl. tauto.
  - vm_compute; reflexivity.
  - vm_compute; reflexivity.
  - intros _. split; reflexivity.
  - exists (s2l "ACCT"). reflexivity.
  - intros kind m Hk Hg. apply tag_token_ok_acct; assumption.
  - intros n kp m Hn Hkp Hin. apply (late_digest_mixed n kp m); assumption.
  - lia.
Qed.

Lemma url_not_space (c : ascii) : alphabet _url_re c = true -> is_space c = false.
Proof.
  intros H. apply negb_true_iff. revert H.
  apply (forall_ascii_impl (alphabet _url_re) (fun c => negb (is_space c))).
  vm_compute; reflexivity.
Qed.

Lemma domain_not_space (c : ascii) : alphabet _domain_re c = true -> is_space c = false.
Proof.
  intros H. apply negb_true_iff. revert H.
  apply (forall_ascii_impl (alphabet _domain_re) (fun c => negb (is_space c))).
  vm_compute; reflexivity.
Qed.

Lemma url_clean : clean _url_re (_scrub_str secret s).
Proof.
  rewrite scrub_str_upto.
  rewrite (scrub_upto_S 6 (s2l "DOMAIN", _domain_re)) by reflexivity.
  unfold pass. cbn [fst snd].
  apply pass_clean_url.
  - apply (library_nonempty (s2l "DOMAIN", _domain_re)). simpl. tauto.
  - split; reflexivity.
  - exact domain_not_space.
  - intros m _. apply tag_url_token_ok. simpl. tauto.
  - intros pre w post Heq _. revert pre w post Heq.
    change (clean _url_re (scrub_upto 6 secret s)).
    rewrite (scrub_upto_S 5 (s2l "URL", _url_re)) by reflexivity.
    unfold pass. cbn [fst snd].
    apply pass_clean_url.
    + apply (library_nonempty (s2l "URL", _url_re)). simpl. tauto.
    + split; reflexivity.
    + exact url_not_space.
    + intros m _. apply tag_url_token_ok. simpl. tauto.
    + intros pre w post _ Hnone. apply match_here_none. exact Hnone.
Qed.

(** Whatever the input, the scrubbed string holds no match of the EMAIL,
    SSN, CARD, IP, URL and DOMAIN detectors. *)
Lemma text_detectors_clean (q : regex) :
  In q text_detectors -> clean q (_scrub_str secret s).
Proof.
  intros [<- | [<- | [<- | [<- | [<- | [<- | []]]]]]].
  - apply email_clean.
  - apply ssn_clean.
  - apply card_clean.
  - apply ip_clean.
  - apply url_clean.
  - apply domain_clean.
Qed.

(** And none of the ACCT detector either when the tokens emitted from the
    ACCT pass on have a letter in their digests. *)
Lemma library_clean (kp : str * regex) :
  late_digests_mixed secret s = true ->
  In kp pattern_library -> clean (snd kp) (_scrub_str secret s).
Proof.
  intros Hmix [<- | [<- | [<- | [<- | [<- | [<- | [<- | []]]]]]]]; cbn [snd].
  - apply email_clean.
  - apply ssn_clean.
  - apply card_clean.
  - apply acct_clean. exact Hmix.
  - apply ip_clean.
  - apply url_clean.
  - apply domain_clean.
Qed.

End Scrubbed.

(** ** Matches found by a search *)

Lemma prev_after_firstn (t : str) (i : nat) :
  (i <= length t)%nat ->
  prev_after None (firstn i t) = match i with O => None | S j => nth_error t j end.
Proof.
  destruct i as [ | j ]; intros Hi; [ reflexivity | ].
  destruct (nth_error t j) as [x | ] eqn:E.
  - rewrite (firstn_S_nth_error t j x E). apply prev_after_snoc.
  - apply nth_error_None in E. lia.
Qed.

Lemma state_at_split (pre rest : str) :
  state_at (pre ++ rest) (length pre) = (prev_after None pre, rest).
Proof.
  unfold state_at. rewrite length_app.
  replace (Nat.min (length pre) (length pre + length rest)) with (length pre) by lia.
  rewrite <- (prev_after_firstn (pre ++ rest) (length pre))
    by (rewrite length_app; lia).
  rewrite firstn_app, Nat.sub_diag, firstn_all, app_nil_r.
  rewrite skipn_app, Nat.sub_diag, skipn_all. reflexivity.
Qed.

Lemma state_at_clamped (t : str) (i : nat) :
  exists pre rest, t = pre ++ rest /\ state_at t i = (prev_after None pre, rest).
Proof.
  exists (firstn (Nat.min i (length t)) t), (skipn (Nat.min i (length t)) t).
  split; [ symmetry; apply firstn_skipn | ].
  unfold state_at. cbv zeta. rewrite prev_after_firstn by lia. reflexivity.
Qed.

(** A string is clean of a pattern when no offset of it begins a match. *)
Lemma clean_match_at (q : regex) (t : str) :
  clean q t <-> forall i, match_at q t i = None.
Proof.
  split.
  - intros Hcl i. unfold match_at.
    destruct (state_at_clamped t i) as [pre [rest [Ht Hst]]]. rewrite Hst.
    destruct (match_here q (prev_after None pre, rest)) as [[p' rest'] | ] eqn:E;
      [ | reflexivity ].
    destruct (match_here_some _ _ _ _ _ E) as [m [Hm [_ HD]]].
    exfalso. apply (Hcl pre m rest'); [ congruence | exact HD ].
  - intros Hnone pre w post Ht HD.
    specialize (Hnone (length pre)). unfold match_at in Hnone.
    rewrite Ht, state_at_split in Hnone.
    match type of Hnone with
    | context [match_here ?a ?b] =>
        destruct (match_here a b) as [[p' rest'] | ] eqn:E
    end; [ discriminate Hnone | ].
    exact (match_here_none _ _ _ _ E HD).
Qed.

Lemma match_at_end (q : regex) (t : str) (i : nat) :
  (length t <= i)%nat -> match_at q t (length t) = None -> match_at q t i = None.
Proof.
  intros Hi. unfold match_at, state_at.
  replace (Nat.min i (length t)) with (length t) by lia.
  rewrite Nat.min_id.
  destruct (match_here q _) as [[p' rest'] | ]; [ intros H; discriminate H | reflexivity ].
Qed.

Lemma search_fold_none (q : regex) (t : str) (l : list nat) :
  fold_right (fun i later =>
                match match_at q t i with
                | Some m => Some m
                | None => later
                end) None l = None
  <-> forall i, In i l -> match_at q t i = None.
Proof.
  induction l as [ | j l IH ]; simpl.
  - split; [ intros _ i [] | reflexivity ].
  - destruct (match_at q t j) as [m | ] eqn:E.
    + split; [ discriminate | ]. intros H. rewrite <- E. apply H. left. reflexivity.
    + rewrite IH. split.
      * intros H i [<- | Hi]; [ exact E | apply H; exact Hi ].
      * intros H i Hi. apply H. right. exact Hi.
Qed.

Lemma search_none (q : regex) (t : str) :
  search q t = None <-> forall i, match_at q t i = None.
Proof.
  unfold search. rewrite search_fold_none. split.
  - intros H i. destruct (Nat.le_gt_cases (length t) i) as [Hle | Hlt].
    + apply match_at_end; [ exact Hle | ]. apply H. apply in_seq. lia.
    + apply H. apply in_seq. lia.
  - intros H i _. apply H.
Qed.

Lemma clean_search (q : regex) (t : str) : clean q t <-> search q t = None.
Proof. rewrite search_none. apply clean_match_at. Qed.

(** ** What the String Scrubber leaves behind *)

(** Whatever the input and the key, a search of the scrubbed string with
    the EMAIL, SSN, CARD, IP, URL or DOMAIN detector finds nothing. *)
Theorem scrubbed_text_has_no_text_detector_match (secret : bytes) (s : str) :
  Forall (fun q => search q (_scrub_str secret s) = None) text_detectors.
Proof.
  apply Forall_forall. intros q Hq.
  apply clean_search. apply text_detectors_clean. exact Hq.
Qed.

(** The ACCT detector finds nothing either when each token emitted by the
    ACCT, IP, URL and DOMAIN passes has a letter among its six digest
    characters. *)
Theorem scrubbed_text_has_no_acct_match (secret : bytes) (s : str) :
  late_digests_mixed secret s = true ->
  search _acct_re (_scrub_str secret s) = None.
Proof.
  intros Hmix. apply clean_search. apply acct_clean. exact Hmix.
Qed.

Lemma scrub_str_fixed (secret : bytes) (t : str) :
  (forall kp, In kp pattern_library -> clean (snd kp) t) -> _scrub_str secret t = t.
Proof.
  intros Hcl. rewrite scrub_str_upto. unfold scrub_upto.
  change (firstn 7 pattern_library) with pattern_library.
  assert (Hgen : forall l,
            (forall kp, In kp l -> In kp pattern_library) ->
            fold_left (fun cur kp => pass secret kp cur) l t = t).
  { induction l as [ | kp l IH ]; intros Hl; [ reflexivity | ].
    cbn [fold_left]. unfold pass at 2.
    rewrite sub_clean_identity.
    - apply IH. intros kp' Hin. apply Hl. right. exact Hin.
    - apply library_nonempty. apply Hl. left. reflexivity.
    - apply Hcl. apply Hl. left. reflexivity. }
  apply Hgen. intros kp Hin. exact Hin.
Qed.

(** Scrubbing a second time changes nothing when the ACCT detector finds no
    match in the scrubbed string. *)
Theorem rescrub_is_identity_without_acct_match (secret : bytes) (s : str) :
  search _acct_re (_scrub_str secret s) = None ->
  _scrub_str secret (_scrub_str secret s) = _scrub_str secret s.
Proof.
  intros Hacct. apply scrub_str_fixed.
  pose proof (text_detectors_clean secret s) as Htext.
  intros kp [<- | [<- | [<- | [<- | [<- | [<- | [<- | []]]]]]]]; cbn [snd];
    try (apply Htext; simpl; tauto).
  apply clean_search. exact Hacct.
Qed.

Lemma scrubbed_text_has_no_acct_match_witness :
  late_digests_mixed default_secret (s2l "acct 123456789 at 192.168.1.10") = true /\
  search _acct_re (_scrub_str default_secret (s2l "acct 123456789 at 192.168.1.10"))
  = None.
Proof.
  assert (H : late_digests_mixed default_secret
                (s2l "acct 123456789 at 192.168.1.10") = true)
    by (vm_compute; reflexivity).
  split; [ exact H | ].
  exact (scrubbed_text_has_no_acct_match default_secret _ H).
Defined.

Lemma rescrub_is_identity_without_acct_match_witness :
  search _acct_re (_scrub_str default_secret (s2l "mail ceo@bank.com")) = None /\
  _scrub_str default_secret (_scrub_str default_secret (s2l "mail ceo@bank.com"))
  = _scrub_str default_secret (s2l "mail ceo@bank.com").
Proof.
  assert (H : search _acct_re (_scrub_str default_secret (s2l "mail ceo@bank.com"))
              = None)
    by (vm_compute; reflexivity).
  split; [ exact H | ].
  exact (rescrub_is_identity_without_acct_match default_secret _ H).
Defined.

(** The condition is needed.  Under the built-in key the token of the
    account number 100004 has the digest 048563, six decimal digits between
    a colon and a bracket: the ACCT detector matches them, and a second
    scrub rewrites the token. *)
Theorem rescrub_can_rewrite_a_token :
  exists s,
    search _acct_re (_scrub_str default_secret s) = Some (s2l "048563") /\
    _scrub_str default_secret s = s2l "[ACCT:048563]" /\
    _scrub_str default_secret (_scrub_str default_secret s)
    <> _scrub_str default_secret s.
Proof.
  exists (s2l "100004").
  assert (H1 : _scrub_str default_secret (s2l "100004") = s2l "[ACCT:048563]")
    by (vm_compute; reflexivity).
  rewrite H1. split; [ vm_compute; reflexivity | ]. split; [ reflexivity | ].
  vm_compute. discriminate.
Qed.

(** ** Strings without the characters the detectors need *)

Lemma derives_requires_in (P : ascii -> bool) (r : regex) :
  requires_in P r = true ->
  forall p w n, derives r p w n -> exists c, In c w /\ P c = true.
Proof.
  induction r as [ x | x | items | | | | r1 IH1 r2 IH2 | r1 IH1 r2 IH2 | g min max r IH ];
    cbn [requires_in derives]; intros Hreq p w n H; try discriminate.
  - subst w. exists x. split; [ left; reflexivity | exact Hreq ].
  - destruct H as [c [-> Hc]]. exists c. split; [ left; reflexivity | ].
    apply (forall_ascii_impl (fun c => Ascii.eqb (lower c) (lower x)) P Hreq).
    apply Ascii.eqb_eq. exact Hc.
  - destruct H as [c [-> Hc]]. exists c. split; [ left; reflexivity | ].
    exact (forall_ascii_impl (in_class items) P Hreq c Hc).
  - destruct H as [c [-> Hc]]. exists c. split; [ left; reflexivity | ].
    exact (forall_ascii_impl is_digit P Hreq c Hc).
  - destruct H as [c [-> Hc]]. exists c. split; [ left; reflexivity | ].
    apply (forall_ascii_impl (fun c => negb (is_space c)) P Hreq).
    rewrite Hc. reflexivity.
  - destruct H as [w1 [w2 [-> [H1 H2]]]].
    apply orb_true_iff in Hreq. destruct Hreq as [Hr | Hr].
    + destruct (IH1 Hr _ _ _ H1) as [c [Hin Hc]].
      exists c. split; [ apply in_or_app; left; exact Hin | exact Hc ].
    + destruct (IH2 Hr _ _ _ H2) as [c [Hin Hc]].
      exists c. split; [ apply in_or_app; right; exact Hin | exact Hc ].
  - apply andb_true_iff in Hreq. destruct Hreq as [Hr1 Hr2].
    destruct H as [H | H]; [ eapply IH1 | eapply IH2 ]; eassumption.
  - destruct min as [ | m ]; [ discriminate | ].
    inversion H; subst.
    match goal with
    | HD : derives r _ ?w1 _ |- _ => destruct (IH Hreq _ _ _ HD) as [c [Hin Hc]]
    end.
    exists c. split; [ apply in_or_app; left; exact Hin | exact Hc ].
Qed.

(** No match of a pattern in a string that has none of the characters one
    of which each of its matches contains. *)
Lemma clean_without (P : ascii -> bool) (q : regex) (t : str) :
  requires_in P q = true ->
  forallb (fun c => negb (P c)) t = true ->
  clean q t.
Proof.
  intros Hreq Hfree pre w post Ht HD.
  destruct (derives_requires_in P q Hreq _ _ _ HD) as [c [Hin Hc]].
  rewrite forallb_forall in Hfree.
  assert (Hc' : negb (P c) = true).
  { apply Hfree. rewrite Ht. apply in_or_app. right. apply in_or_app. left. exact Hin. }
  rewrite Hc in Hc'. discriminate.
Qed.

Lemma library_requires_trigger (kp : str * regex) :
  In kp pattern_library -> requires_in trigger (snd kp) = true.
Proof.
  intros Hin.
  assert (H : forallb (fun kp => requires_in trigger (snd kp)) pattern_library = true)
    by (vm_compute; reflexivity).
  rewrite forallb_forall in H. exact (H kp Hin).
Qed.

(** A string with no decimal digit, no dot and no colon is returned as it
    is: each match of each detector contains one of these. *)
Theorem scrub_str_identity_without_triggers (secret : bytes) (s : str) :
  forallb (fun c => negb (trigger c)) s = true ->
  _scrub_str secret s = s.
Proof.
  intros Hfree. apply scrub_str_fixed. intros kp Hin.
  apply (clean_without trigger); [ | exact Hfree ].
  apply library_requires_trigger. exact Hin.
Qed.

Lemma scrub_str_identity_without_triggers_witness :
  forallb (fun c => negb (trigger c)) (s2l "Funds moved through a shell company") = true /\
  _scrub_str default_secret (s2l "Funds moved through a shell company")
  = s2l "Funds moved through a shell company".
Proof.
  split; [ reflexivity | ].
  apply (scrub_str_identity_without_triggers default_secret). reflexivity.
Defined.

(** ** Counting the characters of a class in a match *)

Lemma count_app (P : ascii -> bool) (u v : str) :
  count P (u ++ v) = (count P u + count P v)%nat.
Proof. unfold count. rewrite filter_app, length_app. reflexivity. Qed.

Lemma count_all (P : ascii -> bool) (w : str) :
  forallb P w = true -> count P w = length w.
Proof.
  unfold count. induction w as [ | c w IH ]; simpl; intros H; [ reflexivity | ].
  apply andb_true_iff in H. destruct H as [Hc Hw]. rewrite Hc. simpl.
  rewrite IH by exact Hw. reflexivity.
Qed.

Lemma at_most_one_spec (P ok : ascii -> bool) (x : ascii) :
  ok x = true ->
  exists k, at_most_one P ok = Some k /\ (count P [x] <= k)%nat.
Proof.
  intros Hok. unfold at_most_one.
  destruct (existsb (fun c => ok c && P c) all_ascii) eqn:E.
  - exists 1%nat. split; [ reflexivity | ].
    unfold count. simpl. destruct (P x); simpl; lia.
  - exists 0%nat. split; [ reflexivity | ].
    assert (HP : P x = false).
    { destruct (P x) eqn:HP; [ | reflexivity ].
      assert (Hex : existsb (fun c => ok c && P c) all_ascii = true).
      { apply existsb_exists. exists x. split; [ apply all_ascii_complete | ].
        rewrite Hok, HP. reflexivity. }
      congruence. }
    unfold count. simpl. rewrite HP. simpl. lia.
Qed.

Section ChainCount.

Variable P : ascii -> bool.
Variable D : option ascii -> str -> option ascii -> Prop.
Variable x : nat.
Hypothesis D_count : forall p w n, D p w n -> (count P w <= x)%nat.

Lemma rep_chain_count (min : nat) (max : option nat) (p n : option ascii) (w : str) :
  rep_chain D min max p w n ->
  (x = 0%nat -> count P w = 0%nat) /\
  (forall m, max = Some m -> (count P w <= m * x)%nat).
Proof.
  induction 1 as [ max p n | min max p n w1 w2 Hm Hne HD HR [IH0 IHm] ].
  - split; [ reflexivity | ]. intros m _. unfold count. simpl. lia.
  - apply D_count in HD. rewrite count_app. split.
    + intros Hx. rewrite (IH0 Hx). lia.
    + intros m ->. destruct m as [ | m' ]; [ congruence | ].
      specialize (IHm m' eq_refl). simpl. lia.
Qed.

End ChainCount.

(** A match of [r] has at most [max_count P r] characters of the class. *)
Lemma derives_max_count (P : ascii -> bool) (r : regex) :
  forall k, max_count P r = Some k ->
  forall p w n, derives r p w n -> (count P w <= k)%nat.
Proof.
  induction r as [ x | x | items | | | | r1 IH1 r2 IH2 | r1 IH1 r2 IH2 | g min max r IH ];
    cbn [max_count derives]; intros k Hk p w n H.
  - subst w. destruct (at_most_one_spec P (Ascii.eqb x) x (Ascii.eqb_refl x))
      as [k' [E Hle]]. congruence.
  - destruct H as [c [-> Hc]].
    destruct (at_most_one_spec P (fun c => Ascii.eqb (lower c) (lower x)) c)
      as [k' [E Hle]]; [ apply Ascii.eqb_eq; exact Hc | congruence ].
  - destruct H as [c [-> Hc]].
    destruct (at_most_one_spec P (in_class items) c Hc) as [k' [E Hle]]. congruence.
  - destruct H as [c [-> Hc]].
    destruct (at_most_one_spec P is_digit c Hc) as [k' [E Hle]]. congruence.
  - destruct H as [c [-> Hc]].
    destruct (at_most_one_spec P (fun c => negb (is_space c)) c) as [k' [E Hle]];
      [ rewrite Hc; reflexivity | congruence ].
  - destruct H as [-> _]. unfold count. simpl. lia.
  - destruct H as [w1 [w2 [-> [H1 H2]]]]. rewrite count_app.
    destruct (max_count P r1) as [k1 | ]; [ | discriminate ].
    destruct (max_count P r2) as [k2 | ]; [ | discriminate ].
    injection Hk as <-.
    specialize (IH1 k1 eq_refl _ _ _ H1). specialize (IH2 k2 eq_refl _ _ _ H2). lia.
  - destruct (max_count P r1) as [k1 | ]; [ | discriminate ].
    destruct (max_count P r2) as [k2 | ]; [ | discriminate ].
    injection Hk as <-.
    destruct H as [H | H];
      [ specialize (IH1 k1 eq_refl _ _ _ H) | specialize (IH2 k2 eq_refl _ _ _ H) ]; lia.
  - destruct (max_count P r) as [x | ]; [ | discriminate ].
    destruct (rep_chain_count P (derives r) x (IH x eq_refl) _ _ _ _ _ H) as [H0 Hm].
    destruct x as [ | x' ].
    + injection Hk as <-. rewrite H0 by reflexivity. lia.
    + destruct max as [m | ]; [ | discriminate ].
      injection Hk as <-. exact (Hm m eq_refl).
Qed.

(** ** Strings of word characters and bounded patterns *)

Lemma wordo_prev_after (p : option ascii) (u : str) :
  u <> [] -> forallb is_word u = true -> wordo (prev_after p u) = true.
Proof.
  intros Hu Hall. destruct (prev_after_in p u Hu) as [c [-> Hin]].
  rewrite forallb_forall in Hall. apply Hall. exact Hin.
Qed.

Lemma wordo_hd_error (u : str) :
  u <> [] -> forallb is_word u = true -> wordo (hd_error u) = true.
Proof.
  destruct u as [ | c u ]; [ congruence | ]. simpl. intros _ H.
  apply andb_true_iff in H. apply H.
Qed.

(** In a run of word characters a pattern between two [\b] matches the
    whole run or nothing. *)
Lemma bounded_window_whole (q : regex) (ds pre w post : str) :
  bounded q ->
  forallb is_word ds = true ->
  ds = pre ++ w ++ post ->
  w <> [] ->
  derives q (prev_after None pre) w (hd_error post) ->
  pre = [] /\ post = [].
Proof.
  intros [Hs He] Hall Hds Hw HD.
  rewrite Hds in Hall. rewrite !forallb_app in Hall.
  apply andb_true_iff in Hall. destruct Hall as [Hpre Hall].
  apply andb_true_iff in Hall. destruct Hall as [Hww Hpost].
  pose proof (derives_starts_wb q Hs _ _ _ HD) as H1.
  pose proof (derives_ends_wb q He _ _ _ HD) as H2.
  rewrite (next_of_nonempty w _ Hw), (wordo_hd_error w Hw Hww) in H1.
  rewrite (prev_after_irrel _ None w Hw), (wordo_prev_after None w Hw Hww) in H2.
  split.
  - destruct pre as [ | c pre ]; [ reflexivity | ].
    rewrite (wordo_prev_after None (c :: pre)) in H1 by (discriminate || exact Hpre).
    discriminate H1.
  - destruct post as [ | c post ]; [ reflexivity | ].
    rewrite (wordo_hd_error (c :: post)) in H2 by (discriminate || exact Hpost).
    discriminate H2.
Qed.

Lemma digits_are_word (ds : str) :
  forallb is_digit ds = true -> forallb is_word ds = true.
Proof.
  intros H. apply forallb_forall. intros c Hc. apply digit_word.
  rewrite forallb_forall in H. apply H. exact Hc.
Qed.

(** A run of digits too short or too long for a bounded pattern holds no
    match of it. *)
Lemma digits_clean_short (q : regex) (ds : str) :
  bounded q -> (1 <= minlen q)%nat ->
  forallb is_digit ds = true ->
  (length ds < minlen q)%nat ->
  clean q ds.
Proof.
  intros Hb Hmin Hd Hlen pre w post Hds HD.
  pose proof (derives_minlen q _ _ _ HD) as Hw.
  assert (Hl : length ds = (length pre + (length w + length post))%nat)
    by (rewrite Hds, !length_app; reflexivity).
  lia.
Qed.

Lemma digits_clean_long (q : regex) (k : nat) (ds : str) :
  bounded q -> (1 <= minlen q)%nat ->
  max_count is_digit q = Some k ->
  forallb is_digit ds = true ->
  (k < length ds)%nat ->
  clean q ds.
Proof.
  intros Hb Hmin Hk Hd Hlen pre w post Hds HD.
  assert (Hw : w <> []) by exact (minlen_nonempty q Hmin _ _ _ HD).
  destruct (bounded_window_whole q ds pre w post Hb (digits_are_word ds Hd) Hds Hw HD)
    as [-> ->].
  simpl in Hds. rewrite app_nil_r in Hds. subst w.
  pose proof (derives_max_count is_digit q k Hk _ _ _ HD) as Hc.
  rewrite (count_all is_digit ds Hd) in Hc. lia.
Qed.

(** ** A pattern that matches the whole string *)

Lemma sub_whole (r : regex) (repl : str -> str) (s : str) (p' : option ascii) :
  nonempty r -> s <> [] ->
  match_here r (None, s) = Some (p', []) ->
  sub r repl s = repl s.
Proof.
  intros Hne Hs Hm. unfold sub. cbn [sub_loop]. rewrite Hm.
  cbn [length]. rewrite Nat.sub_0_r, firstn_all.
  destruct s as [ | c s ]; [ congruence | ].
  cbn [length Nat.ltb Nat.leb]. cbn [sub_loop].
  match goal with
  | |- context [match_here ?a ?b] =>
      destruct (match_here a b) as [[p2 rest2] | ] eqn:E
  end.
  - exfalso. destruct (match_here_some _ _ _ _ _ E) as [m [Hm' [_ HD]]].
    destruct m; [ | discriminate ]. exact (Hne _ _ _ HD eq_refl).
  - apply app_nil_r.
Qed.

Lemma match_whole (q : regex) (ds : str) :
  bounded q -> nonempty q ->
  forallb is_word ds = true ->
  derives q None ds None ->
  exists p', match_here q (None, ds) = Some (p', []).
Proof.
  intros Hb Hne Hall HD.
  destruct (match_here q (None, ds)) as [[p' rest'] | ] eqn:E.
  - destruct (match_here_some _ _ _ _ _ E) as [m [Hm [_ HDm]]].
    destruct (bounded_window_whole q ds [] m rest' Hb Hall Hm (Hne _ _ _ HDm) HDm)
      as [_ ->].
    exists p'. reflexivity.
  - exfalso. apply (match_here_none q None ds []); [ | exact HD ].
    rewrite app_nil_r. exact E.
Qed.

(** ** Runs of digits *)

Section ChainOfChars.

Variable D : option ascii -> str -> option ascii -> Prop.

Lemma rep_chain_chars (min : nat) (max : option nat) (n : option ascii) (x : str) :
  (forall c p' n', In c x -> D p' [c] n') ->
  (min <= length x)%nat -> within max (length x) ->
  forall p, rep_chain D min max p x n.
Proof.
  revert min max. induction x as [ | c x IH ]; intros min max HD Hmin Hmax p.
  - simpl in Hmin. assert (min = 0%nat) by lia. subst. constructor.
  - apply (chain_more D min max p n [c] x).
    + intros ->. simpl in Hmax. lia.
    + discriminate.
    + apply HD. left. reflexivity.
    + apply IH.
      * intros c' p' n' Hin. apply HD. right. exact Hin.
      * simpl in Hmin. lia.
      * destruct max as [ M | ]; simpl in *; [ lia | exact I ].
Qed.

End ChainOfChars.

Lemma bounded_run_derives (item : regex) (g : bool) (min : nat) (max : option nat)
    (ds : str) :
  ds <> [] -> forallb is_word ds = true ->
  rep_chain (derives item) min max None ds None ->
  derives (cat [WordB; Rep g min max item; WordB]) None ds None.
Proof.
  intros Hds Hall Hch. cbn [cat derives].
  exists [], ds. split; [ reflexivity | ]. split.
  - split; [ reflexivity | ].
    rewrite (next_of_nonempty ds None Hds), (wordo_hd_error ds Hds Hall). reflexivity.
  - exists ds, []. split; [ symmetry; apply app_nil_r | ]. split.
    + exact Hch.
    + split; [ reflexivity | ].
      cbn [prev_after fold_left].
      change (fold_left (fun _ c => Some c) ds None) with (prev_after None ds).
      rewrite (wordo_prev_after None ds Hds Hall). reflexivity.
Qed.

Lemma acct_matches_digits (ds : str) :
  forallb is_digit ds = true ->
  (6 <= length ds <= 18)%nat ->
  derives _acct_re None ds None.
Proof.
  intros Hd [Hlo Hhi]. unfold _acct_re, from_to.
  apply bounded_run_derives.
  - destruct ds; [ simpl in Hlo; lia | discriminate ].
  - apply digits_are_word. exact Hd.
  - apply rep_chain_chars; [ | exact Hlo | exact Hhi ].
    intros c p' n' Hin. cbn [derives]. exists c. split; [ reflexivity | ].
    rewrite forallb_forall in Hd. apply Hd. exact Hin.
Qed.

Lemma card_matches_digits (ds : str) :
  forallb is_digit ds = true ->
  (13 <= length ds <= 19)%nat ->
  derives _card_re None ds None.
Proof.
  intros Hd [Hlo Hhi]. unfold _card_re, from_to.
  apply bounded_run_derives.
  - destruct ds; [ simpl in Hlo; lia | discriminate ].
  - apply digits_are_word. exact Hd.
  - apply rep_chain_chars; [ | exact Hlo | exact Hhi ].
    intros c p' n' Hin. cbn [derives].
    exists [c], []. split; [ reflexivity | ]. split.
    + exists c. split; [ reflexivity | ].
      rewrite forallb_forall in Hd. apply Hd. exact Hin.
    + unfold lazy_star. cbn [derives]. constructor.
Qed.

(** ** A token on its own *)

Lemma token_clean (q : regex) (tok : str) :
  nonempty q -> alphabet q "[" = false -> alphabet q "]" = false ->
  token_ok q tok -> clean q tok.
Proof.
  intros Hne Ho Hc [body [Htok Hint]] pre w post Heq HD.
  pose proof (Hne _ _ _ HD) as Hw.
  pose proof (derives_alpha q _ _ _ HD) as Halpha. rewrite Forall_forall in Halpha.
  assert (Hopen : ~ In "["%char w) by (intros Hin; apply Halpha in Hin; congruence).
  assert (Hclose : ~ In "]"%char w) by (intros Hin; apply Halpha in Hin; congruence).
  assert (Ha2 : w ++ post <> []) by (destruct w; [ congruence | discriminate ]).
  rewrite Htok in Heq.
  destruct (window_in_token body [] pre (w ++ post) w post Heq Ha2
              (app_nil_r _) Hw Hopen Hclose) as [b1 [b2 [Hpre [Hbody Hpost]]]].
  apply (Hint b1 w b2 Hbody).
  rewrite Hpre in HD. rewrite Hpost, hd_error_app_next in HD. exact HD.
Qed.

Lemma tag_clean_requires (x : ascii) (q : regex) (secret : bytes) (kind m : str) :
  requires x q = true -> body_char x = false ->
  (1 <= minlen q)%nat -> alphabet q "[" = false -> alphabet q "]" = false ->
  In kind kinds -> clean q (_stable_tag secret kind m).
Proof.
  intros Hreq Hx Hmin Ho Hc Hk.
  apply token_clean; [ apply minlen_nonempty; exact Hmin | exact Ho | exact Hc | ].
  apply (tag_token_ok_requires x); assumption.
Qed.

Lemma tag_clean_url (secret : bytes) (kind m : str) :
  In kind kinds -> clean _url_re (_stable_tag secret kind m).
Proof.
  intros Hk.
  apply (clean_without (fun c => Ascii.eqb (lower c) "h")); [ vm_compute; reflexivity | ].
  destruct (tag_url_token_ok secret kind m Hk) as [_ Hall].
  apply forallb_forall. intros c Hin. rewrite Forall_forall in Hall.
  apply negb_true_iff. apply Ascii.eqb_neq. apply Hall. exact Hin.
Qed.

Lemma tag_clean_acct (secret : bytes) (kind m : str) :
  In kind kinds -> forallb is_digit (tag_digest secret m) = false ->
  clean _acct_re (_stable_tag secret kind m).
Proof.
  intros Hk Hmix.
  apply token_clean;
    [ apply minlen_nonempty; vm_compute; lia
    | vm_compute; reflexivity | vm_compute; reflexivity | ].
  apply tag_token_ok_acct; assumption.
Qed.

(** ** Strings of decimal digits *)

Lemma digits_clean_other (q : regex) (ds : str) :
  requires_in (fun c => negb (is_digit c)) q = true ->
  forallb is_digit ds = true ->
  clean q ds.
Proof.
  intros Hreq Hd. apply (clean_without (fun c => negb (is_digit c))); [ exact Hreq | ].
  apply forallb_forall. intros c Hin. rewrite forallb_forall in Hd.
  rewrite (Hd c Hin). reflexivity.
Qed.

Lemma card_bounded : bounded _card_re.
Proof. split; reflexivity. Qed.

Lemma acct_bounded : bounded _acct_re.
Proof. split; reflexivity. Qed.

Lemma card_nonempty : nonempty _card_re.
Proof. apply minlen_nonempty. vm_compute. lia. Qed.

Lemma acct_nonempty : nonempty _acct_re.
Proof. apply minlen_nonempty. vm_compute. lia. Qed.

Ltac unfold_passes :=
  rewrite scrub_str_upto; unfold scrub_upto, pattern_library;
  cbn [firstn fold_left]; unfold pass; cbn [fst snd].

Ltac skip_pass q :=
  rewrite (sub_clean_identity q);
  [ | apply minlen_nonempty; vm_compute; lia | ].

(** A value of 6 to 12 decimal digits, and nothing else, comes back as one
    ACCT token: the EMAIL, SSN and CARD detectors do not match it, the ACCT
    detector matches all of it, and the detectors after it do not match
    the token. *)
Theorem digit_run_becomes_acct_token (secret : bytes) (ds : str) :
  forallb is_digit ds = true ->
  (6 <= length ds <= 12)%nat ->
  _scrub_str secret ds = _stable_tag secret (s2l "ACCT") ds.
Proof.
  intros Hd [Hlo Hhi]. unfold_passes.
  skip_pass _email_re; [ | apply digits_clean_other; [ vm_compute; reflexivity | exact Hd ] ].
  skip_pass _ssn_re; [ | apply digits_clean_other; [ vm_compute; reflexivity | exact Hd ] ].
  skip_pass _card_re;
    [ | apply digits_clean_short;
        [ exact card_bounded | vm_compute; lia | exact Hd
        | change (minlen _card_re) with 13%nat; lia ] ].
  assert (Hhi' : (length ds <= 18)%nat) by lia.
  destruct (match_whole _acct_re ds acct_bounded acct_nonempty (digits_are_word ds Hd)
              (acct_matches_digits ds Hd (conj Hlo Hhi'))) as [p' Hm].
  rewrite (sub_whole _acct_re _ ds p' acct_nonempty) by
    (exact Hm || (destruct ds; [ simpl in Hlo; lia | discriminate ])).
  assert (Hk : In (s2l "ACCT") kinds) by (simpl; tauto).
  skip_pass _ip_re;
    [ | apply (tag_clean_requires "."); try (vm_compute; reflexivity);
        [ vm_compute; lia | exact Hk ] ].
  skip_pass _url_re; [ | apply tag_clean_url; exact Hk ].
  skip_pass _domain_re;
    [ | apply (tag_clean_requires "."); try (vm_compute; reflexivity);
        [ vm_compute; lia | exact Hk ] ].
  reflexivity.
Qed.

Lemma digit_run_becomes_acct_token_witness :
  forallb is_digit (s2l "123456789") = true /\
  (6 <= length (s2l "123456789") <= 12)%nat /\
  _scrub_str default_secret (s2l "123456789")
  = _stable_tag default_secret (s2l "ACCT") (s2l "123456789").
Proof.
  split; [ reflexivity | ]. split; [ simpl; lia | ].
  apply (digit_run_becomes_acct_token default_secret); [ reflexivity | simpl; lia ].
Defined.

(** A value of 13 to 19 decimal digits, and nothing else, comes back as one
    CARD token when the digest of the token has a letter in it: the CARD
    detector comes before the ACCT detector and takes the run. *)
Theorem digit_run_becomes_card_token (secret : bytes) (ds : str) :
  forallb is_digit ds = true ->
  (13 <= length ds <= 19)%nat ->
  forallb is_digit (tag_digest secret ds) = false ->
  _scrub_str secret ds = _stable_tag secret (s2l "CARD") ds.
Proof.
  intros Hd [Hlo Hhi] Hmix. unfold_passes.
  skip_pass _email_re; [ | apply digits_clean_other; [ vm_compute; reflexivity | exact Hd ] ].
  skip_pass _ssn_re; [ | apply digits_clean_other; [ vm_compute; reflexivity | exact Hd ] ].
  destruct (match_whole _card_re ds card_bounded card_nonempty (digits_are_word ds Hd)
              (card_matches_digits ds Hd (conj Hlo Hhi))) as [p' Hm].
  rewrite (sub_whole _card_re _ ds p' card_nonempty) by
    (exact Hm || (destruct ds; [ simpl in Hlo; lia | discriminate ])).
  assert (Hk : In (s2l "CARD") kinds) by (simpl; tauto).
  skip_pass _acct_re; [ | apply tag_clean_acct; [ exact Hk | exact Hmix ] ].
  skip_pass _ip_re;
    [ | apply (tag_clean_requires "."); try (vm_compute; reflexivity);
        [ vm_compute; lia | exact Hk ] ].
  skip_pass _url_re; [ | apply tag_clean_url; exact Hk ].
  skip_pass _domain_re;
    [ | apply (tag_clean_requires "."); try (vm_compute; reflexivity);
        [ vm_compute; lia | exact Hk ] ].
  reflexivity.
Qed.

Lemma digit_run_becomes_card_token_witness :
  forallb is_digit (s2l "4111111111111111") = true /\
  (13 <= length (s2l "4111111111111111") <= 19)%nat /\
  forallb is_digit (tag_digest default_secret (s2l "4111111111111111")) = false /\
  _scrub_str default_secret (s2l "4111111111111111")
  = _stable_tag default_secret (s2l "CARD") (s2l "4111111111111111").
Proof.
  assert (H : forallb is_digit (tag_digest default_secret (s2l "4111111111111111"))
              = false) by (vm_compute; reflexivity).
  split; [ reflexivity | ]. split; [ simpl; lia | ]. split; [ exact H | ].
  apply (digit_run_becomes_card_token default_secret);
    [ reflexivity | simpl; lia | exact H ].
Defined.

(** A value of fewer than 6 or more than 19 decimal digits, and nothing
    else, is returned as it is: no detector matches it, so a number of 20
    digits or more is not redacted. *)
Theorem digit_run_left_alone (secret : bytes) (ds : str) :
  forallb is_digit ds = true ->
  (length ds < 6 \/ 19 < length ds)%nat ->
  _scrub_str secret ds = ds.
Proof.
  intros Hd Hlen. apply scrub_str_fixed.
  intros kp [<- | [<- | [<- | [<- | [<- | [<- | [<- | []]]]]]]]; cbn [snd];
    try (apply digits_clean_other; [ vm_compute; reflexivity | exact Hd ]).
  - destruct Hlen as [Hshort | Hlong].
    + apply digits_clean_short;
        [ exact card_bounded | vm_compute; lia | exact Hd
        | change (minlen _card_re) with 13%nat; lia ].
    + apply (digits_clean_long _card_re 19);
        [ exact card_bounded | vm_compute; lia | vm_compute; reflexivity
        | exact Hd | exact Hlong ].
  - destruct Hlen as [Hshort | Hlong].
    + apply digits_clean_short;
        [ exact acct_bounded | vm_compute; lia | exact Hd
        | change (minlen _acct_re) with 6%nat; lia ].
    + apply (digits_clean_long _acct_re 18);
        [ exact acct_bounded | vm_compute; lia | vm_compute; reflexivity
        | exact Hd | lia ].
Qed.

Lemma digit_run_left_alone_witness :
  forallb is_digit (s2l "12345678901234567890") = true /\
  (length (s2l "12345678901234567890") < 6 \/
   19 < length (s2l "12345678901234567890"))%nat /\
  _scrub_str default_secret (s2l "12345678901234567890")
  = s2l "12345678901234567890".
Proof.
  split; [ reflexivity | ]. split; [ right; simpl; lia | ].
  apply (digit_run_left_alone default_secret); [ reflexivity | right; simpl; lia ].
Defined.

(** ** A token whose digest the ACCT detector matches *)

Lemma match_here_none_first (q : regex) (p : option ascii) (c : ascii) (tl : str) :
  nonempty q -> alphabet q c = false -> match_here q (p, c :: tl) = None.
Proof.
  intros Hne Hc.
  match goal with
  | |- ?m = None => destruct m as [[p' rest'] | ] eqn:E
  end; [ exfalso | reflexivity ].
  destruct (match_here_some _ _ _ _ _ E) as [m [Hm [_ HD]]].
  pose proof (Hne _ _ _ HD) as Hm0.
  destruct m as [ | c' m ]; [ congruence | ]. injection Hm as <- _.
  apply derives_alpha in HD. inversion HD; subst. congruence.
Qed.

Lemma sub_loop_end (r : regex) (repl : str -> str) (f : nat) (p : option ascii) :
  nonempty r -> sub_loop r repl f p [] = [].
Proof.
  intros Hne. destruct f as [ | f ]; [ reflexivity | ]. cbn [sub_loop].
  match goal with
  | |- context [match_here ?a ?b] =>
      destruct (match_here a b) as [[p' rest'] | ] eqn:E
  end; [ exfalso | reflexivity ].
  destruct (match_here_some _ _ _ _ _ E) as [m [Hm [_ HD]]].
  destruct m; [ | discriminate ]. exact (Hne _ _ _ HD eq_refl).
Qed.

(** The scan copies the characters with which no match begins. *)
Lemma sub_loop_prefix (r : regex) (repl : str -> str) (A : str) :
  nonempty r ->
  forallb (fun c => negb (alphabet r c)) A = true ->
  forall f prev rest,
    sub_loop r repl (length A + f) prev (A ++ rest)
    = A ++ sub_loop r repl f (prev_after prev A) rest.
Proof.
  intros Hne. induction A as [ | c A IH ]; intros HA f prev rest; [ reflexivity | ].
  simpl in HA. apply andb_true_iff in HA. destruct HA as [Hc HA].
  apply negb_true_iff in Hc.
  cbn [length Nat.add app]. cbn [sub_loop].
  match goal with
  | |- context [match_here ?a ?b] =>
      replace (match_here a b) with (@None state)
        by (symmetry; apply match_here_none_first; assumption)
  end.
  f_equal. rewrite (IH HA). reflexivity.
Qed.

Lemma sub_loop_match (r : regex) (repl : str -> str) (f : nat)
    (prev p' : option ascii) (m rest' : str) :
  m <> [] ->
  match_here r (prev, m ++ rest') = Some (p', rest') ->
  sub_loop r repl (S f) prev (m ++ rest') = repl m ++ sub_loop r repl f p' rest'.
Proof.
  intros Hm E. cbn [sub_loop].
  match goal with
  | |- context [match_here ?a ?b] =>
      replace (match_here a b) with (Some (p', rest')) by (symmetry; exact E)
  end.
  rewrite firstn_length_app.
  assert (Hlt : (length rest' <? length (m ++ rest'))%nat = true).
  { apply Nat.ltb_lt. rewrite length_app. destruct m; [ congruence | simpl; lia ]. }
  rewrite Hlt. reflexivity.
Qed.

(** Between two characters that are not word characters, the ACCT
    detector matches a run of 6 to 18 digits, all of it. *)
Lemma acct_matches_run (p : option ascii) (d : str) (c : ascii) (tl : str) :
  wordo p = false -> is_word c = false ->
  forallb is_digit d = true -> (6 <= length d <= 18)%nat ->
  exists p', match_here _acct_re (p, d ++ c :: tl) = Some (p', c :: tl).
Proof.
  intros Hp Hc Hd [Hlo Hhi].
  assert (Hne : d <> []) by (destruct d; [ simpl in Hlo; lia | discriminate ]).
  pose proof (digits_are_word d Hd) as Hw.
  assert (HD : derives _acct_re p d (Some c)).
  { unfold _acct_re, from_to. cbn [cat derives].
    exists [], d. split; [ reflexivity | ]. split.
    - split; [ reflexivity | ].
      rewrite (next_of_nonempty d _ Hne), (wordo_hd_error d Hne Hw), Hp. reflexivity.
    - exists d, []. split; [ symmetry; apply app_nil_r | ]. split.
      + apply rep_chain_chars; [ | exact Hlo | exact Hhi ].
        intros x p' n' Hin. exists x. split; [ reflexivity | ].
        rewrite forallb_forall in Hd. apply Hd. exact Hin.
      + split; [ reflexivity | ].
        change (prev_after (prev_after p []) d) with (prev_after p d).
        rewrite (wordo_prev_after p d Hne Hw). simpl. rewrite Hc. reflexivity. }
  match goal with
  | |- exists p', ?m = _ => destruct m as [[p' rest'] | ] eqn:E
  end.
  - exists p'. f_equal. f_equal.
    destruct (match_here_some _ _ _ _ _ E) as [m [Hm [_ HDm]]].
    pose proof (acct_nonempty _ _ _ HDm) as Hm0.
    pose proof (alphabet_forallb _ _ _ _ HDm) as Halpha.
    pose proof (derives_ends_wb _acct_re (proj2 acct_bounded) _ _ _ HDm) as Hend.
    assert (Hmd : forallb is_digit m = true).
    { apply forallb_forall. intros x Hx. rewrite <- acct_alphabet.
      rewrite forallb_forall in Halpha. apply Halpha. exact Hx. }
    rewrite (wordo_prev_after p m Hm0 (digits_are_word m Hmd)) in Hend.
    apply app_eq_app in Hm. destruct Hm as [l [[H1 H2] | [H1 H2]]].
    + (* the match ends inside the run *)
      destruct l as [ | y l ].
      * simpl in H2. exact H2.
      * exfalso. rewrite H2 in Hend. simpl in Hend.
        assert (Hy : is_digit y = true).
        { rewrite forallb_forall in Hd. apply Hd. rewrite H1.
          apply in_or_app. right. left. reflexivity. }
        rewrite (digit_word y Hy) in Hend. discriminate Hend.
    + (* the match goes on behind the run *)
      destruct l as [ | y l ].
      * simpl in H2. symmetry. exact H2.
      * exfalso. injection H2 as <- _.
        assert (Hy : is_digit c = true).
        { rewrite forallb_forall in Hmd. apply Hmd. rewrite H1.
          apply in_or_app. right. left. reflexivity. }
        apply digit_word in Hy. congruence.
  - exfalso. exact (match_here_none _ _ _ _ E HD).
Qed.

(** The ACCT pass on a token of six decimal digits rewrites the digits. *)
Lemma acct_pass_on_decimal_token (repl : str -> str) (kind d : str) :
  In kind kinds ->
  forallb is_digit d = true -> length d = 6%nat ->
  sub _acct_re repl ("["%char :: (kind ++ ":"%char :: d) ++ ["]"%char])
  = "["%char :: (kind ++ [":"%char]) ++ repl d ++ ["]"%char].
Proof.
  intros Hk Hd Hlen. unfold sub.
  assert (Hpre : forallb (fun c => negb (alphabet _acct_re c))
                         ("["%char :: kind ++ [":"%char]) = true).
  { apply forallb_forall. intros c Hin. rewrite acct_alphabet.
    destruct Hin as [<- | Hin]; [ reflexivity | ].
    apply kind_char_not_digit. apply in_app_or in Hin.
    destruct Hin as [Hin | [<- | []]].
    - pose proof (kinds_chars kind Hk) as Hkc. rewrite forallb_forall in Hkc.
      rewrite (Hkc c Hin). reflexivity.
    - apply orb_true_r. }
  replace ("["%char :: (kind ++ ":"%char :: d) ++ ["]"%char])
    with (("["%char :: kind ++ [":"%char]) ++ d ++ ["]"%char])
    by (simpl; rewrite <- !app_assoc; reflexivity).
  replace (S (length (("["%char :: kind ++ [":"%char]) ++ d ++ ["]"%char])))
    with (length ("["%char :: kind ++ [":"%char]) + S (S (length d)))%nat
    by (rewrite !length_app; cbn [length]; lia).
  rewrite (sub_loop_prefix _acct_re repl _ acct_nonempty Hpre).
  assert (Hprev : prev_after None ("["%char :: kind ++ [":"%char]) = Some ":"%char).
  { rewrite app_comm_cons. apply prev_after_snoc. }
  rewrite Hprev.
  destruct (acct_matches_run (Some ":"%char) d "]"%char [] eq_refl eq_refl Hd
              ltac:(lia)) as [p' Hm].
  rewrite (sub_loop_match _acct_re repl _ _ p' d ["]"%char]) by
    (exact Hm || (destruct d; [ discriminate Hlen | discriminate ])).
  cbn [sub_loop].
  match goal with
  | |- context [match_here ?a ?b] =>
      replace (match_here a b) with (@None state)
        by (symmetry; apply match_here_none_first;
            [ exact acct_nonempty | reflexivity ])
  end.
  rewrite (sub_loop_end _acct_re repl _ _ acct_nonempty).
  simpl. rewrite <- !app_assoc. reflexivity.
Qed.

Lemma stable_tag_chars (secret : bytes) (kind m : str) :
  In kind kinds -> forallb token_char (_stable_tag secret kind m) = true.
Proof.
  intros Hk. rewrite stable_tag_shape.
  pose proof (token_body_chars kind _ Hk (tag_digest_lower secret m)) as Hbody.
  unfold token_char. apply forallb_forall. intros c Hin.
  destruct Hin as [<- | Hin]; [ reflexivity | ].
  apply in_app_or in Hin. destruct Hin as [Hin | [<- | []]]; [ | reflexivity ].
  rewrite forallb_forall in Hbody. rewrite (Hbody c Hin). reflexivity.
Qed.

(** The IP, URL and DOMAIN detectors match nothing in a text made of
    token characters. *)
Lemma token_chars_clean (q : regex) (t : str) :
  requires_in (fun c => negb (token_char c)) q = true ->
  forallb token_char t = true ->
  clean q t.
Proof.
  intros Hreq Ht. apply (clean_without (fun c => negb (token_char c))); [ exact Hreq | ].
  apply forallb_forall. intros c Hin. rewrite forallb_forall in Ht.
  rewrite (Ht c Hin). reflexivity.
Qed.

(** A value of 13 to 19 decimal digits whose CARD token has a digest of
    decimal digits only does not come back as that token: the ACCT pass,
    which runs after the CARD pass, matches the six digits between the
    colon and the bracket and puts an ACCT token in their place. *)
Theorem digit_run_card_token_is_rewritten (secret : bytes) (ds : str) :
  forallb is_digit ds = true ->
  (13 <= length ds <= 19)%nat ->
  forallb is_digit (tag_digest secret ds) = true ->
  _scrub_str secret ds
  = s2l "[CARD:" ++ _stable_tag secret (s2l "ACCT") (tag_digest secret ds) ++ s2l "]".
Proof.
  intros Hd [Hlo Hhi] Hdec. unfold_passes.
  skip_pass _email_re; [ | apply digits_clean_other; [ vm_compute; reflexivity | exact Hd ] ].
  skip_pass _ssn_re; [ | apply digits_clean_other; [ vm_compute; reflexivity | exact Hd ] ].
  destruct (match_whole _card_re ds card_bounded card_nonempty (digits_are_word ds Hd)
              (card_matches_digits ds Hd (conj Hlo Hhi))) as [p' Hm].
  rewrite (sub_whole _card_re _ ds p' card_nonempty) by
    (exact Hm || (destruct ds; [ simpl in Hlo; lia | discriminate ])).
  rewrite (stable_tag_shape secret (s2l "CARD") ds).
  rewrite (acct_pass_on_decimal_token _ (s2l "CARD") (tag_digest secret ds))
    by (exact Hdec || apply tag_digest_length || (simpl; tauto)).
  assert (Hchars : forallb token_char
            ("["%char :: (s2l "CARD" ++ [":"%char])
             ++ _stable_tag secret (s2l "ACCT") (tag_digest secret ds) ++ ["]"%char])
            = true).
  { change ("["%char :: (s2l "CARD" ++ [":"%char]) ++
            _stable_tag secret (s2l "ACCT") (tag_digest secret ds) ++ ["]"%char])
      with (s2l "[CARD:" ++ _stable_tag secret (s2l "ACCT") (tag_digest secret ds)
            ++ ["]"%char]).
    rewrite !forallb_app. rewrite stable_tag_chars by (simpl; tauto). reflexivity. }
  skip_pass _ip_re; [ | apply token_chars_clean; [ vm_compute; reflexivity | exact Hchars ] ].
  skip_pass _url_re; [ | apply token_chars_clean; [ vm_compute; reflexivity | exact Hchars ] ].
  skip_pass _domain_re;
    [ | apply token_chars_clean; [ vm_compute; reflexivity | exact Hchars ] ].
  reflexivity.
Qed.

Lemma digit_run_card_token_is_rewritten_witness :
  forallb is_digit (s2l "4111111111111113") = true /\
  (13 <= length (s2l "4111111111111113") <= 19)%nat /\
  forallb is_digit (tag_digest default_secret (s2l "4111111111111113")) = true /\
  _scrub_str default_secret (s2l "4111111111111113")
  = s2l "[CARD:"
    ++ _stable_tag default_secret (s2l "ACCT")
         (tag_digest default_secret (s2l "4111111111111113"))
    ++ s2l "]".
Proof.
  assert (H : forallb is_digit (tag_digest default_secret (s2l "4111111111111113"))
              = true) by (vm_compute; reflexivity).
  split; [ reflexivity | ]. split; [ simpl; lia | ]. split; [ exact H | ].
  apply (digit_run_card_token_is_rewritten default_secret);
    [ reflexivity | simpl; lia | exact H ].
Defined.

(** ** The allowlist as a filter *)

Lemma dict_get_In {V : Type} (d : list (str * V)) (k : str) (v : V) :
  distinct (keys d) = true -> In (k, v) d -> dict_get d k = Some v.
Proof.
  induction d as [ | [k0 v0] d IH ]; simpl; intros Hd Hin; [ destruct Hin | ].
  apply andb_true_iff in Hd. destruct Hd as [Hk0 Hd].
  destruct Hin as [[= -> ->] | Hin].
  - rewrite str_eqb_refl. reflexivity.
  - destruct (str_eqb k0 k) eqn:E; [ | exact (IH Hd Hin) ].
    exfalso. apply str_eqb_eq in E. subst k0.
    apply negb_true_iff in Hk0. apply str_in_not_In in Hk0. apply Hk0.
    unfold keys. apply (in_map fst _ _ Hin).
Qed.

Lemma allowlist_items_filter (d l : dict) :
  (forall k v, In (k, v) l -> dict_get d k = Some v) ->
  flat_map (fun k =>
              if str_in k ALLOWED_FIELDS
              then match dict_get d k with Some v => [(k, v)] | None => [] end
              else [])
           (keys l)
  = filter allowed l.
Proof.
  induction l as [ | [k v] l IH ]; intros Hl; [ reflexivity | ].
  cbn [keys map flat_map filter fst]. unfold allowed at 1. cbn [fst].
  rewrite (Hl k v (or_introl eq_refl)).
  fold (keys l). rewrite IH by (intros k' v' Hin; apply Hl; right; exact Hin).
  destruct (str_in k ALLOWED_FIELDS); reflexivity.
Qed.

Lemma keys_filter_allowed (d : dict) :
  keys (filter allowed d) = filter (fun k => str_in k ALLOWED_FIELDS) (keys d).
Proof.
  induction d as [ | [k v] d IH ]; [ reflexivity | ].
  cbn [filter keys map fst]. unfold allowed at 1. cbn [fst].
  destruct (str_in k ALLOWED_FIELDS); cbn [keys map fst]; fold (keys d);
    fold (keys (filter allowed d)); rewrite IH; reflexivity.
Qed.

Lemma distinct_filter_allowed (d : dict) :
  distinct (keys d) = true -> distinct (keys (filter allowed d)) = true.
Proof.
  intros Hd. rewrite keys_filter_allowed. apply distinct_NoDup.
  apply NoDup_filter. apply distinct_NoDup. exact Hd.
Qed.

(** The filter keeps the items of [d] whose key is in [ALLOWED_FIELDS], in
    the order [d] has them and with the values [d] holds; every other item
    is dropped.  The keys are compared as they are: a key that differs in
    case from an allowed one is dropped. *)
Theorem allowlist_keeps_allowed_items_in_order (d : dict) :
  distinct (keys d) = true ->
  allowlist d = filter allowed d.
Proof.
  intros Hd. unfold allowlist.
  rewrite (allowlist_items_filter d d) by (intros k v; apply dict_get_In; exact Hd).
  apply dict_of_items_distinct. apply distinct_filter_allowed. exact Hd.
Qed.

Lemma allowlist_keeps_allowed_items_in_order_witness :
  distinct (keys sample_request) = true /\
  allowlist sample_request = filter allowed sample_request /\
  keys (allowlist sample_request) = map s2l [ "case_id"; "summary"; "amount_usd" ]%string.
Proof.
  split; [ reflexivity | ]. split.
  - apply allowlist_keeps_allowed_items_in_order. reflexivity.
  - reflexivity.
Defined.

Lemma filter_idem {A : Type} (f : A -> bool) (l : list A) :
  filter f (filter f l) = filter f l.
Proof.
  induction l as [ | a l IH ]; [ reflexivity | ]. simpl.
  destruct (f a) eqn:E; simpl; [ rewrite E, IH | rewrite IH ]; reflexivity.
Qed.

(** Filtering a second time changes nothing. *)
Theorem allowlist_idempotent (d : dict) :
  distinct (keys d) = true ->
  allowlist (allowlist d) = allowlist d.
Proof.
  intros Hd. rewrite (allowlist_keeps_allowed_items_in_order d Hd).
  rewrite allowlist_keeps_allowed_items_in_order
    by (apply distinct_filter_allowed; exact Hd).
  apply filter_idem.
Qed.

Lemma allowlist_idempotent_witness :
  distinct (keys sample_request) = true /\
  allowlist (allowlist sample_request) = allowlist sample_request.
Proof.
  split; [ reflexivity | apply allowlist_idempotent; reflexivity ].
Defined.

(** ** The walker on the string leaves *)

Lemma flat_map_map {A B C : Type} (f : A -> B) (g : B -> list C) (l : list A) :
  flat_map g (map f l) = flat_map (fun x => g (f x)) l.
Proof.
  induction l as [ | a l IH ]; simpl; [ reflexivity | rewrite IH; reflexivity ].
Qed.

Lemma map_flat_map {A B C : Type} (f : B -> C) (g : A -> list B) (l : list A) :
  map f (flat_map g l) = flat_map (fun x => map f (g x)) l.
Proof.
  induction l as [ | a l IH ]; simpl; [ reflexivity | ].
  rewrite map_app, IH. reflexivity.
Qed.

Lemma flat_map_ext_in {A B : Type} (f g : A -> list B) (l : list A) :
  (forall x, In x l -> f x = g x) -> flat_map f l = flat_map g l.
Proof.
  induction l as [ | a l IH ]; simpl; intros H; [ reflexivity | ].
  rewrite (H a (or_introl eq_refl)), IH by (intros x Hx; apply H; right; exact Hx).
  reflexivity.
Qed.

(** The walker rewrites the string leaves and nothing else: the string
    values of [scrub(v)] are the scrubbed string values of [v], one for
    one and in the same order. *)
Theorem scrub_rewrites_every_string_leaf (secret : bytes) (v : json) :
  well_formed v = true ->
  leaves (scrub secret v) = map (_scrub_str secret) (leaves v).
Proof.
  induction v as [ | b | z | r | s | l IH | d IH ] using json_induction;
    intros Hwf; try reflexivity.
  - cbn [scrub leaves]. rewrite flat_map_map, map_flat_map.
    apply flat_map_ext_in. intros x Hx.
    rewrite Forall_forall in IH. apply IH; [ exact Hx | ].
    simpl in Hwf. rewrite forallb_forall in Hwf. apply Hwf. exact Hx.
  - simpl in Hwf. apply andb_true_iff in Hwf. destruct Hwf as [Hd Hvs].
    cbn [scrub leaves].
    rewrite dict_of_items_distinct
      by (rewrite (keys_map_values (fun kv => scrub secret (snd kv))); exact Hd).
    rewrite flat_map_map, map_flat_map. cbn [snd].
    apply flat_map_ext_in. intros kv Hkv.
    rewrite Forall_forall in IH. apply IH; [ exact Hkv | ].
    rewrite forallb_forall in Hvs. apply Hvs. exact Hkv.
Qed.

Lemma scrub_rewrites_every_string_leaf_witness :
  well_formed sample_record = true /\
  leaves (scrub default_secret sample_record)
  = map (_scrub_str default_secret) (leaves sample_record) /\
  leaves sample_record
  = map s2l [ "C-1"; "Contact ceo@bank.com"; "login from 10.0.0.4" ]%string.
Proof.
  split; [ reflexivity | ]. split.
  - apply scrub_rewrites_every_string_leaf. reflexivity.
  - reflexivity.
Defined.

(** In the tree the walker returns, no string value holds a match of the
    EMAIL, SSN, CARD, IP, URL or DOMAIN detector. *)
Theorem scrubbed_leaves_have_no_text_detector_match (secret : bytes) (v : json) :
  well_formed v = true ->
  Forall (fun t => Forall (fun q => search q t = None) text_detectors)
         (leaves (scrub secret v)).
Proof.
  intros Hwf. rewrite (scrub_rewrites_every_string_leaf secret v Hwf).
  apply Forall_forall. intros t Hin. apply in_map_iff in Hin.
  destruct Hin as [s [<- _]].
  apply Forall_forall. intros q Hq.
  apply clean_search. apply text_detectors_clean. exact Hq.
Qed.

Lemma scrubbed_leaves_have_no_text_detector_match_witness :
  well_formed sample_record = true /\
  Forall (fun t => Forall (fun q => search q t = None) text_detectors)
         (leaves (scrub default_secret sample_record)).
Proof.
  split; [ reflexivity | ].
  apply scrubbed_leaves_have_no_text_detector_match. reflexivity.
Defined.

(** ** The payload *)

Lemma scrub_dict_eq (secret : bytes) (d : dict) :
  distinct (keys d) = true ->
  scrub secret (JDict d) = JDict (map (fun kv => (fst kv, scrub secret (snd kv))) d).
Proof.
  intros Hd. cbn [scrub]. f_equal. apply dict_of_items_distinct.
  rewrite (keys_map_values (fun kv => scrub secret (snd kv))). exact Hd.
Qed.

(** The payload of a record is the compact dump of its allowed items, in
    their order, each value scrubbed; the same text results when the
    record is handed over as JSON text that parses to it. *)
Theorem make_safe_payload_of_record (json_loads : str -> result json)
    (secret : bytes) (d : dict) :
  distinct (keys d) = true ->
  let payload :=
    Dumps.compact
      (JDict (map (fun kv => (fst kv, scrub secret (snd kv))) (filter allowed d))) in
  make_safe_payload json_loads secret (JDict d) = Ok payload /\
  forall text,
    json_loads text = Ok (JDict d) ->
    make_safe_payload json_loads secret (JStr text) = Ok payload.
Proof.
  intros Hd payload.
  assert (H : Ok (Dumps.compact (scrub secret (JDict (allowlist d)))) = Ok payload).
  { rewrite (allowlist_keeps_allowed_items_in_order d Hd).
    rewrite scrub_dict_eq by (apply distinct_filter_allowed; exact Hd).
    reflexivity. }
  split.
  - exact H.
  - intros text Hl. unfold make_safe_payload. rewrite Hl. exact H.
Qed.

Lemma make_safe_payload_of_record_witness :
  distinct (keys sample_request) = true /\
  make_safe_payload (fun _ => Raise JSONDecodeError) default_secret (JDict sample_request)
  = Ok (Dumps.compact
          (JDict (map (fun kv => (fst kv, scrub default_secret (snd kv)))
                      (filter allowed sample_request)))).
Proof.
  split; [ reflexivity | ].
  exact (proj1 (make_safe_payload_of_record (fun _ => Raise JSONDecodeError)
                  default_secret sample_request eq_refl)).
Defined.

(** Anything that is not a record gives the payload of the empty record:
    a list, a number, a boolean or [None] handed over as it is, and JSON
    text that parses to anything but a mapping. *)
Theorem make_safe_payload_of_non_record (json_loads : str -> result json)
    (secret : bytes) (v : json) :
  is_dict v = false ->
  (forall text, json_loads text = Ok v ->
     make_safe_payload json_loads secret (JStr text) = Ok (s2l "{}")) /\
  ((forall text, v <> JStr text) ->
     make_safe_payload json_loads secret v = Ok (s2l "{}")).
Proof.
  intros Hv. split.
  - intros text Hl. unfold make_safe_payload. rewrite Hl.
    destruct v; try reflexivity. discriminate Hv.
  - intros Hstr. destruct v; try reflexivity.
    + exfalso. exact (Hstr s eq_refl).
    + discriminate Hv.
Qed.

Lemma make_safe_payload_of_non_record_witness :
  is_dict (JList [JInt 1; JStr (s2l "a@b.com")]) = false /\
  make_safe_payload (fun _ => Raise JSONDecodeError) default_secret
    (JList [JInt 1; JStr (s2l "a@b.com")]) = Ok (s2l "{}").
Proof.
  split; [ reflexivity | ].
  apply (make_safe_payload_of_non_record (fun _ => Raise JSONDecodeError)
           default_secret (JList [JInt 1; JStr (s2l "a@b.com")]) eq_refl).
  intros text. discriminate.
Defined.

Lemma filter_none {A : Type} (f : A -> bool) (l : list A) :
  (forall x, In x l -> f x = false) -> filter f l = [].
Proof.
  induction l as [ | a l IH ]; intros H; [ reflexivity | ]. simpl.
  rewrite (H a (or_introl eq_refl)). apply IH. intros x Hx. apply H. right. exact Hx.
Qed.

(** A record none of whose keys is an allowed field gives the payload of
    the empty record: the fields are dropped without an error. *)
Theorem make_safe_payload_without_allowed_fields (json_loads : str -> result json)
    (secret : bytes) (d : dict) :
  distinct (keys d) = true ->
  (forall k, In k (keys d) -> str_in k ALLOWED_FIELDS = false) ->
  make_safe_payload json_loads secret (JDict d) = Ok (s2l "{}").
Proof.
  intros Hd Hnone.
  rewrite (proj1 (make_safe_payload_of_record json_loads secret d Hd)).
  rewrite (filter_none allowed d); [ reflexivity | ].
  intros [k v] Hin. unfold allowed. cbn [fst]. apply Hnone.
  unfold keys. apply (in_map fst _ _ Hin).
Qed.

Lemma make_safe_payload_without_allowed_fields_witness :
  distinct (keys [ (s2l "ssn", JStr (s2l "123-45-6789"));
                   (s2l "Case_ID", JStr (s2l "C-7")) ]) = true /\
  make_safe_payload (fun _ => Raise JSONDecodeError) default_secret
    (JDict [ (s2l "ssn", JStr (s2l "123-45-6789"));
             (s2l "Case_ID", JStr (s2l "C-7")) ]) = Ok (s2l "{}").
Proof.
  split; [ reflexivity | ].
  apply (make_safe_payload_without_allowed_fields (fun _ => Raise JSONDecodeError)
           default_secret); [ reflexivity | ].
  intros k [<- | [<- | []]]; reflexivity.
Defined.

(** ** More on the key-based redaction *)

Lemma redact_well_formed (v : json) :
  well_formed v = true -> well_formed (Azure.redact v) = true.
Proof.
  induction v as [ | b | z | r | s | l IH | d IH ] using json_induction;
    intros Hwf; try reflexivity.
  - cbn [Azure.redact well_formed]. rewrite forallb_forall. intros y Hy.
    apply in_map_iff in Hy. destruct Hy as [x [<- Hx]].
    rewrite Forall_forall in IH. apply IH; [ exact Hx | ].
    simpl in Hwf. rewrite forallb_forall in Hwf. apply Hwf. exact Hx.
  - pose proof Hwf as Hwf0.
    simpl in Hwf. apply andb_true_iff in Hwf. destruct Hwf as [Hd Hvs].
    rewrite redact_dict_eq by exact Hd. cbn [well_formed].
    rewrite (keys_map_values (fun kv => if sensitive (fst kv) then placeholder (fst kv)
                                        else Azure.redact (snd kv))).
    rewrite Hd. cbn [andb]. rewrite forallb_forall. intros y Hy.
    apply in_map_iff in Hy. destruct Hy as [kv [<- Hkv]]. cbn [snd].
    destruct (sensitive (fst kv)); [ reflexivity | ].
    rewrite Forall_forall in IH. apply IH; [ exact Hkv | ].
    rewrite forallb_forall in Hvs. apply Hvs. exact Hkv.
Qed.

(** Redacting a second time changes nothing: a placeholder is replaced by
    itself. *)
Theorem redact_idempotent (v : json) :
  well_formed v = true ->
  Azure.redact (Azure.redact v) = Azure.redact v.
Proof.
  induction v as [ | b | z | r | s | l IH | d IH ] using json_induction;
    intros Hwf; try reflexivity.
  - cbn [Azure.redact]. f_equal. rewrite map_map. apply map_ext_in. intros x Hx.
    rewrite Forall_forall in IH. apply IH; [ exact Hx | ].
    simpl in Hwf. rewrite forallb_forall in Hwf. apply Hwf. exact Hx.
  - simpl in Hwf. apply andb_true_iff in Hwf. destruct Hwf as [Hd Hvs].
    rewrite (redact_dict_eq d Hd).
    rewrite redact_dict_eq
      by (rewrite (keys_map_values
                     (fun kv => if sensitive (fst kv) then placeholder (fst kv)
                                else Azure.redact (snd kv))); exact Hd).
    f_equal. rewrite map_map. apply map_ext_in. intros kv Hkv. cbn [fst snd].
    f_equal. destruct (sensitive (fst kv)); [ reflexivity | ].
    rewrite Forall_forall in IH. apply IH; [ exact Hkv | ].
    rewrite forallb_forall in Hvs. apply Hvs. exact Hkv.
Qed.

Lemma redact_idempotent_witness :
  well_formed sample_nested_transaction = true /\
  Azure.redact (Azure.redact sample_nested_transaction)
  = Azure.redact sample_nested_transaction.
Proof.
  split; [ reflexivity | apply redact_idempotent; reflexivity ].
Defined.

(** After the redaction a sensitive key holds its placeholder wherever it
    stands in the tree: in the top mapping, in a nested mapping, in a
    mapping inside a list. *)
Theorem redact_reaches_every_depth (v : json) :
  well_formed v = true ->
  redacted (Azure.redact v) = true.
Proof.
  induction v as [ | b | z | r | s | l IH | d IH ] using json_induction;
    intros Hwf; try reflexivity.
  - cbn [Azure.redact redacted]. rewrite forallb_forall. intros y Hy.
    apply in_map_iff in Hy. destruct Hy as [x [<- Hx]].
    rewrite Forall_forall in IH. apply IH; [ exact Hx | ].
    simpl in Hwf. rewrite forallb_forall in Hwf. apply Hwf. exact Hx.
  - simpl in Hwf. apply andb_true_iff in Hwf. destruct Hwf as [Hd Hvs].
    rewrite (redact_dict_eq d Hd). cbn [redacted].
    rewrite forallb_forall. intros y Hy.
    apply in_map_iff in Hy. destruct Hy as [kv [<- Hkv]]. cbn [fst snd].
    destruct (sensitive (fst kv)).
    + unfold placeholder, is_placeholder. apply str_eqb_refl.
    + rewrite Forall_forall in IH. apply IH; [ exact Hkv | ].
      rewrite forallb_forall in Hvs. apply Hvs. exact Hkv.
Qed.

Lemma redact_reaches_every_depth_witness :
  well_formed sample_nested_transaction = true /\
  redacted sample_nested_transaction = false /\
  redacted (Azure.redact sample_nested_transaction) = true.
Proof.
  split; [ reflexivity | ]. split; [ reflexivity | ].
  apply redact_reaches_every_depth. reflexivity.
Defined.

(** Free text with an e-mail address and a card number in it, under keys
    that are not sensitive. *)
Lemma redact_identity_without_sensitive_keys_witness :
  well_formed sample_free_text = true /\
  no_sensitive_key sample_free_text = true /\
  Azure.redact sample_free_text = sample_free_text.
Proof.
  split; [ reflexivity | ]. split; [ reflexivity | ].
  apply redact_identity_without_sensitive_keys; reflexivity.
Defined.

(** ** The text helpers of the handler *)

Lemma in_replace_char (old : ascii) (new s : str) (c : ascii) :
  In c (replace_char old new s) -> (c <> old /\ In c s) \/ In c new.
Proof.
  unfold replace_char. rewrite in_flat_map. intros [x [Hx Hin]].
  destruct (Ascii.eqb x old) eqn:E.
  - right. exact Hin.
  - left. destruct Hin as [<- | []]. split; [ | exact Hx ].
    apply Ascii.eqb_neq. exact E.
Qed.

Lemma replace_char_absent (old : ascii) (new s : str) :
  ~ In old s -> replace_char old new s = s.
Proof.
  unfold replace_char. induction s as [ | c s IH ]; intros Hn; [ reflexivity | ].
  cbn [flat_map].
  destruct (Ascii.eqb c old) eqn:E.
  - exfalso. apply Hn. left. apply Ascii.eqb_eq. exact E.
  - rewrite IH by (intros Hin; apply Hn; right; exact Hin). reflexivity.
Qed.

Lemma forallb_replace_char (P : ascii -> bool) (old : ascii) (new s : str) :
  forallb P (replace_char old new s)
  = forallb (fun c => if Ascii.eqb c old then forallb P new else P c) s.
Proof.
  unfold replace_char. induction s as [ | c s IH ]; [ reflexivity | ].
  cbn [flat_map forallb]. rewrite forallb_app, IH.
  destruct (Ascii.eqb c old); [ reflexivity | ].
  cbn [forallb]. rewrite andb_true_r. reflexivity.
Qed.

(** [lstrip] cuts a prefix of white space. *)
Lemma lstrip_split (s : str) :
  exists pre, s = pre ++ lstrip s /\ forallb is_space pre = true.
Proof.
  induction s as [ | c s [pre [IH Hpre]] ].
  - exists []. split; reflexivity.
  - cbn [lstrip]. destruct (is_space c) eqn:E.
    + exists (c :: pre). split.
      * simpl. f_equal. exact IH.
      * simpl. rewrite E. exact Hpre.
    + exists []. split; reflexivity.
Qed.

Lemma lstrip_hd (s : str) (c : ascii) :
  hd_error (lstrip s) = Some c -> is_space c = false.
Proof.
  induction s as [ | x s IH ]; [ discriminate | ].
  cbn [lstrip]. destruct (is_space x) eqn:E; [ exact IH | ].
  intros [= <-]. exact E.
Qed.

Lemma lstrip_fixed (s : str) :
  (forall c, hd_error s = Some c -> is_space c = false) -> lstrip s = s.
Proof.
  destruct s as [ | c s ]; [ reflexivity | ]. intros H. cbn [lstrip].
  rewrite (H c eq_refl). reflexivity.
Qed.

Lemma lstrip_nil (s : str) : lstrip s = [] <-> forallb is_space s = true.
Proof.
  induction s as [ | c s IH ]; [ split; reflexivity | ].
  cbn [lstrip forallb]. destruct (is_space c); [ exact IH | ].
  split; discriminate.
Qed.

(** [rstrip] cuts a suffix of white space. *)
Lemma rstrip_split (s : str) :
  exists post, s = rstrip s ++ post /\ forallb is_space post = true.
Proof.
  unfold rstrip. destruct (lstrip_split (rev s)) as [pre [H Hpre]].
  exists (rev pre). split.
  - rewrite <- rev_app_distr, <- H, rev_involutive. reflexivity.
  - rewrite forallb_forall in *. intros c Hc. apply Hpre. apply in_rev. exact Hc.
Qed.

Lemma rstrip_nil (s : str) : rstrip s = [] <-> forallb is_space s = true.
Proof.
  unfold rstrip. split.
  - intros H. assert (Hl : lstrip (rev s) = []).
    { rewrite <- (rev_involutive (lstrip (rev s))), H. reflexivity. }
    apply lstrip_nil in Hl. rewrite forallb_forall in *.
    intros c Hc. apply Hl. apply in_rev in Hc. exact Hc.
  - intros H. assert (Hl : lstrip (rev s) = []).
    { apply lstrip_nil. rewrite forallb_forall in *.
      intros c Hc. apply H. apply in_rev. exact Hc. }
    rewrite Hl. reflexivity.
Qed.

Lemma strip_nil (s : str) : strip s = [] <-> forallb is_space s = true.
Proof.
  unfold strip. rewrite rstrip_nil.
  destruct (lstrip_split s) as [pre [H Hpre]].
  split.
  - intros Hl. rewrite H, forallb_app, Hpre, Hl. reflexivity.
  - intros Hs. rewrite H, forallb_app in Hs. apply andb_true_iff in Hs. apply Hs.
Qed.

Lemma in_strip (s : str) (c : ascii) : In c (strip s) -> In c s.
Proof.
  unfold strip. intros Hin.
  destruct (rstrip_split (lstrip s)) as [post [H _]].
  destruct (lstrip_split s) as [pre [H' _]].
  rewrite H'. apply in_or_app. right. rewrite H. apply in_or_app. left. exact Hin.
Qed.

Lemma strip_first (s : str) (c : ascii) :
  hd_error (strip s) = Some c -> is_space c = false.
Proof.
  unfold strip. intros Hc.
  destruct (rstrip_split (lstrip s)) as [post [H _]].
  apply (lstrip_hd s). rewrite H.
  destruct (rstrip (lstrip s)) as [ | x r ]; [ discriminate | exact Hc ].
Qed.

Lemma strip_last (s : str) (c : ascii) :
  hd_error (rev (strip s)) = Some c -> is_space c = false.
Proof.
  unfold strip, rstrip. rewrite rev_involutive. apply lstrip_hd.
Qed.

Lemma strip_fixed (s : str) :
  (forall c, hd_error s = Some c -> is_space c = false) ->
  (forall c, hd_error (rev s) = Some c -> is_space c = false) ->
  strip s = s.
Proof.
  intros Hfirst Hlast. unfold strip, rstrip.
  rewrite (lstrip_fixed s Hfirst), (lstrip_fixed (rev s) Hlast).
  apply rev_involutive.
Qed.

Lemma forallb_pointwise {A : Type} (f g : A -> bool) (l : list A) :
  (forall x, f x = g x) -> forallb f l = forallb g l.
Proof.
  intros H. induction l as [ | a l IH ]; [ reflexivity | ].
  cbn [forallb]. rewrite H, IH. reflexivity.
Qed.

(** The normalized text has no line feed and no asterisk in it, and
    neither begins nor ends with white space. *)
Theorem normalize_gives_one_trimmed_line (text : str) :
  ~ In (chr 10) (_normalize text) /\
  ~ In "*"%char (_normalize text) /\
  (forall c, hd_error (_normalize text) = Some c -> is_space c = false) /\
  (forall c, hd_error (rev (_normalize text)) = Some c -> is_space c = false).
Proof.
  unfold _normalize. repeat split.
  - intros Hin. apply in_strip in Hin.
    apply in_replace_char in Hin. destruct Hin as [[_ Hin] | []].
    apply in_replace_char in Hin. destruct Hin as [[Hne _] | Hin].
    + apply Hne. reflexivity.
    + destruct Hin as [H | []]. discriminate H.
  - intros Hin. apply in_strip in Hin.
    apply in_replace_char in Hin. destruct Hin as [[Hne _] | []].
    apply Hne. reflexivity.
  - apply strip_first.
  - apply strip_last.
Qed.

(** Normalizing a second time changes nothing. *)
Theorem normalize_idempotent (text : str) :
  _normalize (_normalize text) = _normalize text.
Proof.
  destruct (normalize_gives_one_trimmed_line text) as [Hlf [Hstar [Hfirst Hlast]]].
  unfold _normalize at 1.
  rewrite (replace_char_absent (chr 10)) by exact Hlf.
  rewrite (replace_char_absent "*"%char) by exact Hstar.
  apply strip_fixed; assumption.
Qed.

(** The normalized text is empty exactly when the text has nothing but
    white space and asterisks in it. *)
Theorem normalize_empty_iff_blank (text : str) :
  _normalize text = [] <->
  forallb (fun c => is_space c || Ascii.eqb c "*") text = true.
Proof.
  unfold _normalize. rewrite strip_nil, !forallb_replace_char.
  rewrite (forallb_pointwise _ (fun c => is_space c || Ascii.eqb c "*"));
    [ reflexivity | ].
  intros c. destruct (Ascii.eqb c (chr 10)) eqn:E.
  - apply Ascii.eqb_eq in E. subst c. reflexivity.
  - destruct (Ascii.eqb c "*"); [ rewrite orb_true_r | rewrite orb_false_r ];
      reflexivity.
Qed.

(** ** The request body and the case id *)

(** The parsed body is a mapping, except when the body is JSON text of
    something else, which comes back as it parsed; text that does not
    parse, a body of another type and a missing body all give the empty
    mapping. *)
Lemma parse_body_gives_a_mapping_or_the_parsed_text
    (json_loads : str -> result json) (event : dict) :
  let payload := _parse_body json_loads event in
  (is_dict payload = true \/
   exists text, dict_get event (s2l "body") = Some (JStr text) /\
                json_loads text = Ok payload) /\
  ((forall text, dict_get event (s2l "body") = Some (JStr text) ->
                 json_loads text = Raise JSONDecodeError) ->
   (forall d, dict_get event (s2l "body") <> Some (JDict d)) ->
   payload = JDict []).
Proof.
  unfold _parse_body. split.
  - destruct (dict_get event (s2l "body")) as [[ | | | | text | | d] | ];
      try (left; reflexivity).
    destruct (json_loads text) as [v | e] eqn:E; [ | left; reflexivity ].
    right. exists text. split; [ reflexivity | exact E ].
  - intros Htext Hdict.
    destruct (dict_get event (s2l "body")) as [[ | | | | text | | d] | ];
      try reflexivity.
    + rewrite (Htext text eq_refl). reflexivity.
    + exfalso. exact (Hdict d eq_refl).
Qed.

Lemma case_id_or_na_spec (d : dict) :
  truthy (case_id_or_na d) = true /\
  (case_id_or_na d = JStr (s2l "NA") \/
   dict_get d (s2l "case_id") = Some (case_id_or_na d)).
Proof.
  unfold case_id_or_na.
  destruct (dict_get d (s2l "case_id")) as [v | ]; [ | split; [ reflexivity | left; reflexivity ] ].
  destruct (truthy v) eqn:E.
  - split; [ exact E | right; reflexivity ].
  - split; [ reflexivity | left; reflexivity ].
Qed.

(** The case id is never empty, zero, false or [None]: it is the text
    [NA], or the value the security detail holds under [case_id], taken as
    it is from the detail the caller sent, not from the scrubbed
    payload. *)
Theorem extract_case_id_is_the_raw_value_or_NA
    (json_loads : str -> result json) (sec : json) :
  let case_id := _extract_case_id json_loads sec in
  truthy case_id = true /\
  (case_id = JStr (s2l "NA") \/
   exists d,
     (sec = JDict d \/ exists text, sec = JStr text /\ json_loads text = Ok (JDict d)) /\
     dict_get d (s2l "case_id") = Some case_id).
Proof.
  unfold _extract_case_id.
  destruct sec as [ | b | z | r | text | l | d ];
    try (split; [ reflexivity | left; reflexivity ]).
  - destruct (json_loads text) as [[ | b | z | r | s | l | d ] | e] eqn:E;
      try (split; [ reflexivity | left; reflexivity ]).
    destruct (case_id_or_na_spec d) as [Ht [Hna | Hget]].
    + split; [ exact Ht | left; exact Hna ].
    + split; [ exact Ht | ]. right. exists d. split; [ | exact Hget ].
      right. exists text. split; [ reflexivity | exact E ].
  - destruct (case_id_or_na_spec d) as [Ht [Hna | Hget]].
    + split; [ exact Ht | left; exact Hna ].
    + split; [ exact Ht | ]. right. exists d. split; [ | exact Hget ].
      left. reflexivity.
Qed.

(** ** The handler *)

Section HandlerFacts.

Variable json_loads : str -> result json.
Variable secret : bytes.
Variable PROFILE_ARN : option str.
Variable invoke_model : str -> str -> outcome str.
Variable utcnow : str.
Variable put_object : str -> str -> bytes -> outcome unit.
Variable format : json -> str.

Local Notation generate :=
  (sar_generate_using_bedrock json_loads secret PROFILE_ARN invoke_model).
Local Notation handler :=
  (lambda_handler json_loads secret PROFILE_ARN invoke_model utcnow put_object format).
Local Notation key_of := (sar_key utcnow format).
Local Notation object_of := (sar_object utcnow).

Lemma handler_missing_field (event : dict) (d : dict) :
  _parse_body json_loads event = JDict d ->
  dict_get d (s2l "security_detail_json") = None ->
  handler event
  = (answer 400 [ (s2l "error",
                   JStr (s2l "missing field: 'security_detail_json'")) ], None).
Proof.
  intros Hp Hg. unfold lambda_handler, handle. rewrite Hp.
  unfold security_detail_of. rewrite Hg. reflexivity.
Qed.

(** A request whose body is a mapping without [security_detail_json] is
    answered 400, whatever the model and the store would do: neither is
    called, and nothing is stored. *)
Theorem handler_answers_400_without_security_detail (event : dict) (d : dict) :
  dict_get event (s2l "body") = Some (JDict d) ->
  dict_get d (s2l "security_detail_json") = None ->
  handler event
  = (answer 400 [ (s2l "error",
                   JStr (s2l "missing field: 'security_detail_json'")) ], None).
Proof.
  intros Hb Hg. apply (handler_missing_field event d); [ | exact Hg ].
  unfold _parse_body. rewrite Hb. reflexivity.
Qed.

(** So is a request whose body is missing, is not text or a mapping, or
    is text that does not parse: the parse error is caught, the body
    counts as the empty mapping, and the answer names the missing field. *)
Theorem handler_answers_400_for_unreadable_body (event : dict) :
  (forall text, dict_get event (s2l "body") = Some (JStr text) ->
                json_loads text = Raise JSONDecodeError) ->
  (forall d, dict_get event (s2l "body") <> Some (JDict d)) ->
  handler event
  = (answer 400 [ (s2l "error",
                   JStr (s2l "missing field: 'security_detail_json'")) ], None).
Proof.
  intros Htext Hdict. apply (handler_missing_field event []); [ | reflexivity ].
  unfold _parse_body.
  destruct (dict_get event (s2l "body")) as [[ | | | | text | | d] | ];
    try reflexivity.
  - rewrite (Htext text eq_refl). reflexivity.
  - exfalso. exact (Hdict d eq_refl).
Qed.

(** A security detail that is text and does not parse is answered 502
    with the error [internal]: the parse error of the payload builder is
    not caught before the handler's last [except].  The model is not
    called and nothing is stored. *)
Theorem handler_answers_502_for_unparseable_security_detail
    (event : dict) (d : dict) (text : str) :
  _parse_body json_loads event = JDict d ->
  dict_get d (s2l "security_detail_json") = Some (JStr text) ->
  json_loads text = Raise JSONDecodeError ->
  handler event = (answer 502 [ (s2l "error", JStr (s2l "internal")) ], None).
Proof.
  intros Hp Hg Hl. unfold lambda_handler, handle. rewrite Hp.
  unfold security_detail_of. rewrite Hg. cbn [and_then].
  unfold sar_generate_using_bedrock, make_safe_payload. rewrite Hl. reflexivity.
Qed.

Lemma generate_needs_profile_arn (sec : json) :
  PROFILE_ARN = None \/ PROFILE_ARN = Some [] ->
  exists e, generate sec = Throw e.
Proof.
  intros Harn. unfold sar_generate_using_bedrock.
  destruct (make_safe_payload json_loads secret sec) as [safe | []]; cbn [lift and_then].
  - destruct Harn as [-> | ->]; exists OtherError; reflexivity.
  - exists OtherError. reflexivity.
Qed.

(** Without [INFERENCE_PROFILE_ARN], or with an empty one, the handler
    starts and answers, but no request is answered 200 and nothing is
    stored: the variable is looked at in each call, after the payload has
    been built. *)
Theorem handler_never_succeeds_without_profile_arn (event : dict) :
  PROFILE_ARN = None \/ PROFILE_ARN = Some [] ->
  statusCode (fst (handler event)) <> 200 /\ snd (handler event) = None.
Proof.
  intros Harn. unfold lambda_handler, handle.
  destruct (security_detail_of (_parse_body json_loads event)) as [sec | [shown | ]];
    cbn [and_then]; [ | split; [ discriminate | reflexivity ] .. ].
  destruct (generate_needs_profile_arn sec Harn) as [e He]. rewrite He.
  cbn [and_then]. destruct e; split; (discriminate || reflexivity).
Qed.

(** The handler answers 200, 400 or 502.  It stores an object exactly when
    it answers 200, and then the model gave a narrative that is not empty,
    the object went to the key made of the case id and the time stamp, and
    the store accepted it. *)
Theorem handler_stores_exactly_when_it_answers_200 (event : dict) :
  In (statusCode (fst (handler event))) [200; 400; 502] /\
  (statusCode (fst (handler event)) <> 200 -> snd (handler event) = None) /\
  (statusCode (fst (handler event)) = 200 ->
   exists sec narrative,
     security_detail_of (_parse_body json_loads event) = Return sec /\
     generate sec = Return narrative /\
     narrative <> [] /\
     put_object BUCKET (key_of (_extract_case_id json_loads sec))
       (object_of (_extract_case_id json_loads sec) narrative) = Return tt /\
     snd (handler event)
     = Some (key_of (_extract_case_id json_loads sec),
             object_of (_extract_case_id json_loads sec) narrative)).
Proof.
  unfold lambda_handler, handle.
  destruct (security_detail_of (_parse_body json_loads event)) as [sec | [shown | ]];
    cbn [and_then];
    [ | cbn; repeat split; (tauto || discriminate) .. ].
  destruct (generate sec) as [narrative | [shown | ]] eqn:Hgen;
    cbn [and_then];
    [ | cbn; repeat split; (tauto || discriminate) .. ].
  destruct narrative as [ | c narrative ];
    [ cbn; repeat split; (tauto || discriminate) | ].
  destruct (put_object BUCKET (key_of (_extract_case_id json_loads sec))
              (object_of (_extract_case_id json_loads sec) (c :: narrative)))
    as [[] | [shown | ]] eqn:Hput;
    cbn [and_then];
    [ | cbn; repeat split; (tauto || discriminate) .. ].
  cbn [fst snd statusCode answer]. split; [ simpl; tauto | ]. split.
  - intros H. exfalso. apply H. reflexivity.
  - intros _. exists sec, (c :: narrative).
    split; [ reflexivity | ]. split; [ exact Hgen | ].
    split; [ discriminate | ]. split; [ exact Hput | reflexivity ].
Qed.


End HandlerFacts.

(** *** The theorems on sample requests *)

Lemma handler_answers_400_without_security_detail_witness :
  sample_handler (Some sample_arn)
    [ (s2l "body", JDict [ (s2l "detail", JStr (s2l "x")) ]) ]
  = (answer 400 [ (s2l "error",
                   JStr (s2l "missing field: 'security_detail_json'")) ], None).
Proof.
  unfold sample_handler.
  apply (handler_answers_400_without_security_detail _ _ _ _ _ _ _ _
           [ (s2l "detail", JStr (s2l "x")) ]); reflexivity.
Defined.

Lemma handler_answers_400_for_unreadable_body_witness :
  sample_handler (Some sample_arn) [ (s2l "body", JStr (s2l "{not json")) ]
  = (answer 400 [ (s2l "error",
                   JStr (s2l "missing field: 'security_detail_json'")) ], None).
Proof.
  unfold sample_handler. apply handler_answers_400_for_unreadable_body.
  - intros text H. injection H as <-. reflexivity.
  - intros d H. discriminate H.
Defined.

Lemma handler_answers_502_for_unparseable_security_detail_witness :
  sample_handler (Some sample_arn)
    [ (s2l "body",
       JDict [ (s2l "security_detail_json",
                JStr (s2l "not valid structured text")) ]) ]
  = (answer 502 [ (s2l "error", JStr (s2l "internal")) ], None).
Proof.
  unfold sample_handler.
  apply (handler_answers_502_for_unparseable_security_detail _ _ _ _ _ _ _ _
           [ (s2l "security_detail_json", JStr (s2l "not valid structured text")) ]
           (s2l "not valid structured text")); reflexivity.
Defined.

Lemma handler_never_succeeds_without_profile_arn_witness :
  statusCode (fst (sample_handler None sample_event)) <> 200 /\
  snd (sample_handler None sample_event) = None.
Proof.
  unfold sample_handler. apply handler_never_succeeds_without_profile_arn.
  left. reflexivity.
Defined.

(** With the profile set, the sample request is answered 200, and the
    object goes to a key that holds the case id as the caller sent it. *)
Lemma handler_stores_exactly_when_it_answers_200_witness :
  statusCode (fst (sample_handler (Some sample_arn) sample_event)) = 200 /\
  exists stored,
    snd (sample_handler (Some sample_arn) sample_event)
    = Some (s2l "sar-output/ceo@bank.com/20240503T101500Z.json", stored).
Proof.
  assert (H : statusCode (fst (sample_handler (Some sample_arn) sample_event)) = 200)
    by (vm_compute; reflexivity).
  split; [ exact H | ].
  unfold sample_handler in *.
  destruct (handler_stores_exactly_when_it_answers_200
              sample_loads default_secret (Some sample_arn)
              (fun _ _ => Return (Dumps.compact sample_answer))
              sample_stamp (fun _ _ _ => Return tt) sample_format sample_event)
    as [_ [_ Hok]].
  destruct (Hok H) as [sec [narrative [Hsec [_ [_ [_ Hst]]]]]].
  rewrite Hst. injection Hsec as <-. eexists. reflexivity.
Defined.

